(** * The package cache and the progressive fetch/extract pipeline

    A shallow embedding of [conda/core/package_cache.py] and of the [Dist]
    class of [conda/models/dist.py], with the properties of the
    specification stated over it. *)

From Stdlib Require Import List Bool Arith ZArith Lia.
From Stdlib Require Import Ascii String.
From Stdlib Require Import Sorting.Sorted Sorting.Permutation Sorting.Mergesort.
From Stdlib Require Import Structures.Orders Structures.OrderedTypeEx.
From Stdlib Require Import Relations.Relation_Definitions Classes.RelationClasses.
Import ListNotations.

#[local] Set Warnings "-register-all".

Local Open Scope list_scope.
Local Open Scope string_scope.

(** ** Python strings

    Text is modelled by [string]; comparison of two strings is the
    lexicographic comparison of their characters, which is [String.compare]. *)

Module PyStr.

(** [CONDA_TARBALL_EXTENSION] of [conda.base.constants]. *)
Definition CONDA_TARBALL_EXTENSION : string := ".tar.bz2".

(** Truth value of a string: the empty string is false. *)
Definition truthy (s : string) : bool :=
  match s with EmptyString => false | _ => true end.

(** [s.endswith(suffix)]. *)
Definition endswith (s suffix : string) : bool :=
  let n := String.length s in
  let m := String.length suffix in
  if Nat.leb m n then String.eqb (substring (n - m) m s) suffix else false.

(** [s.startswith(p)]. *)
Definition startswith (s p : string) : bool := String.prefix p s.

Definition occurs (c : ascii) (s : string) : bool :=
  existsb (Ascii.eqb c) (list_ascii_of_string s).

(** The part of [s] after its last occurrence of the character [c], the
    whole of [s] when [c] does not occur: [s.rsplit(c, 1)[-1]]. *)
Fixpoint rsplit1_last (c : ascii) (s : string) : string :=
  match s with
  | EmptyString => EmptyString
  | String a rest =>
      if occurs c rest then rsplit1_last c rest
      else if Ascii.eqb a c then rest
      else String a rest
  end.

(** [os.path.basename] on POSIX paths: everything after the last slash. *)
Definition basename (p : string) : string := rsplit1_last "/"%char p.

(** [p[:p.rfind('/') + 1]] *)
Fixpoint upto_last_slash (p : string) : string :=
  match p with
  | EmptyString => EmptyString
  | String a rest =>
      if occurs "/"%char rest then String a (upto_last_slash rest)
      else if Ascii.eqb a "/"%char then "/"
      else EmptyString
  end.

(** [s.rstrip('/')] *)
Fixpoint rstrip_slash (s : string) : string :=
  match s with
  | EmptyString => EmptyString
  | String a rest =>
      match rstrip_slash rest with
      | EmptyString => if Ascii.eqb a "/"%char then EmptyString else String a EmptyString
      | r => String a r
      end
  end.

(** [os.path.dirname] on POSIX paths: the head up to the last slash,
    without its trailing slashes unless it consists of slashes only. *)
Definition dirname (p : string) : string :=
  let head := upto_last_slash p in
  if truthy (rstrip_slash head) then rstrip_slash head else head.

(** [os.path.join] of two POSIX components. *)
Definition join (a b : string) : string :=
  if startswith b "/" then b
  else if orb (negb (truthy a)) (endswith a "/") then a ++ b
  else a ++ "/" ++ b.

(** [s[:-len(suffix)]]. *)
Definition strip_last (n : nat) (s : string) : string :=
  substring 0 (String.length s - n) s.


(** [n] copies of [e] in a row. *)
Fixpoint repeat_str (e : string) (n : nat) : string :=
  match n with
  | O => EmptyString
  | S k => e ++ repeat_str e k
  end.

End PyStr.

(** ** Sorting

    [sorted(xs)] on a list of strings is a merge sort by the order above. *)

Module StringOrder <: TotalLeBool.
Definition t := string.
Definition leb := String.leb.
Definition leb_total : forall a1 a2, leb a1 a2 = true \/ leb a2 a1 = true
  := String.leb_total.
End StringOrder.

Module StringSort := Sort StringOrder.

Definition sorted (l : list string) : list string := StringSort.sort l.

(** [functools.reduce(f, seq)] without an initial value, for a function [f]
    that also updates a state of type [S] (the variables it closes over):
    [None] stands for the [TypeError] on an empty sequence. *)
Fixpoint reduce_from {S A : Type} (f : S -> A -> A -> S * A)
    (st : S) (acc : A) (l : list A) : S * A :=
  match l with
  | [] => (st, acc)
  | y :: rest => let '(st', acc') := f st acc y in reduce_from f st' acc' rest
  end.

Definition reduce {S A : Type} (f : S -> A -> A -> S * A)
    (st : S) (l : list A) : option (S * A) :=
  match l with
  | [] => None
  | a :: rest => Some (reduce_from f st a rest)
  end.

(** ** [PackageCache._dedupe_pkgs_dir_contents] *)

Module Dedupe.
Import PyStr.

(** The local function [_process(x, y)]; the list [contents] it appends to
    is passed in and out. *)
Definition _process (contents : list string) (x y : string)
    : list string * string :=
  (if String.eqb (x ++ CONDA_TARBALL_EXTENSION) y
   then contents
   else (contents ++ [x])%list,
   y).

(** [contents and contents[-1] or ''] *)
Definition last_or_empty (contents : list string) : string :=
  match contents with
  | [] => ""
  | _ :: _ => let s := List.last contents "" in if truthy s then s else ""
  end.

Definition _dedupe_pkgs_dir_contents (pkgs_dir_contents : list string)
    : list string :=
  match pkgs_dir_contents with
  | [] => []
  | _ :: _ =>
      match reduce _process [] (sorted pkgs_dir_contents) with
      | None => [] (* reduce raises on an empty sequence *)
      | Some (contents, last) =>
          fst (_process contents last (last_or_empty contents))
      end
  end.

(** The pair dedup rule in the words of the specification: on a listing,
    an element immediately followed by itself plus the tarball extension
    is dropped, every other element is emitted. *)
Fixpoint drop_paired (l : list string) : list string :=
  match l with
  | [] => []
  | x :: rest =>
      match rest with
      | [] => [x]
      | y :: _ =>
          if String.eqb (x ++ CONDA_TARBALL_EXTENSION) y
          then drop_paired rest
          else x :: drop_paired rest
      end
  end.

Definition sle (x y : string) : Prop := String.leb x y = true.
Definition slt (x y : string) : Prop := String.ltb x y = true.

End Dedupe.

(** ** [conda.models.dist.Dist] *)

Module DistModel.
Import PyStr.

(** [UNKNOWN_CHANNEL] and [DEFAULTS_CHANNEL_NAME] of [conda.base.constants]. *)
Definition UNKNOWN_CHANNEL : string := "<unknown>".
Definition DEFAULTS_CHANNEL_NAME : string := "defaults".

(** The slots of a [Dist].  [channel] and [with_features_depends] may be
    [None]; the name, version and build string are text, as every
    constructor of the class leaves them. *)
Record Dist := mkDist {
  channel : option string;
  name : string;
  version : string;
  build_string : string;
  build_number : Z;
  with_features_depends : option string
}.

Definition build (d : Dist) : string := build_string d.

Definition is_feature_package (d : Dist) : bool := endswith (name d) "@".

Definition dist_name (d : Dist) : string :=
  if is_feature_package d then name d
  else name d ++ "-" ++ version d ++ "-" ++ build d.

(** [pkey]: the name alone for a feature package; otherwise the dist name,
    behind ["<channel>::"] when the channel is set and is not
    [UNKNOWN_CHANNEL].  The build number and [with_features_depends] are
    not read. *)
Definition pkey (d : Dist) : string :=
  if endswith (name d) "@" then name d
  else
    let dist := name d ++ "-" ++ version d ++ "-" ++ build d in
    match channel d with
    | Some c =>
        if truthy c && negb (String.eqb c UNKNOWN_CHANNEL)
        then c ++ "::" ++ dist
        else dist
    | None => dist
    end.

(** The values a [Dist] can be compared with. *)
Inductive PyObj :=
| ONone
| OInt (z : Z)
| OStr (s : string)
| OList (l : list string)
| ODist (d : Dist).

(** The result of comparing two values with [<]: the two are ordered, equal,
    or of types that [<] does not relate ([TypeError]). *)
Inductive Ordering := Less | Equal | Greater | Unorderable.

Definition compare_str (a b : string) : Ordering :=
  match String.compare a b with
  | Lt => Less
  | Eq => Equal
  | Gt => Greater
  end.

(** [None] equals [None] and is unordered with a string. *)
Definition compare_opt (a b : option string) : Ordering :=
  match a, b with
  | None, None => Equal
  | Some x, Some y => compare_str x y
  | _, _ => Unorderable
  end.

(** [__key__]: the tuple [(channel, dist_name, with_features_depends)]. *)
Definition __key__ (d : Dist) : option string * string * option string :=
  (channel d, dist_name d, with_features_depends d).

(** Comparison of two such tuples: the first position where they differ
    decides. *)
Definition compare_key (k1 k2 : option string * string * option string)
    : Ordering :=
  let '(c1, n1, w1) := k1 in
  let '(c2, n2, w2) := k2 in
  match compare_opt c1 c2 with
  | Equal =>
      match compare_str n1 n2 with
      | Equal => compare_opt w1 w2
      | o => o
      end
  | o => o
  end.

(** [None] stands for the [TypeError] of an unordered pair. *)
Definition __lt__ (d other : Dist) : option bool :=
  match compare_key (__key__ d) (__key__ other) with
  | Less => Some true
  | Equal | Greater => Some false
  | Unorderable => None
  end.

Definition __gt__ (d other : Dist) : option bool :=
  match compare_key (__key__ d) (__key__ other) with
  | Greater => Some true
  | Equal | Less => Some false
  | Unorderable => None
  end.

Definition __le__ (d other : Dist) : option bool :=
  match compare_key (__key__ d) (__key__ other) with
  | Less | Equal => Some true
  | Greater => Some false
  | Unorderable => None
  end.

Definition __ge__ (d other : Dist) : option bool :=
  match compare_key (__key__ d) (__key__ other) with
  | Greater | Equal => Some true
  | Less => Some false
  | Unorderable => None
  end.

Section Hashing.

(** The interpreter's [hash] on strings, integers and [None]: fixed for the
    life of a process, otherwise unknown. *)
Variable hash_str : string -> Z.
Variable hash_int : Z -> Z.
Variable hash_none : Z.

Definition __hash__ (d : Dist) : Z := hash_str (pkey d).

(** [hash(o)]; [None] stands for the [TypeError] of an unhashable value. *)
Definition py_hash (o : PyObj) : option Z :=
  match o with
  | ONone => Some hash_none
  | OInt z => Some (hash_int z)
  | OStr s => Some (hash_str s)
  | OList _ => None
  | ODist d => Some (__hash__ d)
  end.

(** [hash(self) == hash(other)] *)
Definition __eq__ (d : Dist) (other : PyObj) : option bool :=
  match py_hash other with
  | Some h => Some (Z.eqb (__hash__ d) h)
  | None => None
  end.

Definition __ne__ (d : Dist) (other : PyObj) : option bool :=
  option_map negb (__eq__ d other).

End Hashing.

(** The identity tuple of the specification,
    [(channel, name, version, build_string, build_number)], and the
    lexicographic order over it. *)
Definition spec_tuple (d : Dist) : option string * string * string * string * Z :=
  (channel d, name d, version d, build_string d, build_number d).

Definition compare_Z (a b : Z) : Ordering :=
  match Z.compare a b with
  | Lt => Less
  | Eq => Equal
  | Gt => Greater
  end.

Definition then_compare (o : Ordering) (k : Ordering) : Ordering :=
  match o with Equal => k | _ => o end.

Definition spec_compare (d1 d2 : Dist) : Ordering :=
  then_compare (compare_opt (channel d1) (channel d2))
  (then_compare (compare_str (name d1) (name d2))
  (then_compare (compare_str (version d1) (version d2))
  (then_compare (compare_str (build_string d1) (build_string d2))
                (compare_Z (build_number d1) (build_number d2))))).

(** The same comparison with the operands exchanged. *)
Definition flip (o : Ordering) : Ordering :=
  match o with
  | Less => Greater
  | Greater => Less
  | Equal => Equal
  | Unorderable => Unorderable
  end.

(** Strictly below, on optional strings and on keys, as a proposition. *)
Definition lt_opt (a b : option string) : Prop := compare_opt a b = Less.

(** The lexicographic order on keys: the first component that differs is
    strictly below. *)
Definition key_lt (k1 k2 : option string * string * option string) : Prop :=
  let '(c1, n1, w1) := k1 in
  let '(c2, n2, w2) := k2 in
  lt_opt c1 c2 \/
  (c1 = c2 /\ (compare_str n1 n2 = Less \/ (n1 = n2 /\ lt_opt w1 w2))).

(** Two [Dist]s that differ in the build number only, and two that the
    identity tuple and the key order differently. *)
Definition dist_x_build0 : Dist := mkDist (Some "defaults") "x" "1" "0" 0 None.
Definition dist_x_build1 : Dist := mkDist (Some "defaults") "x" "1" "0" 1 None.
Definition dist_a : Dist := mkDist (Some "defaults") "a" "z" "0" 0 None.
Definition dist_a_b : Dist := mkDist (Some "defaults") "a-b" "1" "0" 0 None.

Definition with_build_number (n : Z) (d : Dist) : Dist :=
  mkDist (channel d) (name d) (version d) (build_string d) n
         (with_features_depends d).

Definition with_wfd (w : option string) (d : Dist) : Dist :=
  mkDist (channel d) (name d) (version d) (build_string d) (build_number d) w.

End DistModel.

(** ** [UrlsData]: the [urls.txt] index of a cache root *)

Module Urls.
Import PyStr.

(** What [add_url] reads of [Channel(url)]; the class is in
    [conda.models.channel]. *)
Record ChannelInfo := mkChannelInfo {
  safe_name : string;
  subdir : option string
}.

(** [_urls_data], a [defaultdict(list)]: the keys are [None] and the strings
    ["<safe_name>/<subdir>"], kept in the order they were first used. *)
Definition UrlsDict := list (option string * list string).

Definition key_eqb (a b : option string) : bool :=
  match a, b with
  | None, None => true
  | Some x, Some y => String.eqb x y
  | _, _ => false
  end.

(** [d[k].insert(0, url)]: a missing key is first bound to the empty list. *)
Fixpoint insert0 (k : option string) (url : string) (d : UrlsDict) : UrlsDict :=
  match d with
  | [] => [(k, [url])]
  | (k', v) :: rest =>
      if key_eqb k k' then (k', url :: v) :: rest
      else (k', v) :: insert0 k url rest
  end.

(** A [UrlsData] object together with what it has written: the lines
    appended, file by file, most recent first. *)
Record UrlsData := mkUrlsData {
  pkgs_dir : string;
  urls_txt_path : string;
  _urls_data : UrlsDict;
  appended : list (string * string)
}.

(** A [UrlsData] over a root that has no [urls.txt] yet. *)
Definition new_UrlsData (root : string) : UrlsData :=
  mkUrlsData root (join root "urls.txt") [] [].

(** [first(seq, key)] of [auxlib.collection]: the first element the key
    accepts, [None] when there is none. *)
Definition first {A : Type} (key : A -> bool) (seq : list A) : option A :=
  List.find key seq.

Section WithChannel.

Variable Channel : string -> ChannelInfo.

Definition subdir_truthy (c : ChannelInfo) : option string :=
  match subdir c with
  | Some sd => if truthy sd then Some sd else None
  | None => None
  end.

Definition add_url (self : UrlsData) (url : string) : UrlsData :=
  if negb (truthy url) then self
  else
    let channel := Channel url in
    let self1 :=
      match subdir_truthy channel with
      | Some sd =>
          let channel_safe_name := safe_name channel in
          let key := channel_safe_name ++ "/" ++ sd in
          let path := join (join (join (pkgs_dir self) channel_safe_name) sd) "urls.txt" in
          mkUrlsData (pkgs_dir self) (urls_txt_path self)
                     (insert0 (Some key) url (_urls_data self))
                     ((path, url ++ String "010"%char "") :: appended self)
      | None => self
      end in
    mkUrlsData (pkgs_dir self1) (urls_txt_path self1)
               (insert0 None url (_urls_data self1))
               ((urls_txt_path self1, url ++ String "010"%char "") :: appended self1).

End WithChannel.

(** The file name [get_url] looks for. *)
Definition lookup_filename (package_fn_or_path : string) : string :=
  let filename := basename package_fn_or_path in
  if endswith filename CONDA_TARBALL_EXTENSION then filename
  else filename ++ CONDA_TARBALL_EXTENSION.

(** [get_url]: [first] runs over the dictionary itself, that is over its
    keys; the key function is [url and basename(url) == filename]. *)
Definition get_url (self : UrlsData) (package_fn_or_path : string) : option string :=
  let filename := lookup_filename package_fn_or_path in
  match first (fun k : option string =>
                 match k with
                 | None => false
                 | Some url => truthy url && String.eqb (basename url) filename
                 end)
              (map fst (_urls_data self)) with
  | Some (Some k) => Some k
  | _ => None
  end.

(** The lookup in the words of the specification: the first URL, across all
    buckets in order, whose file name is the one looked for. *)
Definition get_url_spec (self : UrlsData) (package_fn_or_path : string) : option string :=
  let filename := lookup_filename package_fn_or_path in
  List.find (fun url => truthy url && String.eqb (basename url) filename)
            (List.concat (map snd (_urls_data self))).

(** The URL of scenario S5 and its channel: safe name ["h/c"], subdir
    ["linux-64"]. *)
Definition url_S5 : string := "https://h/c/linux-64/x-1-0.tar.bz2".
Definition Channel_S5 (url : string) : ChannelInfo :=
  mkChannelInfo "h/c" (Some "linux-64").

End Urls.

(** ** Exceptions and results *)

Module Py.

Inductive Exn :=
| CondaError (message : string)
| AssertionError
| ActionError (message : string)
| CondaMultiError (errors : list Exn).

(** The outcome of a call: a value, or a raised exception. *)
Inductive result (A : Type) :=
| Ok (a : A)
| Raise (e : Exn).

Arguments Ok {A} a.
Arguments Raise {A} e.

Definition bind {A B : Type} (r : result A) (k : A -> result B) : result B :=
  match r with
  | Ok a => k a
  | Raise e => Raise e
  end.

(** [next(iter, None)] on a sequence of possibly-[None] values: the first
    value produced, whatever it is, and [None] when nothing is produced. *)
Definition next {A : Type} (gen : list (option A)) : option A :=
  match gen with
  | [] => None
  | x :: _ => x
  end.

End Py.

(** ** [PackageCache]: queries across the cache roots, and the planner *)

Module Cache.
Import PyStr Py.

Declare Scope py_scope.
Notation "x <- e ;; k" := (bind e (fun x => k))
  (at level 61, e at next level, right associativity) : py_scope.
Local Open Scope py_scope.

(** A package reference: the fields the cache and the planner read. *)
Record PackageRef := mkRef {
  ref_channel : string;            (* canonical name of the channel *)
  ref_channel_safe_name : string;  (* [channel.safe_name] *)
  ref_subdir : option string;
  ref_name : string;
  ref_version : string;
  ref_build : string;
  ref_build_number : Z;
  ref_fn : string;
  ref_md5 : option string;
  ref_size : option N;
  ref_url : option string
}.

(** A record of a cache: a reference plus its two paths.  [is_fetched] and
    [is_extracted] are what the two properties of that name find on the
    disk: the tarball, and [info/index.json] in the extracted directory. *)
Record PackageCacheRecord := mkPcrec {
  pcrec_ref : PackageRef;
  package_tarball_full_path : string;
  extracted_package_dir : string;
  is_fetched : bool;
  is_extracted : bool
}.

(** A cache root once loaded: its records in the order of the dictionary
    that holds them, and the value of its [is_writable] property. *)
Record PackageCache := mkCache {
  pkgs_dir : string;
  is_writable : bool;
  _package_cache_records : list PackageCacheRecord
}.

Record CacheUrlAction := mkCacheUrlAction {
  url : string;
  cua_target_pkgs_dir : string;
  cua_target_pkgs_dir_channel_name : option string;
  cua_target_pkgs_dir_subdir : option string;
  target_package_basename : string;
  cua_md5sum : option string;
  expected_size_in_bytes : option N
}.

Inductive RecordOrSpec :=
| OfRecord (pcrec : PackageCacheRecord)
| OfRef (pref : PackageRef).

Record ExtractPackageAction := mkExtractPackageAction {
  source_full_path : string;
  epa_target_pkgs_dir : string;
  epa_target_pkgs_dir_channel_name : option string;
  epa_target_pkgs_dir_subdir : option string;
  target_extracted_dirname : string;
  record_or_spec : RecordOrSpec;
  epa_md5sum : option string
}.

(** Truth value of an optional string: [None] and [''] are false. *)
Definition truthy_opt (o : option string) : option string :=
  match o with
  | Some s => if truthy s then Some s else None
  | None => None
  end.

Section Queries.

(** Equality of a cached record with a reference, [PackageRef.__eq__], and
    [PackageRef.dist_str]; both are in [conda.models.index_record]. *)
Variable pref_eq : PackageRef -> PackageRef -> bool.
Variable dist_str : PackageRef -> string.

(** [context.pkgs_dirs], each directory as its [PackageCache]. *)
Variable pkgs_dirs : list PackageCache.

(** [query] on a [PackageRef]. *)
Definition query (self : PackageCache) (param : PackageRef)
    : list PackageCacheRecord :=
  filter (fun pcrec => pref_eq (pcrec_ref pcrec) param)
         (_package_cache_records self).

Definition writable_caches : result (list PackageCache) :=
  match filter is_writable pkgs_dirs with
  | [] => Raise (CondaError "No writable package cache directories found")
  | cs => Ok cs
  end.

Definition read_only_caches : list PackageCache :=
  filter (fun c => negb (is_writable c)) pkgs_dirs.

Definition first_writable : result PackageCache :=
  cs <- writable_caches ;;
  match cs with
  | c :: _ => Ok c
  | [] => Raise (CondaError "IndexError")
  end.

(** [query_all]: the writable caches, then the read-only ones. *)
Definition query_all (param : PackageRef) : result (list PackageCacheRecord) :=
  ws <- writable_caches ;;
  Ok (List.concat (map (fun pcache => query pcache param)
                       (ws ++ read_only_caches)%list)).

Definition dist_str_no_channel (r : PackageRef) : string :=
  rsplit1_last ":"%char (dist_str r).

Definition _scan_for_dist_no_channel (self : PackageCache) (dist : string)
    : option PackageCacheRecord :=
  List.find (fun pcrec => String.eqb (dist_str_no_channel (pcrec_ref pcrec)) dist)
            (_package_cache_records self).

(** In the fallback, [next] takes the first value the generator yields,
    that is the scan of the first cache, found or not ([if cache] holds of
    every [PackageCache] object). *)
Definition get_entry_to_link (package_ref : PackageRef)
    : result PackageCacheRecord :=
  found <- query_all package_ref ;;
  match List.find is_extracted found with
  | Some pc_entry => Ok pc_entry
  | None =>
      ws <- writable_caches ;;
      let caches := (ws ++ read_only_caches)%list in
      let dist := dist_str_no_channel package_ref in
      match next (map (fun cache => _scan_for_dist_no_channel cache dist) caches) with
      | Some pc_entry => Ok pc_entry
      | None => Raise (CondaError "No package found in cache directories.")
      end
  end.

(** [get_entry_to_link] in the words of the specification: the first
    extracted match, writable caches first; failing that the first entry of
    any cache, writable first, with the same channel-less dist string; an
    error only when no cache has one. *)
Definition entry_to_link_spec (package_ref : PackageRef)
    : result PackageCacheRecord :=
  let caches := (filter is_writable pkgs_dirs ++ read_only_caches)%list in
  match List.find is_extracted
          (List.concat (map (fun c => query c package_ref) caches)) with
  | Some pc_entry => Ok pc_entry
  | None =>
      match List.find
              (fun pcrec => String.eqb (dist_str_no_channel (pcrec_ref pcrec))
                                       (dist_str_no_channel package_ref))
              (List.concat (map _package_cache_records caches)) with
      | Some pc_entry => Ok pc_entry
      | None => Raise (CondaError "No package found in cache directories.")
      end
  end.

(** *** The planner *)

(** [Channel(url)], [path_to_url] and the [target_full_path] property of a
    [CacheUrlAction]: [conda.models.channel], [conda.common.url] and
    [conda.core.path_actions]. *)
Variable Channel : string -> Urls.ChannelInfo.
Variable path_to_url : string -> string.
Variable target_full_path : CacheUrlAction -> string.

Definition ext_len : nat := String.length CONDA_TARBALL_EXTENSION.

Definition make_actions_for_record (pref_or_spec : PackageRef)
    : result (option CacheUrlAction * option ExtractPackageAction) :=
  let md5 := ref_md5 pref_or_spec in
  let extracted_pcrec :=
    match truthy_opt md5 with
    | Some _ =>
        List.find is_extracted
          (List.concat (map (fun c => query c pref_or_spec) pkgs_dirs))
    | None => None
    end in
  match extracted_pcrec with
  | Some _ => Ok (None, None)
  | None =>
      first_writable_cache <- first_writable ;;
      ws <- writable_caches ;;
      match List.find is_fetched
              (List.concat (map (fun pcache => query pcache pref_or_spec) ws)) with
      | Some pcrec =>
          (* extract in place *)
          let extract_axn :=
            mkExtractPackageAction
              (package_tarball_full_path pcrec)
              (dirname (package_tarball_full_path pcrec))
              (Some (ref_channel_safe_name (pcrec_ref pcrec)))
              (ref_subdir (pcrec_ref pcrec))
              (basename (extracted_package_dir pcrec))
              (OfRecord pcrec)
              (ref_md5 (pcrec_ref pcrec)) in
          Ok (None, Some extract_axn)
      | None =>
          match List.find is_fetched
                  (List.concat (map (fun pcache => query pcache pref_or_spec)
                                    read_only_caches)) with
          | Some pcrec =>
              (* link the tarball into the first writable cache, then extract *)
              let cache_axn :=
                mkCacheUrlAction
                  (path_to_url (package_tarball_full_path pcrec))
                  (pkgs_dir first_writable_cache)
                  (Some (ref_channel_safe_name (pcrec_ref pcrec)))
                  (ref_subdir (pcrec_ref pcrec))
                  (ref_fn (pcrec_ref pcrec))
                  md5
                  (ref_size pref_or_spec) in
              let extract_axn :=
                mkExtractPackageAction
                  (target_full_path cache_axn)
                  (pkgs_dir first_writable_cache)
                  (Some (ref_channel_safe_name (pcrec_ref pcrec)))
                  (ref_subdir (pcrec_ref pcrec))
                  (strip_last ext_len (ref_fn (pcrec_ref pcrec)))
                  (OfRecord pcrec)
                  (ref_md5 (pcrec_ref pcrec)) in
              Ok (Some cache_axn, Some extract_axn)
          | None =>
              (* no cache has it: fetch and extract *)
              match truthy_opt (ref_url pref_or_spec) with
              | None => Raise AssertionError
              | Some u =>
                  let channel := Channel u in
                  let '(channel_safe_name, subdir) :=
                    match Urls.subdir_truthy channel with
                    | Some sd => (Some (Urls.safe_name channel), Some sd)
                    | None => (None, None)
                    end in
                  let cache_axn :=
                    mkCacheUrlAction u (pkgs_dir first_writable_cache)
                      channel_safe_name subdir (ref_fn pref_or_spec) md5
                      (ref_size pref_or_spec) in
                  let extract_axn :=
                    mkExtractPackageAction
                      (target_full_path cache_axn)
                      (pkgs_dir first_writable_cache)
                      channel_safe_name subdir
                      (strip_last ext_len (ref_fn pref_or_spec))
                      (OfRef pref_or_spec)
                      md5 in
                  Ok (Some cache_axn, Some extract_axn)
              end
          end
      end
  end.

End Queries.

(** *** An instance, for the scenarios *)

(** Modelled from the spec: [conda.models.index_record] is not among the
    sources; by section 3 two references are equal when their
    [(channel, name, version, build_string, build_number)] agree, and
    [dist_str] is ["<channel>::<name>-<version>-<build>"]. *)
Definition pref_eq_spec (a b : PackageRef) : bool :=
  String.eqb (ref_channel a) (ref_channel b) &&
  String.eqb (ref_name a) (ref_name b) &&
  String.eqb (ref_version a) (ref_version b) &&
  String.eqb (ref_build a) (ref_build b) &&
  Z.eqb (ref_build_number a) (ref_build_number b).

Definition dist_str_spec (r : PackageRef) : string :=
  ref_channel r ++ "::" ++ ref_name r ++ "-" ++ ref_version r ++ "-" ++ ref_build r.

(** The package [x-1-0] as installed from a local tarball, with channel
    [<unknown>], and the same package as a cache records it, from
    [defaults]. *)
Definition ref_x_unknown : PackageRef :=
  mkRef "<unknown>" "<unknown>" None "x" "1" "0" 0 "x-1-0.tar.bz2"
        (Some "abc") None None.

Definition ref_x_defaults : PackageRef :=
  mkRef "defaults" "defaults" (Some "linux-64") "x" "1" "0" 0 "x-1-0.tar.bz2"
        (Some "abc") None None.

Definition pcrec_x : PackageCacheRecord :=
  mkPcrec ref_x_defaults "/ro/pkgs/x-1-0.tar.bz2" "/ro/pkgs/x-1-0" true true.

(** Two roots: a writable one that holds nothing, then a read-only one that
    holds [x-1-0]. *)
Definition cache_rw_empty : PackageCache := mkCache "/rw/pkgs" true [].
Definition cache_ro_x : PackageCache := mkCache "/ro/pkgs" false [pcrec_x].
Definition two_roots : list PackageCache := [cache_rw_empty; cache_ro_x].

End Cache.

(** ** [PackageCache.is_writable] *)

Module Writable.
Import PyStr.

(** A [PackageCache] object, as far as writability goes: its directory and
    the private attribute [__is_writable], [None] until the first probe. *)
Record PackageCacheObj := mkObj {
  pkgs_dir : string;
  __is_writable : option bool
}.

Section Probe.

(** The disk and the three gateway functions the probe calls
    ([conda.gateways.disk]), and [PACKAGE_CACHE_MAGIC_FILE] of
    [conda.base.constants]. *)
Variable FS : Type.
Variable isdir : FS -> string -> bool.
Variable file_path_is_writable : FS -> string -> FS * bool.
Variable create_package_cache_directory : FS -> string -> FS * bool.
Variable PACKAGE_CACHE_MAGIC_FILE : string.

Definition _check_writable (self : PackageCacheObj) (fs : FS)
    : PackageCacheObj * FS * bool :=
  let '(fs', i_wri) :=
    if isdir fs (pkgs_dir self)
    then file_path_is_writable fs (join (pkgs_dir self) PACKAGE_CACHE_MAGIC_FILE)
    else create_package_cache_directory fs (pkgs_dir self) in
  (mkObj (pkgs_dir self) (Some i_wri), fs', i_wri).

(** [self.__is_writable or self._check_writable()] *)
Definition is_writable (self : PackageCacheObj) (fs : FS)
    : PackageCacheObj * FS * bool :=
  match __is_writable self with
  | Some true => (self, fs, true)
  | _ => _check_writable self fs
  end.

(** What happens to a root during the life of a process: an access to
    [is_writable], the probe that [load] runs on its own, or a change of
    the disk by anyone else. *)
Inductive Op :=
| Access
| Load
| External (change : FS -> FS).

(** The values the accesses to [is_writable] report, in order. *)
Fixpoint run (ops : list Op) (self : PackageCacheObj) (fs : FS) : list bool :=
  match ops with
  | [] => []
  | Access :: rest =>
      let '(self', fs', r) := is_writable self fs in r :: run rest self' fs'
  | Load :: rest =>
      let '(self', fs', _) := _check_writable self fs in run rest self' fs'
  | External change :: rest => run rest self (change fs)
  end.

Definition is_load (o : Op) : bool :=
  match o with Load => true | _ => false end.

End Probe.

(** Modelled from the spec: [conda.gateways.disk] is not among the sources.
    A disk is the directories that exist and the paths the process may
    write; probing writes nothing, and creating a root succeeds when its
    parent may be written, making the root and its magic file. *)
Record Disk := mkDisk {
  dirs : list string;
  writable_paths : list string
}.

Definition mem (p : string) (l : list string) : bool := existsb (String.eqb p) l.

Definition disk_isdir (d : Disk) (p : string) : bool := mem p (dirs d).

Definition disk_file_path_is_writable (d : Disk) (p : string) : Disk * bool :=
  (d, mem p (writable_paths d)).

Definition MAGIC : string := "urls.txt".

Definition disk_create_package_cache_directory (d : Disk) (p : string) : Disk * bool :=
  if mem (dirname p) (writable_paths d)
  then (mkDisk (p :: dirs d) (join p MAGIC :: p :: writable_paths d), true)
  else (d, false).

(** A root that exists and cannot be written, and the same disk after its
    owner has opened the root to the process. *)
Definition root_obj : PackageCacheObj := mkObj "/opt/pkgs" None.
Definition disk_read_only : Disk := mkDisk ["/opt/pkgs"] [].
Definition chmod_root (d : Disk) : Disk :=
  mkDisk (dirs d) ("/opt/pkgs/urls.txt" :: "/opt/pkgs" :: writable_paths d).
Definition chmod_root_back (d : Disk) : Disk := mkDisk (dirs d) [].

Definition disk_run : list (Op Disk) -> PackageCacheObj -> Disk -> list bool :=
  run Disk disk_isdir disk_file_path_is_writable
      disk_create_package_cache_directory MAGIC.

End Writable.

(** ** [ProgressiveFetchExtract]: the executor *)

Module Executor.
Import PyStr Py Cache.

(** The switches of [context] that [execute] reads. *)
Record Context := mkContext {
  dry_run : bool;
  verbosity : nat;
  quiet : bool;
  json : bool
}.

Inductive Action :=
| Fetch (axn : CacheUrlAction)
| Extract (axn : ExtractPackageAction).

Inductive Phase := Verify | Execute | Reverse | Cleanup.

(** The callback handed to [execute]: a completed fraction [pct] moves the
    bar to [pct * scale + offset], both in hundredths. *)
Record ProgressCallback := mkCallback {
  scale : nat;
  offset : nat
}.

(** What the executor does that can be seen from outside, with, for a call
    on an action, the exception it raised if any. *)
Inductive Event :=
| EvPrint (text : string)
| EvLogDebug
| EvSignalHandlerEnter
| EvSignalHandlerExit
| EvProgressBar (description : string) (enabled : bool) (as_json : bool)
| EvCall (ph : Phase) (a : Action) (cb : option ProgressCallback)
         (raised : option Exn)
| EvProgressFinish
| EvProgressClose.

Definition Plan : Type := option CacheUrlAction * option ExtractPackageAction.

(** The object: [paired_actions] is an ordered dictionary, here the list of
    its items in insertion order. *)
Record ProgressiveFetchExtract := mkPFE {
  link_precs : list PackageRef;
  paired_actions : list (PackageRef * Plan);
  _prepared : bool
}.

Section Run.

(** The world the actions work on, and what each phase of each action does
    to it: the four methods of [CacheUrlAction] and [ExtractPackageAction]
    are in [conda.core.path_actions]. *)
Variable World : Type.
Variable perform : Phase -> Action -> World -> World * option Exn.

(** The planner, as [prepare] calls it, and equality of the keys of
    [paired_actions]. *)
Variable planner : PackageRef -> World -> World * result Plan.
Variable pref_eq : PackageRef -> PackageRef -> bool.

Variable context : Context.

Record State := mkState {
  world : World;
  log : list Event;
  self : ProgressiveFetchExtract
}.

(** Computations that read and change the state and may raise. *)
Definition M (A : Type) : Type := State -> State * result A.

Definition ret {A : Type} (a : A) : M A := fun st => (st, Ok a).

Definition raise {A : Type} (e : Exn) : M A := fun st => (st, Raise e).

Definition mbind {A B : Type} (m : M A) (k : A -> M B) : M B :=
  fun st =>
    match m st with
    | (st', Ok a) => k a st'
    | (st', Raise e) => (st', Raise e)
    end.

Notation "x <-- e ;; k" := (mbind e (fun x => k))
  (at level 61, e at next level, right associativity).
Notation "e ;;; k" := (mbind e (fun _ => k))
  (at level 61, right associativity).

Definition emit (ev : Event) : M unit :=
  fun st => (mkState (world st) (log st ++ [ev])%list (self st), Ok tt).

Definition get_self : M ProgressiveFetchExtract := fun st => (st, Ok (self st)).

Definition set_self (pfe : ProgressiveFetchExtract) : M unit :=
  fun st => (mkState (world st) (log st) pfe, Ok tt).

(** A call of one phase of an action. *)
Definition call (ph : Phase) (a : Action) (cb : option ProgressCallback) : M unit :=
  fun st =>
    let '(w, raised) := perform ph a (world st) in
    (mkState w (log st ++ [EvCall ph a cb raised])%list (self st),
     match raised with
     | Some e => Raise e
     | None => Ok tt
     end).

(** [try: body / except Exception as e: handler / else: orelse /
    finally: final]. *)
Definition try_except_else_finally {A : Type}
    (body : M unit) (handler : Exn -> M A) (orelse : M A) (final : M unit) : M A :=
  fun st =>
    let '(st1, r1) := body st in
    let '(st2, r2) :=
      match r1 with
      | Ok _ => orelse st1
      | Raise e => handler e st1
      end in
    match final st2 with
    | (st3, Ok _) => (st3, r2)
    | (st3, Raise e) => (st3, Raise e)
    end.

(** [with signal_handler(conda_signal_handler): body] *)
Definition with_signal_handler {A : Type} (body : M A) : M A :=
  fun st =>
    let '(st0, _) := emit EvSignalHandlerEnter st in
    let '(st1, r) := body st0 in
    let '(st2, _) := emit EvSignalHandlerExit st1 in
    (st2, r).

Definition when_some {A : Type} (o : option A) (k : A -> M unit) : M unit :=
  match o with
  | Some a => k a
  | None => ret tt
  end.

Definition is_file_url (c : CacheUrlAction) : bool := startswith (url c) "file:/".

(** [download_total], in hundredths, once the fetch part has run. *)
Definition download_total (cache_axn : option CacheUrlAction) : nat :=
  match cache_axn with
  | Some c => if is_file_url c then 0 else 75
  | None => 75
  end.

Definition progress_update_cache_axn (c : CacheUrlAction) : option ProgressCallback :=
  if is_file_url c then None else Some (mkCallback 75 0).

Definition progress_update_extract_axn (cache_axn : option CacheUrlAction)
    : option ProgressCallback :=
  Some (mkCallback (100 - download_total cache_axn) (download_total cache_axn)).

(** The body of the [try] of [_execute_actions]. *)
Definition try_body (cache_axn : option CacheUrlAction)
    (extract_axn : option ExtractPackageAction) : M unit :=
  when_some cache_axn (fun c =>
    call Verify (Fetch c) None ;;;
    call Execute (Fetch c) (progress_update_cache_axn c)) ;;;
  when_some extract_axn (fun e =>
    call Verify (Extract e) None ;;;
    call Execute (Extract e) (progress_update_extract_axn cache_axn)).

Definition progress_bar (prec_or_spec : PackageRef) : Event :=
  EvProgressBar (ref_name prec_or_spec ++ " " ++ ref_version prec_or_spec)
                (Nat.eqb (verbosity context) 0 && negb (quiet context))
                (json context).

(** [_execute_actions] once past its early return: the progress bar and
    the [try] statement. *)
Definition run_actions (prec_or_spec : PackageRef)
    (cache_axn : option CacheUrlAction) (extract_axn : option ExtractPackageAction)
    : M (option Exn) :=
  emit (progress_bar prec_or_spec) ;;;
  try_except_else_finally
    (try_body cache_axn extract_axn)
    (fun e =>
       when_some extract_axn (fun x => call Reverse (Extract x) None) ;;;
       when_some cache_axn (fun c => call Reverse (Fetch c) None) ;;;
       ret (Some e))
    (when_some cache_axn (fun c => call Cleanup (Fetch c) None) ;;;
     when_some extract_axn (fun x => call Cleanup (Extract x) None) ;;;
     emit EvProgressFinish ;;;
     ret None)
    (emit EvProgressClose).

Definition _execute_actions (prec_or_spec : PackageRef) (actions : Plan)
    : M (option Exn) :=
  let '(cache_axn, extract_axn) := actions in
  match cache_axn, extract_axn with
  | None, None => ret None
  | _, _ => run_actions prec_or_spec cache_axn extract_axn
  end.

(** [d[k] = v] on an ordered dictionary: a key already there keeps its
    place. *)
Fixpoint odict_set (k : PackageRef) (v : Plan) (d : list (PackageRef * Plan))
    : list (PackageRef * Plan) :=
  match d with
  | [] => [(k, v)]
  | (k', v') :: rest =>
      if pref_eq k k' then (k', v) :: rest else (k', v') :: odict_set k v rest
  end.

(** [self.paired_actions.update(...)], one reference at a time. *)
Fixpoint prepare_from (precs : list PackageRef) : M unit :=
  match precs with
  | [] => ret tt
  | prec :: rest =>
      plan <-- (fun st =>
                  let '(w, r) := planner prec (world st) in
                  (mkState w (log st) (self st), r)) ;;
      pfe <-- get_self ;;
      set_self (mkPFE (link_precs pfe)
                      (odict_set prec plan (paired_actions pfe))
                      (_prepared pfe)) ;;;
      prepare_from rest
  end.

Definition prepare : M unit :=
  pfe <-- get_self ;;
  if _prepared pfe then ret tt
  else
    prepare_from (link_precs pfe) ;;;
    pfe' <-- get_self ;;
    set_self (mkPFE (link_precs pfe') (paired_actions pfe') true).

Definition cache_actions (pfe : ProgressiveFetchExtract) : list CacheUrlAction :=
  flat_map (fun item : PackageRef * Plan =>
              match fst (snd item) with Some c => [c] | None => [] end)
           (paired_actions pfe).

Definition extract_actions (pfe : ProgressiveFetchExtract)
    : list ExtractPackageAction :=
  flat_map (fun item : PackageRef * Plan =>
              match snd (snd item) with Some e => [e] | None => [] end)
           (paired_actions pfe).

Definition is_empty {A : Type} (l : list A) : bool :=
  match l with [] => true | _ => false end.

(** The loop of [execute] over the items of [paired_actions]. *)
Fixpoint for_items (items : list (PackageRef * Plan)) (exceptions : list Exn)
    : M (list Exn) :=
  match items with
  | [] => ret exceptions
  | (prec_or_spec, prec_actions) :: rest =>
      exc <-- _execute_actions prec_or_spec prec_actions ;;
      for_items rest
        (match exc with
         | Some e => (exceptions ++ [e])%list
         | None => exceptions
         end)
  end.

Definition announce : Event :=
  if Nat.eqb (verbosity context) 0 && negb (quiet context) && negb (json context)
  then EvPrint (String "010"%char "Downloading and Extracting Packages")
  else EvLogDebug.

Definition execute : M unit :=
  pfe0 <-- get_self ;;
  (if negb (_prepared pfe0) then prepare else ret tt) ;;;
  (if dry_run context then raise AssertionError else ret tt) ;;;
  pfe <-- get_self ;;
  if is_empty (cache_actions pfe) || is_empty (extract_actions pfe)
  then ret tt
  else
    emit announce ;;;
    exceptions <-- with_signal_handler (for_items (paired_actions pfe) []) ;;
    if is_empty exceptions then ret tt
    else raise (CondaMultiError exceptions).

(** *** The batch in the words of the specification *)

(** A list of calls made one after the other, up to the first that
    raises. *)
Fixpoint run_calls (calls : list (Phase * Action * option ProgressCallback))
    : M unit :=
  match calls with
  | [] => ret tt
  | (ph, a, cb) :: rest => call ph a cb ;;; run_calls rest
  end.

(** A phase that never raises, as the contract of the actions asks of
    [reverse] and [cleanup]. *)
Definition never_raises (ph : Phase) : Prop :=
  forall a w, snd (perform ph a w) = None.

(** The calls planned for one reference, in order: the fetch action if any
    ([verify], then [execute]), then the extract action if any. *)
Definition body_calls (c : option CacheUrlAction) (e : option ExtractPackageAction)
    : list (Phase * Action * option ProgressCallback) :=
  (match c with
   | Some ca => [(Verify, Fetch ca, None);
                 (Execute, Fetch ca, progress_update_cache_axn ca)]
   | None => []
   end ++
   match e with
   | Some ea => [(Verify, Extract ea, None);
                 (Execute, Extract ea, progress_update_extract_axn c)]
   | None => []
   end)%list.

Definition event_of (cl : Phase * Action * option ProgressCallback)
    (raised : option Exn) : Event :=
  let '(ph, a, cb) := cl in EvCall ph a cb raised.

(** [reverse()] on both, the extract action first. *)
Definition reverse_calls (c : option CacheUrlAction)
    (e : option ExtractPackageAction) : list Event :=
  (match e with Some ea => [EvCall Reverse (Extract ea) None None] | None => [] end ++
   match c with Some ca => [EvCall Reverse (Fetch ca) None None] | None => [] end)%list.

(** [cleanup()] on both, the fetch action first. *)
Definition cleanup_calls (c : option CacheUrlAction)
    (e : option ExtractPackageAction) : list Event :=
  (match c with Some ca => [EvCall Cleanup (Fetch ca) None None] | None => [] end ++
   match e with Some ea => [EvCall Cleanup (Extract ea) None None] | None => [] end)%list.

Definition empty_plan (p : Plan) : bool :=
  match p with
  | (None, None) => true
  | _ => false
  end.

(** What one reference leaves in the log, and the exception captured for
    it: nothing for an empty plan; every planned call, the cleanups and the
    end of the bar when no call raises; and when a call raises, the calls
    up to that one, the reversals and the closing of the bar. *)
Inductive ref_trace (prec : PackageRef) (c : option CacheUrlAction)
    (e : option ExtractPackageAction) : list Event -> option Exn -> Prop :=
| ref_skipped :
    empty_plan (c, e) = true ->
    ref_trace prec c e [] None
| ref_done :
    empty_plan (c, e) = false ->
    ref_trace prec c e
      ([progress_bar prec] ++
       map (fun cl => event_of cl None) (body_calls c e) ++
       cleanup_calls c e ++ [EvProgressFinish; EvProgressClose])%list
      None
| ref_failed :
    forall done failing rest x,
      empty_plan (c, e) = false ->
      body_calls c e = (done ++ failing :: rest)%list ->
      ref_trace prec c e
        ([progress_bar prec] ++
         map (fun cl => event_of cl None) done ++
         [event_of failing (Some x)] ++
         reverse_calls c e ++ [EvProgressClose])%list
        (Some x).

Definition captured (exc : option Exn) : list Exn :=
  match exc with Some x => [x] | None => [] end.

(** The references one after the other, in the order of the dictionary,
    each with its own trace, and the exceptions captured on the way. *)
Inductive batch_trace : list (PackageRef * Plan) -> list Event -> list Exn -> Prop :=
| batch_nil : batch_trace [] [] []
| batch_cons :
    forall prec c e rest evs exc evs' excs,
      ref_trace prec c e evs exc ->
      batch_trace rest evs' excs ->
      batch_trace ((prec, (c, e)) :: rest) (evs ++ evs')%list
                  (captured exc ++ excs)%list.

(** *** The batch as the actions decide it *)

(** The calls of a list made one after the other on a world, up to the
    first that raises: the world they leave, their events, and the
    exception raised if any. *)
Fixpoint calls_on (calls : list (Phase * Action * option ProgressCallback))
    (w : World) : World * list Event * option Exn :=
  match calls with
  | [] => (w, [], None)
  | (ph, a, cb) :: rest =>
      match perform ph a w with
      | (w', Some x) => (w', [EvCall ph a cb (Some x)], Some x)
      | (w', None) =>
          let '(w'', evs, raised) := calls_on rest w' in
          (w'', EvCall ph a cb None :: evs, raised)
      end
  end.

(** [reverse()] on both, the extract action first, and [cleanup()] on
    both, the fetch action first, as calls. *)
Definition reverse_list (c : option CacheUrlAction)
    (e : option ExtractPackageAction)
    : list (Phase * Action * option ProgressCallback) :=
  (match e with Some ea => [(Reverse, Extract ea, None)] | None => [] end ++
   match c with Some ca => [(Reverse, Fetch ca, None)] | None => [] end)%list.

Definition cleanup_list (c : option CacheUrlAction)
    (e : option ExtractPackageAction)
    : list (Phase * Action * option ProgressCallback) :=
  (match c with Some ca => [(Cleanup, Fetch ca, None)] | None => [] end ++
   match e with Some ea => [(Cleanup, Extract ea, None)] | None => [] end)%list.

(** How one reference ends: all its calls returned; a [verify] or
    [execute] call raised, the reversals returned and the exception is
    captured; or a [reverse] or [cleanup] call raised, and that exception
    leaves [_execute_actions]. *)
Inductive Outcome :=
| Completed
| Captured (x : Exn)
| Escaped (y : Exn).

Definition captured_of (o : Outcome) : list Exn :=
  match o with Captured x => [x] | _ => [] end.

(** One reference on a world: nothing for an empty plan; otherwise the
    planned calls up to the first that raises, then the cleanups and the
    end of the bar if none raised, the reversals if one did, and the
    closing of the bar in every case. *)
Definition ref_outcome (prec : PackageRef) (c : option CacheUrlAction)
    (e : option ExtractPackageAction) (w : World)
    : World * list Event * Outcome :=
  if empty_plan (c, e) then (w, [], Completed)
  else
    let '(w1, evs1, raised) := calls_on (body_calls c e) w in
    match raised with
    | None =>
        let '(w2, evs2, raised2) := calls_on (cleanup_list c e) w1 in
        match raised2 with
        | None =>
            (w2,
             ([progress_bar prec] ++ evs1 ++ evs2
                ++ [EvProgressFinish; EvProgressClose])%list,
             Completed)
        | Some y =>
            (w2, ([progress_bar prec] ++ evs1 ++ evs2 ++ [EvProgressClose])%list,
             Escaped y)
        end
    | Some x =>
        let '(w2, evs2, raised2) := calls_on (reverse_list c e) w1 in
        (w2, ([progress_bar prec] ++ evs1 ++ evs2 ++ [EvProgressClose])%list,
         match raised2 with
         | None => Captured x
         | Some y => Escaped y
         end)
    end.

(** The references in the order of the dictionary, each on the world the
    one before left, up to the first whose exception escapes: the world,
    the events, the exceptions captured, and the one that escaped. *)
Fixpoint batch_outcome (items : list (PackageRef * Plan)) (w : World)
    : World * list Event * list Exn * option Exn :=
  match items with
  | [] => (w, [], [], None)
  | (prec, (c, e)) :: rest =>
      let '(w1, evs1, o) := ref_outcome prec c e w in
      match o with
      | Escaped y => (w1, evs1, [], Some y)
      | _ =>
          let '(w2, evs2, excs, escaped) := batch_outcome rest w1 in
          (w2, (evs1 ++ evs2)%list, (captured_of o ++ excs)%list, escaped)
      end
  end.

End Run.

(** *** Instances, for the scenarios *)

(** The extraction in place of [x-1-0], planned by rule R1 for a tarball
    that a writable cache already holds. *)
Definition extract_x : ExtractPackageAction :=
  mkExtractPackageAction "/rw/pkgs/x-1-0.tar.bz2" "/rw/pkgs" (Some "defaults")
    (Some "linux-64") "x-1-0" (OfRef ref_x_defaults) (Some "abc").

Definition fetch_y : CacheUrlAction :=
  mkCacheUrlAction "https://h/c/linux-64/y-2-0.tar.bz2" "/rw/pkgs" (Some "h/c")
    (Some "linux-64") "y-2-0.tar.bz2" (Some "def") None.

Definition ref_y : PackageRef :=
  mkRef "h/c" "h/c" (Some "linux-64") "y" "2" "0" 0 "y-2-0.tar.bz2"
        (Some "def") None (Some "https://h/c/linux-64/y-2-0.tar.bz2").

Definition extract_y : ExtractPackageAction :=
  mkExtractPackageAction "/rw/pkgs/h/c/linux-64/y-2-0.tar.bz2" "/rw/pkgs"
    (Some "h/c") (Some "linux-64") "y-2-0" (OfRef ref_y) (Some "def").

(** A batch of one reference whose plan is an extraction alone. *)
Definition pfe_extract_only : ProgressiveFetchExtract :=
  mkPFE [ref_x_defaults] [(ref_x_defaults, (None, Some extract_x))] true.

(** A batch of two: a download with its extraction, then the extraction
    alone. *)
Definition pfe_two : ProgressiveFetchExtract :=
  mkPFE [ref_y; ref_x_defaults]
        [(ref_y, (Some fetch_y, Some extract_y));
         (ref_x_defaults, (None, Some extract_x))] true.

(** Actions that all succeed, and actions of which the download fails; the
    world is left out. *)
Definition all_succeed (ph : Phase) (a : Action) (w : unit) : unit * option Exn :=
  (w, None).

Definition download_fails (ph : Phase) (a : Action) (w : unit) : unit * option Exn :=
  match ph, a with
  | Execute, Fetch _ => (w, Some (ActionError "md5 mismatch"))
  | _, _ => (w, None)
  end.

(** Actions of which the download fails and the reversal of the extraction
    fails too, and actions of which a cleanup fails. *)
Definition reverse_fails (ph : Phase) (a : Action) (w : unit) : unit * option Exn :=
  match ph, a with
  | Execute, Fetch _ => (w, Some (ActionError "md5 mismatch"))
  | Reverse, Extract _ => (w, Some (ActionError "reverse failed"))
  | _, _ => (w, None)
  end.

Definition cleanup_fails (ph : Phase) (a : Action) (w : unit) : unit * option Exn :=
  match ph, a with
  | Cleanup, Fetch _ => (w, Some (ActionError "cleanup failed"))
  | _, _ => (w, None)
  end.

Definition no_planner (prec : PackageRef) (w : unit) : unit * result Plan :=
  (w, Raise AssertionError).

Definition default_context : Context := mkContext false 0 false false.

End Executor.

(** ** [Dist]: names, file names and parsing *)

Module DistNames.
Import PyStr Py DistModel.

(** [s.rsplit(c, 1)[0]]: the part of [s] before the last occurrence of the
    character [c], the whole of [s] when [c] does not occur. *)
Fixpoint rsplit1_head (c : ascii) (s : string) : string :=
  match s with
  | EmptyString => EmptyString
  | String a rest =>
      if occurs c rest then String a (rsplit1_head c rest)
      else if Ascii.eqb a c then EmptyString
      else String a rest
  end.

(** [s.rsplit(c, n)] for a separator of one character. *)
Fixpoint rsplit_char (c : ascii) (n : nat) (s : string) : list string :=
  match n with
  | O => [s]
  | S k =>
      if occurs c s
      then (rsplit_char c k (rsplit1_head c s) ++ [rsplit1_last c s])%list
      else [s]
  end.

(** [sub in s] *)
Fixpoint contains (sub s : string) : bool :=
  String.prefix sub s ||
  match s with
  | EmptyString => false
  | String _ rest => contains sub rest
  end.

(** [s[n:]] *)
Fixpoint skip (n : nat) (s : string) : string :=
  match n, s with
  | O, _ => s
  | S k, EmptyString => EmptyString
  | S k, String _ rest => skip k rest
  end.

(** [s.rsplit(sep, 1)[-1]] for a separator that is not empty: what follows
    the last occurrence of [sep], the whole of [s] when there is none. *)
Fixpoint rsplit1_last_str (sep s : string) : string :=
  match s with
  | EmptyString => EmptyString
  | String a rest =>
      if contains sep rest then rsplit1_last_str sep rest
      else if String.prefix sep s then skip (String.length sep) s
      else s
  end.

(** A character of a string is its code point, and the strings here hold
    the code points up to U+00FF; text beyond is not modelled.

    [x.isdigit()]: the decimal digits [0] to [9] and, further up, the
    superscripts two, three and one. *)
Definition isdecimal (a : ascii) : bool :=
  Nat.leb 48 (nat_of_ascii a) && Nat.leb (nat_of_ascii a) 57.

Definition isdigit (a : ascii) : bool :=
  isdecimal a
  || Nat.eqb (nat_of_ascii a) 178
  || Nat.eqb (nat_of_ascii a) 179
  || Nat.eqb (nat_of_ascii a) 185.

(** [s.isascii()] *)
Definition isascii (s : string) : bool :=
  forallb (fun a => Nat.ltb (nat_of_ascii a) 128) (list_ascii_of_string s).

(** [int(s)] on a string of digits that is not empty: the number when they
    are all decimal, and [ValueError], here [None], when one is not. *)
Definition int_of_digits (s : string) : option Z :=
  if forallb isdecimal (list_ascii_of_string s)
  then Some (fold_left (fun acc a => (10 * acc + Z.of_nat (nat_of_ascii a - 48))%Z)
                       (list_ascii_of_string s) 0%Z)
  else None.

Definition filter_str (f : ascii -> bool) (s : string) : string :=
  string_of_list_ascii (filter f (list_ascii_of_string s)).

Record DistDetails := mkDistDetails {
  dd_name : string;
  dd_version : string;
  dd_build_string : string;
  dd_build_number : Z;
  dd_dist_name : string
}.

(** The build number read off a build string: the digits of what follows
    its last underscore, [0] when there are none, and [None] when [int]
    raises on them. *)
Definition build_number_of (build_string : string) : option Z :=
  let build_number_as_string :=
    filter_str isdigit
      (if truthy build_string then rsplit1_last "_"%char build_string else "0") in
  if truthy build_number_as_string then int_of_digits build_number_as_string
  else Some 0%Z.

(** [parse_dist_name]: any failure on the way, the missing second part or
    digits that [int] does not read, comes out as a [CondaError]. *)
Definition parse_dist_name (string : string) : result DistDetails :=
  let no_tar_bz2_string :=
    if endswith string CONDA_TARBALL_EXTENSION
    then strip_last (String.length CONDA_TARBALL_EXTENSION) string
    else string in
  let dist_name :=
    if contains "::" no_tar_bz2_string
    then rsplit1_last_str "::" no_tar_bz2_string
    else rsplit1_last "/"%char no_tar_bz2_string in
  match rsplit_char "-"%char 2 dist_name with
  | name :: version :: rest =>
      let build_string := match rest with b :: _ => b | [] => "" end in
      match build_number_of build_string with
      | Some build_number =>
          Ok (mkDistDetails name version build_string build_number dist_name)
      | None =>
          Raise (CondaError ("dist_name is not a valid conda package: " ++ string))
      end
  | _ => Raise (CondaError ("dist_name is not a valid conda package: " ++ string))
  end.

(** [self.channel or DEFAULTS_CHANNEL_NAME] *)
Definition channel_or_defaults (d : Dist) : string :=
  match channel d with
  | Some c => if truthy c then c else DEFAULTS_CHANNEL_NAME
  | None => DEFAULTS_CHANNEL_NAME
  end.

Definition pair (d : Dist) : string * string :=
  (channel_or_defaults d, dist_name d).

Definition quad (d : Dist) : string * string * string * string :=
  let parts := (rsplit_char "-"%char 2 (dist_name d) ++ [""; ""])%list in
  (nth 0 parts "", nth 1 parts "", nth 2 parts "", channel_or_defaults d).

Definition to_filename (d : Dist) : string :=
  if is_feature_package d then dist_name d
  else dist_name d ++ CONDA_TARBALL_EXTENSION.

Definition fn (d : Dist) : string := to_filename d.

Definition __str__ (d : Dist) : string :=
  let base :=
    match channel d with
    | Some c => if truthy c then c ++ "::" ++ dist_name d else dist_name d
    | None => dist_name d
    end in
  match with_features_depends d with
  | Some w => if truthy w then base ++ "[" ++ w ++ "]" else base
  | None => base
  end.

Definition __contains__ (d : Dist) (item : string) : bool :=
  let item' :=
    if endswith item CONDA_TARBALL_EXTENSION
    then strip_last (String.length CONDA_TARBALL_EXTENSION) item
    else item in
  contains item' (__str__ d).

Definition dist_startswith (d : Dist) (m : string) : bool :=
  startswith (dist_name d) m.

(** [six-1.10.0-py35_12] from [defaults]. *)
Definition dist_six : Dist := mkDist (Some "defaults") "six" "1.10.0" "py35_12" 12 None.

End DistNames.

(** ** More instances for the planner *)

Module CacheScenarios.
Import PyStr Py Cache.

(** [x-1-0] from [defaults] without an md5 value. *)
Definition ref_x_no_md5 : PackageRef :=
  mkRef "defaults" "defaults" (Some "linux-64") "x" "1" "0" 0 "x-1-0.tar.bz2"
        None None None.

(** A package that no cache holds and that has no URL. *)
Definition ref_z_no_url : PackageRef :=
  mkRef "defaults" "defaults" (Some "linux-64") "z" "3" "0" 0 "z-3-0.tar.bz2"
        (Some "fff") None None.

(** One read-only root alone. *)
Definition read_only_root : list PackageCache := [cache_ro_x].

Definition file_url (path : string) : string := "file://" ++ path.

Definition target_path (axn : CacheUrlAction) : string :=
  join (cua_target_pkgs_dir axn) (target_package_basename axn).

End CacheScenarios.

(** ** The executor: plans as the planner makes them, and the quiet run *)

Module ExecutorRuns.
Import PyStr Py Cache Executor.

(** The planner never plans a fetch without its extraction. *)
Definition planner_shaped (p : Plan) : bool :=
  match p with
  | (Some _, None) => false
  | _ => true
  end.

Section Quiet.
Variable context : Context.

(** What one reference leaves in the log when every call returns. *)
Definition quiet_trace (item : PackageRef * Plan) : list Event :=
  let '(prec, (c, e)) := item in
  if empty_plan (c, e) then []
  else
    ([progress_bar context prec] ++
     map (fun cl => event_of cl None) (body_calls c e) ++
     cleanup_calls c e ++ [EvProgressFinish; EvProgressClose])%list.

End Quiet.

(** A run in which no call raises. *)
Definition quiet (World : Type)
    (perform : Phase -> Action -> World -> World * option Exn) : Prop :=
  forall ph a w, snd (perform ph a w) = None.

(** The keys of an ordered dictionary, in order. *)
Definition keys (d : list (PackageRef * Plan)) : list PackageRef := map fst d.

(** No two keys of the dictionary are equal: a later key equals no earlier
    one. *)
Definition distinct_keys (pref_eq : PackageRef -> PackageRef -> bool)
    (d : list (PackageRef * Plan)) : Prop :=
  ForallOrdPairs (fun k1 k2 => pref_eq k2 k1 = false) (keys d).

Section Planning.

Variable World : Type.
Variable planner : PackageRef -> World -> World * result Plan.
Variable pref_eq : PackageRef -> PackageRef -> bool.

(** The planner called on the references of a list one after the other,
    each on the world the call before left, up to the first call that
    raises: the world, the plans made, and the exception if any. *)
Fixpoint plan_all (precs : list PackageRef) (w : World)
    : World * list Plan * option Exn :=
  match precs with
  | [] => (w, [], None)
  | prec :: rest =>
      match planner prec w with
      | (w1, Ok plan) =>
          let '(w2, plans, raised) := plan_all rest w1 in
          (w2, plan :: plans, raised)
      | (w1, Raise e) => (w1, [], Some e)
      end
  end.

(** [d.update(items)], item by item. *)
Definition odict_update (items : list (PackageRef * Plan))
    (d : list (PackageRef * Plan)) : list (PackageRef * Plan) :=
  fold_left (fun d kv => odict_set pref_eq (fst kv) (snd kv) d) items d.

(** No reference of the list equals an earlier one. *)
Definition distinct_refs (precs : list PackageRef) : Prop :=
  ForallOrdPairs (fun k1 k2 => pref_eq k2 k1 = false) precs.

End Planning.

(** A batch of two references, with the second repeated, not yet
    prepared, and a planner that plans the extraction of [x-1-0] in place
    and the download of everything else. *)
Definition pfe_unprepared : ProgressiveFetchExtract :=
  mkPFE [ref_y; ref_x_defaults; ref_y] [] false.

Definition sample_planner (prec : PackageRef) (w : unit) : unit * result Plan :=
  (w, if String.eqb (ref_name prec) "x"
      then Ok (None, Some extract_x)
      else Ok (Some fetch_y, Some extract_y)).

Definition dry_context : Context := mkContext true 0 false false.

End ExecutorRuns.

(** ** [UrlsData]: buckets, the files written and [_load] *)

Module UrlsLog.
Import PyStr Urls.

(** [d[k]] on the [defaultdict]: the empty list for a missing key. *)
Definition bucket (k : option string) (d : UrlsDict) : list string :=
  match List.find (fun kv : option string * list string => key_eqb k (fst kv)) d with
  | Some (_, v) => v
  | None => []
  end.

(** [d[k] = v] *)
Fixpoint dict_set (k : option string) (v : list string) (d : UrlsDict) : UrlsDict :=
  match d with
  | [] => [(k, v)]
  | (k', v') :: rest =>
      if key_eqb k k' then (k', v) :: rest else (k', v') :: dict_set k v rest
  end.

(** Whitespace, for [str.strip] on ASCII text. *)
Definition isspace (a : ascii) : bool :=
  let n := nat_of_ascii a in
  Nat.eqb n 32 || (Nat.leb 9 n && Nat.leb n 13) || (Nat.leb 28 n && Nat.leb n 31).

Definition is_ascii (s : string) : bool :=
  forallb (fun a => Nat.ltb (nat_of_ascii a) 128) (list_ascii_of_string s).

Fixpoint lstrip (s : string) : string :=
  match s with
  | EmptyString => EmptyString
  | String a rest => if isspace a then lstrip rest else s
  end.

Fixpoint rstrip (s : string) : string :=
  match s with
  | EmptyString => EmptyString
  | String a rest =>
      match rstrip rest with
      | EmptyString => if isspace a then EmptyString else String a EmptyString
      | r => String a r
      end
  end.

Definition strip (s : string) : string := lstrip (rstrip s).

Definition newline : string := String "010"%char "".

(** The lines of a text, each with its line end, as reading a file line by
    line gives them; the line end is the line feed, so that a text with
    carriage returns, which some modes of [open] take for line ends too,
    is not what this is for. *)
Fixpoint lines_from (current : string) (text : string) : list string :=
  match text with
  | EmptyString => if truthy current then [current] else []
  | String a rest =>
      if Ascii.eqb a "010"%char
      then (current ++ String a "") :: lines_from "" rest
      else lines_from (current ++ String a "") rest
  end.

Definition file_lines (text : string) : list string := lines_from "" text.

Section Load.

(** The disk as [_load] sees it. *)
Variable isfile : string -> bool.
Variable listdir : string -> list string.
Variable read_text : string -> string.

(** [[line.strip() for line in fh]], then [.reverse()] *)
Definition load_file (path : string) : list string :=
  rev (map strip (file_lines (read_text path))).

Definition _load (pkgs_dir : string) : UrlsDict :=
  let urls_txt_path := join pkgs_dir "urls.txt" in
  if isfile urls_txt_path then
    let channel_dirs :=
      filter (fun d => isfile (join (join pkgs_dir d) "metadata.json"))
             (listdir pkgs_dir) in
    fold_left
      (fun (d : UrlsDict) (channel_dir : string) =>
         let full_channel_dir := join pkgs_dir channel_dir in
         let subdirs :=
           filter (fun sd => isfile (join (join full_channel_dir sd) "urls.txt"))
                  (listdir full_channel_dir) in
         fold_left
           (fun (d : UrlsDict) (subdir : string) =>
              let path := join (join full_channel_dir subdir) "urls.txt" in
              if isfile path
              then dict_set (Some (channel_dir ++ "/" ++ subdir)) (load_file path) d
              else d)
           subdirs d)
      channel_dirs
      [(None, load_file urls_txt_path)]
  else [].

End Load.

Section Writes.
Variable Channel : string -> ChannelInfo.

(** [add_url] for each URL of a list, in order. *)
Definition add_urls (self : UrlsData) (urls : list string) : UrlsData :=
  fold_left (add_url Channel) urls self.

Definition has_subdir (url : string) : bool :=
  match subdir_truthy (Channel url) with Some _ => true | None => false end.

(** The per-channel file [add_url] appends to. *)
Definition channel_file (root url : string) : string :=
  match subdir_truthy (Channel url) with
  | Some sd => join (join (join root (safe_name (Channel url))) sd) "urls.txt"
  | None => join root "urls.txt"
  end.

End Writes.

(** What a file holds after the appends recorded in a [UrlsData], for a
    file that did not exist before. *)
Definition written_text (self : UrlsData) (path : string) : string :=
  fold_right String.append ""
    (rev (map snd (filter (fun w : string * string => String.eqb (fst w) path)
                          (appended self)))).

Definition was_written (self : UrlsData) (path : string) : bool :=
  existsb (fun w : string * string => String.eqb (fst w) path) (appended self).

Definition no_listing (dir : string) : list string := [].

Definition Channel_none (url : string) : ChannelInfo := mkChannelInfo "" None.

End UrlsLog.

(** ** [PackageCache]: the dictionary of records of one root *)

Module CacheIndex.
Import PyStr Py Cache.

(** [_package_cache_records]: a dictionary whose keys and values are both
    records, in insertion order. *)
Definition Records : Type := list (PackageCacheRecord * PackageCacheRecord).

(** The result of a lookup: a record, the default given, or [KeyError]. *)
Inductive Lookup :=
| Found (pcrec : PackageCacheRecord)
| Default
| KeyError.

(** One root: its records and the [repodata_record.json] files written for
    them, the most recent first. *)
Record Index := mkIndex {
  records : Records;
  written : list (string * PackageCacheRecord)
}.

Section Index.

(** Equality of references, from [conda.models.index_record], with which
    their hash agrees, and what [write_as_json_to_file] raises on a path,
    if anything. *)
Variable pref_eq : PackageRef -> PackageRef -> bool.
Variable write_raises : string -> option Exn.

(** A stored key against the key asked for. *)
Definition key_is (ref : PackageRef) (kv : PackageCacheRecord * PackageCacheRecord)
    : bool :=
  pref_eq (pcrec_ref (fst kv)) ref.

(** [d[k] = v]: a key already there stays and gets the new value. *)
Fixpoint dict_set (k v : PackageCacheRecord) (d : Records) : Records :=
  match d with
  | [] => [(k, v)]
  | (k', v') :: rest =>
      if pref_eq (pcrec_ref k') (pcrec_ref k) then (k', v) :: rest
      else (k', v') :: dict_set k v rest
  end.

(** [d.pop(k)]: the value and the dictionary without the key. *)
Fixpoint dict_pop (ref : PackageRef) (d : Records)
    : option (PackageCacheRecord * Records) :=
  match d with
  | [] => None
  | (k', v') :: rest =>
      if pref_eq (pcrec_ref k') ref then Some (v', rest)
      else match dict_pop ref rest with
           | Some (v, rest') => Some (v, (k', v') :: rest')
           | None => None
           end
  end.

Definition repodata_record_path (pcrec : PackageCacheRecord) : string :=
  join (join (extracted_package_dir pcrec) "info") "repodata_record.json".

(** [insert]: the file is written first; if that raises, nothing is
    stored. *)
Definition insert (package_cache_record : PackageCacheRecord) (self : Index)
    : Index * result unit :=
  let meta := repodata_record_path package_cache_record in
  match write_raises meta with
  | Some e => (self, Raise e)
  | None =>
      (mkIndex (dict_set package_cache_record package_cache_record (records self))
               ((meta, package_cache_record) :: written self),
       Ok tt)
  end.

(** [get(package_ref, default)]; [has_default] says whether a default was
    given. *)
Definition get (package_ref : PackageRef) (has_default : bool) (self : Index)
    : Lookup :=
  match List.find (key_is package_ref) (records self) with
  | Some (_, v) => Found v
  | None => if has_default then Default else KeyError
  end.

(** [remove(package_ref, default)]: [pop], with or without a default. *)
Definition remove (package_ref : PackageRef) (has_default : bool) (self : Index)
    : Index * Lookup :=
  match dict_pop package_ref (records self) with
  | Some (v, rest) => (mkIndex rest (written self), Found v)
  | None => (self, if has_default then Default else KeyError)
  end.

Definition values (self : Index) : list PackageCacheRecord :=
  map snd (records self).

(** [query] on a [PackageRef]: the values equal to it. *)
Definition query (param : PackageRef) (self : Index) : list PackageCacheRecord :=
  filter (fun pcrec => pref_eq (pcrec_ref pcrec) param) (values self).

(** The keys are pairwise different and every value equals its key. *)
Definition well_formed (d : Records) : Prop :=
  ForallOrdPairs
    (fun kv1 kv2 : PackageCacheRecord * PackageCacheRecord =>
       pref_eq (pcrec_ref (fst kv2)) (pcrec_ref (fst kv1)) = false) d /\
  Forall (fun kv : PackageCacheRecord * PackageCacheRecord =>
            pref_eq (pcrec_ref (snd kv)) (pcrec_ref (fst kv)) = true) d.

(** [pref_eq] is an equivalence. *)
Definition equivalence : Prop :=
  (forall a, pref_eq a a = true) /\
  (forall a b, pref_eq a b = pref_eq b a) /\
  (forall a b c, pref_eq a b = true -> pref_eq b c = true -> pref_eq a c = true).

End Index.

(** The record of [x-1-0] once more, fetched but not extracted, under the
    same directory. *)
Definition pcrec_x_fetched : PackageCacheRecord :=
  mkPcrec ref_x_defaults "/ro/pkgs/x-1-0.tar.bz2" "/ro/pkgs/x-1-0" true false.

Definition index_x : Index := mkIndex [(pcrec_x_fetched, pcrec_x_fetched)] [].

Definition never_fails (path : string) : option Exn := None.

End CacheIndex.

(** ** Calls into the operating system *)

Module Os.

(** The outcome of a call: a value, or an exception of some class [E]. *)
Inductive outcome (E A : Type) :=
| Returns (a : A)
| Raises (e : E).

Arguments Returns {E A} a.
Arguments Raises {E A} e.

(** A computation on the state [S] of the process and of the disk. *)
Definition M (S E A : Type) : Type := S -> S * outcome E A.

Definition ret {S E A : Type} (a : A) : M S E A := fun s => (s, Returns a).

Definition bind {S E A B : Type} (m : M S E A) (k : A -> M S E B) : M S E B :=
  fun s =>
    match m s with
    | (s', Returns a) => k a s'
    | (s', Raises e) => (s', Raises e)
    end.

(** [try: m / except classes: handler], for the classes [caught] holds of. *)
Definition try_except {S E A : Type} (m : M S E A) (caught : E -> bool)
    (handler : M S E A) : M S E A :=
  fun s =>
    match m s with
    | (s', Raises e) => if caught e then handler s' else (s', Raises e)
    | done => done
    end.

(** A look at the state, which stays as it is: one that cannot fail, and
    one that can. *)
Definition reads {S E A : Type} (f : S -> A) : M S E A :=
  fun s => (s, Returns (f s)).

Definition reads_or_raises {S E A : Type} (f : S -> outcome E A) : M S E A :=
  fun s => (s, f s).

(** A call that returns a value and cannot fail. *)
Definition asks {S E A : Type} (f : S -> S * A) : M S E A :=
  fun s => let '(s', a) := f s in (s', Returns a).

Declare Scope os_scope.
Notation "x <- e ;; k" := (bind e (fun x => k))
  (at level 61, e at next level, right associativity) : os_scope.
Notation "e ;; k" := (bind e (fun _ => k))
  (at level 61, right associativity) : os_scope.

End Os.

(** ** [UrlsData.add_url] on a disk that may refuse *)

Module UrlsIO.
Import PyStr Urls UrlsLog Os.
Local Open Scope os_scope.

Section Files.

(** [Channel(url)], the disk, the exceptions, and the calls [add_url]
    makes on the disk; [append_text path text] is
    [with open(path, 'a') as fh: fh.write(text)]. *)
Variable Channel : string -> ChannelInfo.
Variable Disk : Type.
Variable E : Type.
Variable isfile : Disk -> string -> bool.
Variable isdir : Disk -> string -> bool.
Variable mkdir_p : string -> Disk -> Disk * outcome E unit.
Variable append_text : string -> string -> Disk -> Disk * outcome E unit.

(** The object and the disk; [appended] keeps the lines the object has
    written. *)
Definition St : Type := UrlsData * Disk.

(** [self._urls_data[k].insert(0, url)] *)
Definition insert_url (k : option string) (url : string) : M St E unit :=
  fun st =>
    ((mkUrlsData (pkgs_dir (fst st)) (urls_txt_path (fst st))
                 (insert0 k url (_urls_data (fst st))) (appended (fst st)),
      snd st),
     Returns tt).

Definition on_disk {A : Type} (f : Disk -> Disk * outcome E A) : M St E A :=
  fun st => let '(d, r) := f (snd st) in ((fst st, d), r).

(** The line of a URL appended to a file; it is on record once the call
    has returned. *)
Definition write_line (path url : string) : M St E unit :=
  on_disk (append_text path (url ++ newline)) ;;
  (fun st =>
     ((mkUrlsData (pkgs_dir (fst st)) (urls_txt_path (fst st)) (_urls_data (fst st))
                  ((path, url ++ newline) :: appended (fst st)),
       snd st),
      Returns tt)).

Definition add_url (url : string) : M St E unit :=
  if negb (truthy url) then ret tt
  else
    let channel := Channel url in
    match subdir_truthy channel with
    | Some subdir =>
        let channel_safe_name := safe_name channel in
        insert_url (Some (channel_safe_name ++ "/" ++ subdir)) url ;;
        self <- reads fst ;;
        let urls_txt_path :=
          join (join (join (pkgs_dir self) channel_safe_name) subdir) "urls.txt" in
        missing <- reads (fun st : St =>
                            negb (isfile (snd st) urls_txt_path)
                            && negb (isdir (snd st) (dirname urls_txt_path))) ;;
        (if missing : bool then on_disk (mkdir_p (dirname urls_txt_path)) else ret tt) ;;
        write_line urls_txt_path url
    | None => ret tt
    end ;;
    self <- reads fst ;;
    insert_url None url ;;
    write_line (urls_txt_path self) url.

(** [add_url] for each URL of a list, in order, up to the first call that
    raises. *)
Fixpoint add_urls (urls : list string) : M St E unit :=
  match urls with
  | [] => ret tt
  | url :: rest => add_url url ;; add_urls rest
  end.

(** The key of the per-channel bucket of a URL. *)
Definition channel_key (url : string) : option string :=
  match subdir_truthy (Channel url) with
  | Some sd => Some (safe_name (Channel url) ++ "/" ++ sd)
  | None => None
  end.

End Files.

(** A disk that lets itself be written except for the files named: the
    files it refuses. *)
Definition refusing_mkdir (path : string) (refused : list string)
    : list string * outcome unit unit :=
  (refused, Returns tt).

Definition refusing_append (path text : string) (refused : list string)
    : list string * outcome unit unit :=
  (refused, if existsb (String.eqb path) refused then Raises tt else Returns tt).

Definition refusing_add_urls
    : list string -> UrlsData * list string -> UrlsData * list string * outcome unit unit :=
  add_urls Channel_S5 (list string) unit (fun _ _ => false) (fun _ _ => false)
           refusing_mkdir refusing_append.

End UrlsIO.

(** ** [PackageCache]: records that no environment links *)

Module InUse.
Import PyStr Cache Os.

(** [PathType] of [conda.models.enums], as far as [paths.json] uses it. *)
Inductive PathType :=
| hardlink
| softlink
| directory.

(** One entry of [paths.json]; [inode_paths] is an attribute an entry may
    lack. *)
Record PathData := mkPathData {
  path : string;
  path_type : PathType;
  inode_paths : option (list string)
}.

Section Links.

(** [read_paths_json] and [CrossPlatformStLink] of [conda.gateways.disk]:
    both read the disk and may raise. *)
Variable E : Type.
Variable read_paths_json : string -> outcome E (list PathData).
Variable cross_platform_st_nlink : string -> outcome E nat.

(** [len(getattr(pd, 'inode_paths', ())) or 1] *)
Definition inode_paths_in_package (pd : PathData) : nat :=
  let n := List.length (match inode_paths pd with Some l => l | None => [] end) in
  if Nat.eqb n 0 then 1 else n.

(** The loop of [_pcrec_is_in_use] over the entries that are left. *)
Fixpoint scan_paths (epd : string) (paths : list PathData) : outcome E bool :=
  match paths with
  | [] => Returns false
  | pd :: rest =>
      match path_type pd with
      | directory => scan_paths epd rest
      | _ =>
          match cross_platform_st_nlink (join epd (path pd)) with
          | Raises e => Raises e
          | Returns st_nlink =>
              if Nat.ltb 1 st_nlink
              then if Nat.ltb (inode_paths_in_package pd) st_nlink
                   then Returns true
                   else scan_paths epd rest
              else scan_paths epd rest
          end
      end
  end.

Definition _pcrec_is_in_use (pcrec : PackageCacheRecord) : outcome E bool :=
  let epd := extracted_package_dir pcrec in
  match read_paths_json epd with
  | Raises e => Raises e
  | Returns paths => scan_paths epd paths
  end.

Definition pcrecs_with_tarballs (self : PackageCache) : list PackageCacheRecord :=
  filter is_fetched (_package_cache_records self).

Definition pcrecs_extracted (self : PackageCache) : list PackageCacheRecord :=
  filter is_extracted (_package_cache_records self).

(** [tuple(pcrec for pcrec in ... if not self._pcrec_is_in_use(pcrec))] *)
Fixpoint keep_unused (pcrecs : list PackageCacheRecord)
    : outcome E (list PackageCacheRecord) :=
  match pcrecs with
  | [] => Returns []
  | pcrec :: rest =>
      match _pcrec_is_in_use pcrec with
      | Raises e => Raises e
      | Returns in_use =>
          match keep_unused rest with
          | Raises e => Raises e
          | Returns kept => Returns (if in_use then kept else pcrec :: kept)
          end
      end
  end.

Definition pcrecs_not_linked (self : PackageCache) : outcome E (list PackageCacheRecord) :=
  keep_unused (pcrecs_extracted self).

(** An entry has more links than the package accounts for. *)
Definition linked_elsewhere (epd : string) (pd : PathData) : Prop :=
  path_type pd <> directory /\
  exists st_nlink,
    cross_platform_st_nlink (join epd (path pd)) = Returns st_nlink /\
    Nat.max 1 (List.length (match inode_paths pd with Some l => l | None => [] end))
    < st_nlink.

(** Every file of the package has the links the package accounts for, and
    no more. *)
Definition links_accounted (epd : string) (paths : list PathData) : Prop :=
  forall pd, In pd paths -> path_type pd <> directory ->
    exists st_nlink,
      cross_platform_st_nlink (join epd (path pd)) = Returns st_nlink /\
      st_nlink <=
      Nat.max 1 (List.length (match inode_paths pd with Some l => l | None => [] end)).

End Links.

(** A package of two files and a directory, one file linked into an
    environment. *)
Definition paths_x : list PathData :=
  [ mkPathData "bin" directory None;
    mkPathData "bin/x" hardlink None;
    mkPathData "lib/libx.so" hardlink (Some ["lib/libx.so"; "lib/libx.so.1"]) ].

Definition read_paths_x (epd : string) : outcome unit (list PathData) :=
  if String.eqb epd "/ro/pkgs/x-1-0" then Returns paths_x else Raises tt.

Definition st_nlink_unlinked (p : string) : outcome unit nat :=
  if String.eqb p "/ro/pkgs/x-1-0/lib/libx.so" then Returns 2 else Returns 1.

End InUse.

(** ** [PackageCacheType]: one [PackageCache] object per directory *)

Module Registry.
Import PyStr Py Writable.

(** The objects made so far, each at its address, and [PackageCache._cache_],
    the dictionary from a directory to the address of its object. *)
Record Heap := mkHeap {
  objects : list PackageCacheObj;
  _cache_ : list (string * nat)
}.

(** What [PackageCache(...)] is called with. *)
Inductive Arg :=
| Instance (c : nat)
| Directory (pkgs_dir : string).

Definition lookup (pd : string) (cache : list (string * nat)) : option nat :=
  option_map snd (List.find (fun kv : string * nat => String.eqb (fst kv) pd) cache).

(** [PackageCacheType.__call__]: an instance is returned as it is, a known
    directory gives its object, a new one gets an object made and kept. *)
Definition __call__ (arg : Arg) (h : Heap) : Heap * nat :=
  match arg with
  | Instance c => (h, c)
  | Directory pd =>
      match lookup pd (_cache_ h) with
      | Some c => (h, c)
      | None =>
          let package_cache_instance := List.length (objects h) in
          (mkHeap (objects h ++ [mkObj pd None])%list
                  (_cache_ h ++ [(pd, package_cache_instance)])%list,
           package_cache_instance)
      end
  end.

(** [PackageCache.clear] *)
Definition clear (h : Heap) : Heap := mkHeap (objects h) [].

(** Assignment to the object at an address. *)
Fixpoint store (c : nat) (obj : PackageCacheObj) (objs : list PackageCacheObj)
    : list PackageCacheObj :=
  match objs, c with
  | [], _ => []
  | _ :: rest, O => obj :: rest
  | o :: rest, S k => o :: store k obj rest
  end.

Section Probe.

Variable FS : Type.
Variable isdir : FS -> string -> bool.
Variable file_path_is_writable : FS -> string -> FS * bool.
Variable create_package_cache_directory : FS -> string -> FS * bool.
Variable PACKAGE_CACHE_MAGIC_FILE : string.

(** [c.is_writable] for the object at address [c]; an address that names
    no object does not occur. *)
Definition is_writable_at (c : nat) (h : Heap) (fs : FS) : Heap * FS * bool :=
  match nth_error (objects h) c with
  | Some self =>
      let '(self', fs', r) :=
        is_writable FS isdir file_path_is_writable create_package_cache_directory
                    PACKAGE_CACHE_MAGIC_FILE self fs in
      (mkHeap (store c self' (objects h)) (_cache_ h), fs', r)
  | None => (h, fs, false)
  end.

(** [filter(lambda c: c.is_writable, (cls(pd) for pd in pkgs_dirs))], or
    the same with [not c.is_writable]: [want] is the answer that keeps a
    cache. *)
Fixpoint scan (want : bool) (pkgs_dirs : list string) (h : Heap) (fs : FS)
    : Heap * FS * list nat :=
  match pkgs_dirs with
  | [] => (h, fs, [])
  | pd :: rest =>
      let '(h1, c) := __call__ (Directory pd) h in
      let '(h2, fs2, w) := is_writable_at c h1 fs in
      let '(h3, fs3, found) := scan want rest h2 fs2 in
      (h3, fs3, if Bool.eqb w want then c :: found else found)
  end.

Definition writable_caches (pkgs_dirs : list string) (h : Heap) (fs : FS)
    : Heap * FS * result (list nat) :=
  let '(h', fs', writable_caches) := scan true pkgs_dirs h fs in
  (h', fs',
   match writable_caches with
   | [] => Raise (CondaError "No writable package cache directories found")
   | _ => Ok writable_caches
   end).

Definition read_only_caches (pkgs_dirs : list string) (h : Heap) (fs : FS)
    : Heap * FS * list nat :=
  scan false pkgs_dirs h fs.

(** [load] as far as writability goes: the probe it runs on its own on
    the object at an address, which overwrites what the object
    remembers. *)
Definition load_at (c : nat) (h : Heap) (fs : FS) : Heap * FS :=
  match nth_error (objects h) c with
  | Some self =>
      let '(self', fs', _) :=
        _check_writable FS isdir file_path_is_writable create_package_cache_directory
                        PACKAGE_CACHE_MAGIC_FILE self fs in
      (mkHeap (store c self' (objects h)) (_cache_ h), fs')
  | None => (h, fs)
  end.

(** What may happen between two calls: [PackageCache(...)], an access to
    [is_writable], one of the two scans, [load] of a cache,
    [PackageCache.clear()], or a change of the disk by anyone. *)
Inductive Step :=
| Make (arg : Arg)
| Ask (c : nat)
| ScanWritable (pkgs_dirs : list string)
| ScanReadOnly (pkgs_dirs : list string)
| Load (c : nat)
| Clear
| External (change : FS -> FS).

Definition run_step (s : Step) (h : Heap) (fs : FS) : Heap * FS :=
  match s with
  | Make arg => (fst (__call__ arg h), fs)
  | Ask c => fst (is_writable_at c h fs)
  | ScanWritable pkgs_dirs => fst (writable_caches pkgs_dirs h fs)
  | ScanReadOnly pkgs_dirs => fst (read_only_caches pkgs_dirs h fs)
  | Load c => load_at c h fs
  | Clear => (clear h, fs)
  | External change => (h, change fs)
  end.

Fixpoint run_steps (steps : list Step) (h : Heap) (fs : FS) : Heap * FS :=
  match steps with
  | [] => (h, fs)
  | s :: rest => let '(h1, fs1) := run_step s h fs in run_steps rest h1 fs1
  end.

(** The steps that are neither [load] nor [clear]. *)
Definition keeps_memo (s : Step) : bool :=
  match s with
  | Load _ | Clear => false
  | _ => true
  end.

End Probe.

(** Every directory of the dictionary has its object, the one made for
    it. *)
Definition well_formed (h : Heap) : Prop :=
  forall pd c, lookup pd (_cache_ h) = Some c ->
    exists self, nth_error (objects h) c = Some self /\ pkgs_dir self = pd.

(** The directory of the object at an address. *)
Definition dir_at (c : nat) (h : Heap) : option string :=
  option_map pkgs_dir (nth_error (objects h) c).

(** What the object at an address remembers. *)
Definition memo_at (c : nat) (h : Heap) : option bool :=
  match nth_error (objects h) c with
  | Some self => __is_writable self
  | None => None
  end.

(** From one heap to a later one without [clear] in between: the
    dictionary keeps its entries, the objects keep their directories, and
    what an object remembers as writable it goes on remembering. *)
Definition extends (h h' : Heap) : Prop :=
  (forall pd c, lookup pd (_cache_ h) = Some c -> lookup pd (_cache_ h') = Some c) /\
  (forall c pd, dir_at c h = Some pd -> dir_at c h' = Some pd) /\
  (forall c, memo_at c h = Some true -> memo_at c h' = Some true).

Definition empty_heap : Heap := mkHeap [] [].

Definition disk_writable_caches
    : list string -> Heap -> Disk -> Heap * Disk * result (list nat) :=
  writable_caches Disk disk_isdir disk_file_path_is_writable
                  disk_create_package_cache_directory MAGIC.

Definition disk_is_writable_at : nat -> Heap -> Disk -> Heap * Disk * bool :=
  is_writable_at Disk disk_isdir disk_file_path_is_writable
                 disk_create_package_cache_directory MAGIC.

(** A disk with two roots, the first of them open to the process. *)
Definition disk_two_roots : Disk :=
  mkDisk ["/rw/pkgs"; "/ro/pkgs"] ["/rw/pkgs/urls.txt"; "/rw/pkgs"].

Definition disk_run_steps : list (Step Disk) -> Heap -> Disk -> Heap * Disk :=
  run_steps Disk disk_isdir disk_file_path_is_writable
            disk_create_package_cache_directory MAGIC.

(** The owner of the disk closes it to the process. *)
Definition lock_disk (d : Disk) : Disk := mkDisk (dirs d) [].

End Registry.

(** ** [PackageCache._make_single_record] *)

Module SingleRecord.
Import PyStr Os.
Local Open Scope os_scope.

(** A record of the cache as [_make_single_record] builds it: the record
    read from a metadata file, the [url] and [md5] given on top of it when
    it was read from [info/index.json], and the two paths. *)
Record PackageCacheRecord (Json : Type) := mkRecord {
  fields : Json;
  url_md5 : option (string * option string);
  package_tarball_full_path : string;
  extracted_package_dir : string
}.

Arguments mkRecord {Json}.
Arguments fields {Json}.
Arguments url_md5 {Json}.
Arguments package_tarball_full_path {Json}.
Arguments extracted_package_dir {Json}.

Section Disk.

(** The state of the cache object and of the disk; the exceptions, and the
    two groups of classes the handlers name, [(IOError, OSError)] and
    [(EOFError, ReadError)]; what a metadata file holds. *)
Variable S : Type.
Variable Err : Type.
Variable Json : Type.
Variable is_environment_error : Err -> bool.
Variable is_archive_error : Err -> bool.

(** The functions of [conda.gateways.disk] the method calls, the
    [is_writable] property of the cache, [self._urls_data.get_url],
    [path_to_url] and [PackageRecord.from_objects]. *)
Variable read_repodata_json : S -> string -> outcome Err Json.
Variable read_index_json : S -> string -> outcome Err Json.
Variable read_index_json_from_tarball : S -> string -> outcome Err Json.
Variable isdir : S -> string -> bool.
Variable isfile : S -> string -> bool.
Variable compute_md5sum : S -> string -> outcome Err string.
Variable rm_rf : string -> S -> S * outcome Err unit.
Variable extract_tarball : string -> string -> S -> S * outcome Err unit.
Variable write_as_json_to_file : string -> Json -> S -> S * outcome Err unit.
Variable is_writable : S -> S * bool.
Variable get_url : string -> option string.
Variable path_to_url : string -> string.
Variable to_repodata : PackageCacheRecord Json -> Json.

(** The two paths, whichever of them is given. *)
Definition tarball_path (package_tarball_full_path : string) : string :=
  if endswith package_tarball_full_path CONDA_TARBALL_EXTENSION
  then package_tarball_full_path
  else package_tarball_full_path ++ CONDA_TARBALL_EXTENSION.

Definition extracted_dir (package_tarball_full_path : string) : string :=
  strip_last (String.length CONDA_TARBALL_EXTENSION)
             (tarball_path package_tarball_full_path).

(** The innermost [try]: the index read out of the tarball, which is
    extracted on the way when the cache is writable. *)
Definition from_archive (tarball epd : string) : M S Err Json :=
  w <- asks is_writable ;;
  if w : bool then
    d <- reads (fun s => isdir s epd) ;;
    (if d : bool then rm_rf epd else ret tt) ;;
    extract_tarball tarball epd ;;
    reads_or_raises (fun s => read_index_json s epd)
  else reads_or_raises (fun s => read_index_json_from_tarball s tarball).

(** The second and third [try]: the record of [info/index.json], or [None]
    where the method returns [None]. *)
Definition index_json_record (tarball epd : string) : M S Err (option Json) :=
  try_except
    (j <- reads_or_raises (fun s => read_index_json s epd) ;; ret (Some j))
    is_environment_error
    (lost <- reads (fun s => isdir s epd && negb (isfile s tarball)) ;;
     if lost : bool then ret None
     else
       try_except
         (j <- from_archive tarball epd ;; ret (Some j))
         is_archive_error
         (rm_rf tarball ;; ret None)).

Definition _make_single_record (package_tarball_full_path : string)
    : M S Err (option (PackageCacheRecord Json)) :=
  let tarball := tarball_path package_tarball_full_path in
  let epd := extracted_dir package_tarball_full_path in
  try_except
    (repodata_record <- reads_or_raises (fun s => read_repodata_json s epd) ;;
     ret (Some (mkRecord repodata_record None tarball epd)))
    is_environment_error
    (found <- index_json_record tarball epd ;;
     match found with
     | None => ret None
     | Some index_json =>
         present <- reads (fun s => isfile s tarball) ;;
         md5 <- (if present : bool
                 then m <- reads_or_raises (fun s => compute_md5sum s tarball) ;;
                      ret (Some m)
                 else ret None) ;;
         let url := match get_url tarball with
                    | Some u => u
                    | None => path_to_url tarball
                    end in
         let package_cache_record :=
           mkRecord index_json (Some (url, md5)) tarball epd in
         w <- asks is_writable ;;
         (if w : bool
          then write_as_json_to_file
                 (join (join epd "info") "repodata_record.json")
                 (to_repodata package_cache_record)
          else ret tt) ;;
         ret (Some package_cache_record)
     end).

End Disk.

(** *** A small disk, for instances *)

(** The files and directories there are, the tarballs that cannot be
    read, and whether the cache is writable. *)
Record Toy := mkToy {
  files : list string;
  dirs : list string;
  broken : list string;
  writable : bool
}.

Inductive ToyErr :=
| NoSuchFile
| ReadError.

Definition has (p : string) (l : list string) : bool := existsb (String.eqb p) l.

Definition without (p : string) (l : list string) : list string :=
  filter (fun q => negb (String.eqb p q)) l.

Definition toy_read (name : string) (d : Toy) (epd : string) : outcome ToyErr string :=
  let p := join (join epd "info") name in
  if has p (files d) then Returns p else Raises NoSuchFile.

Definition toy_read_tarball (d : Toy) (tarball : string) : outcome ToyErr string :=
  if has tarball (files d)
  then if has tarball (broken d) then Raises ReadError else Returns tarball
  else Raises NoSuchFile.

Definition toy_md5 (d : Toy) (p : string) : outcome ToyErr string :=
  if has p (files d) then Returns ("md5 of " ++ p) else Raises NoSuchFile.

Definition toy_rm_rf (p : string) (d : Toy) : Toy * outcome ToyErr unit :=
  (mkToy (without p (files d)) (without p (dirs d)) (broken d) (writable d), Returns tt).

Definition toy_extract (tarball epd : string) (d : Toy) : Toy * outcome ToyErr unit :=
  if has tarball (files d)
  then if has tarball (broken d) then (d, Raises ReadError)
       else (mkToy (join (join epd "info") "index.json" :: files d) (epd :: dirs d)
                   (broken d) (writable d), Returns tt)
  else (d, Raises NoSuchFile).

Definition toy_write (p : string) (content : string) (d : Toy) : Toy * outcome ToyErr unit :=
  (mkToy (p :: files d) (dirs d) (broken d) (writable d), Returns tt).

Definition toy_make_single_record
    : string -> Toy -> Toy * outcome ToyErr (option (PackageCacheRecord string)) :=
  _make_single_record Toy ToyErr string
    (fun e => match e with NoSuchFile => true | ReadError => false end)
    (fun e => match e with ReadError => true | NoSuchFile => false end)
    (toy_read "repodata_record.json") (toy_read "index.json") toy_read_tarball
    (fun d p => has p (dirs d)) (fun d p => has p (files d))
    toy_md5 toy_rm_rf toy_extract toy_write
    (fun d => (d, writable d))
    (fun _ => None) (fun p => "file://" ++ p)
    (fun r => fields r).

(** A root that is not writable and holds one tarball, which cannot be
    read. *)
Definition toy_broken : Toy :=
  mkToy ["/ro/pkgs/y-2-0.tar.bz2"] ["/ro/pkgs"] ["/ro/pkgs/y-2-0.tar.bz2"] false.

(** A writable root that holds one tarball, not yet extracted. *)
Definition toy_fetched : Toy :=
  mkToy ["/rw/pkgs/x-1-0.tar.bz2"] ["/rw/pkgs"] [] true.

End SingleRecord.

(** * Properties *)

(** ** Facts about strings *)

Module PyStrFacts.
Import PyStr.

Lemma append_assoc (a b c : string) : (a ++ b) ++ c = a ++ (b ++ c).
Proof. induction a as [|x a IH]; simpl; [reflexivity | now rewrite IH]. Qed.

Lemma append_nil_r (a : string) : a ++ "" = a.
Proof. induction a as [|x a IH]; simpl; [reflexivity | now rewrite IH]. Qed.

Lemma length_append (a b : string) :
  String.length (a ++ b) = String.length a + String.length b.
Proof. induction a as [|x a IH]; simpl; [reflexivity | now rewrite IH]. Qed.

Lemma append_inv_head (a b c : string) : a ++ b = a ++ c -> b = c.
Proof.
  induction a as [|x a IH]; simpl; intros H; [exact H|].
  injection H as H. now apply IH.
Qed.

(** Right cancellation, through the lists of characters. *)
Lemma list_ascii_append (a b : string) :
  list_ascii_of_string (a ++ b) =
  (list_ascii_of_string a ++ list_ascii_of_string b)%list.
Proof. induction a as [|x a IH]; simpl; [reflexivity | now rewrite IH]. Qed.

Lemma append_inv_tail (a b c : string) : a ++ c = b ++ c -> a = b.
Proof.
  intros H.
  apply (f_equal list_ascii_of_string) in H.
  rewrite !list_ascii_append in H.
  apply app_inv_tail in H.
  apply (f_equal string_of_list_ascii) in H.
  now rewrite !string_of_list_ascii_of_string in H.
Qed.

Lemma repeat_str_comm (e : string) (n : nat) :
  e ++ repeat_str e n = repeat_str e n ++ e.
Proof.
  induction n as [|n IH]; simpl.
  - now rewrite append_nil_r.
  - now rewrite IH at 1; rewrite append_assoc.
Qed.

(** *** The order *)

Lemma compare_refl (s : string) : String.compare s s = Eq.
Proof. apply String_as_OT.cmp_eq. reflexivity. Qed.

Lemma leb_refl (s : string) : String.leb s s = true.
Proof. unfold String.leb. now rewrite compare_refl. Qed.

Lemma leb_trans (a b c : string) :
  String.leb a b = true -> String.leb b c = true -> String.leb a c = true.
Proof.
  unfold String.leb.
  destruct (String.compare a b) eqn:Hab; try discriminate; intros _;
    destruct (String.compare b c) eqn:Hbc; try discriminate; intros _.
  - apply String_as_OT.cmp_eq in Hab, Hbc. subst. now rewrite compare_refl.
  - apply String_as_OT.cmp_eq in Hab. subst. now rewrite Hbc.
  - apply String_as_OT.cmp_eq in Hbc. subst. now rewrite Hab.
  - apply String_as_OT.cmp_lt in Hab, Hbc.
    assert (H : String_as_OT.cmp a c = Lt)
      by (apply String_as_OT.cmp_lt; eapply String_as_OT.lt_trans; eauto).
    unfold String_as_OT.cmp in H. now rewrite H.
Qed.

(** A string is below each of its extensions. *)
Lemma leb_append (s e : string) : String.leb s (s ++ e) = true.
Proof.
  unfold String.leb.
  induction s as [|x s IH]; simpl.
  - destruct e; reflexivity.
  - assert (Hx : Ascii.compare x x = Eq) by (apply Ascii_as_OT.cmp_eq; reflexivity).
    now rewrite Hx.
Qed.

(** A proper extension of a string is strictly above it. *)
Lemma leb_append_false (s e : string) :
  e <> "" -> String.leb (s ++ e) s = false.
Proof.
  intros He. unfold String.leb.
  induction s as [|x s IH]; simpl.
  - destruct e; [congruence | reflexivity].
  - assert (Hx : Ascii.compare x x = Eq) by (apply Ascii_as_OT.cmp_eq; reflexivity).
    now rewrite Hx.
Qed.

Lemma ltb_leb_false (a b : string) :
  String.ltb a b = true -> String.leb b a = false.
Proof.
  unfold String.ltb, String.leb. rewrite (String.compare_antisym b a).
  destruct (String.compare a b); simpl; congruence.
Qed.

Lemma leb_neq_ltb (a b : string) :
  String.leb a b = true -> a <> b -> String.ltb a b = true.
Proof.
  unfold String.ltb, String.leb.
  destruct (String.compare a b) eqn:H; try congruence.
  apply String_as_OT.cmp_eq in H. congruence.
Qed.

End PyStrFacts.

(** ** The pair dedup of a directory listing *)

Module DedupeFacts.
Import PyStr PyStrFacts Dedupe.

Lemma ext_nonempty : CONDA_TARBALL_EXTENSION <> "".
Proof. discriminate. Qed.

Lemma sle_trans : Transitive (fun x y : string => is_true (String.leb x y)).
Proof. intros a b c. unfold is_true. apply leb_trans. Qed.

Lemma sorted_StronglySorted (l : list string) : StronglySorted sle (sorted l).
Proof.
  pose proof (StringSort.StronglySorted_sort l sle_trans) as H.
  exact H.
Qed.

Lemma sorted_Permutation (l : list string) : Permutation l (sorted l).
Proof. apply StringSort.Permuted_sort. Qed.

(** Two sorted lists with the same elements are the same list. *)
Lemma StronglySorted_unique (l1 : list string) :
  forall l2, StronglySorted sle l1 -> StronglySorted sle l2 ->
             Permutation l1 l2 -> l1 = l2.
Proof.
  induction l1 as [|a l1 IH]; intros l2 S1 S2 P.
  - apply Permutation_nil in P. now subst.
  - destruct l2 as [|b l2].
    + apply Permutation_sym, Permutation_nil in P. discriminate.
    + inversion S1 as [|? ? S1' F1]; inversion S2 as [|? ? S2' F2]; subst.
      assert (Hab : a = b).
      { assert (Ia : In a (b :: l2))
          by (eapply Permutation_in; [exact P | now left]).
        assert (Ib : In b (a :: l1))
          by (eapply Permutation_in; [apply Permutation_sym; exact P | now left]).
        destruct Ia as [-> | Ia]; [reflexivity|].
        destruct Ib as [-> | Ib]; [reflexivity|].
        rewrite Forall_forall in F1, F2.
        apply String.leb_antisym; [apply F1, Ib | apply F2, Ia]. }
      subst b. f_equal. apply IH; auto.
      eapply Permutation_cons_inv; exact P.
Qed.

(** Sorting a sorted list changes nothing. *)
Lemma sorted_id (l : list string) : StronglySorted sle l -> sorted l = l.
Proof.
  intros S. symmetry. apply StronglySorted_unique; auto.
  - apply sorted_StronglySorted.
  - apply sorted_Permutation.
Qed.

Lemma sorted_not_nil (l : list string) : l <> [] -> sorted l <> [].
Proof.
  intros Hl Hs. pose proof (sorted_Permutation l) as P.
  rewrite Hs in P. apply Permutation_sym, Permutation_nil in P. contradiction.
Qed.

(** The element chosen for the closing call of [_process] is never the last
    name plus the extension, when every collected name is below the last. *)
Lemma last_or_empty_below (contents : list string) (a : string) :
  Forall (fun c => sle c a) contents ->
  String.eqb (a ++ CONDA_TARBALL_EXTENSION) (last_or_empty contents) = false.
Proof.
  intros F. apply String.eqb_neq. intros E.
  assert (Hne : a ++ CONDA_TARBALL_EXTENSION <> "")
    by (destruct a; discriminate).
  unfold last_or_empty in E.
  destruct contents as [|c cs]; [congruence|].
  destruct (truthy (List.last (c :: cs) "")) eqn:T; [|congruence].
  assert (I : In (List.last (c :: cs) "") (c :: cs)).
  { destruct (exists_last (l := c :: cs)) as [l' [z Hz]]; [discriminate|].
    rewrite Hz, last_last. apply in_or_app. right. now left. }
  rewrite Forall_forall in F. specialize (F _ I). rewrite <- E in F.
  unfold sle in F. rewrite (leb_append_false a _ ext_nonempty) in F.
  discriminate.
Qed.

(** The loop of the source against the rule of the specification. *)
Lemma reduce_from_drop_paired (rest : list string) :
  forall (contents : list string) (a : string),
    StronglySorted sle (a :: rest) ->
    Forall (fun c => sle c a) contents ->
    let '(contents', last) := reduce_from _process contents a rest in
    fst (_process contents' last (last_or_empty contents')) =
    (contents ++ drop_paired (a :: rest))%list.
Proof.
  induction rest as [|y rest IH]; intros contents a S F.
  - simpl. unfold _process. simpl.
    now rewrite (last_or_empty_below contents a F).
  - inversion S as [|? ? S' Fa]; subst.
    assert (Hay : sle a y) by (inversion Fa; assumption).
    cbn [reduce_from _process].
    assert (Fy : Forall (fun c => sle c y) contents).
    { eapply Forall_impl; [|exact F]. intros c Hc. unfold sle in *.
      eapply leb_trans; eauto. }
    change (drop_paired (a :: y :: rest)) with
      (if String.eqb (a ++ CONDA_TARBALL_EXTENSION) y
       then drop_paired (y :: rest) else a :: drop_paired (y :: rest)).
    destruct (String.eqb (a ++ CONDA_TARBALL_EXTENSION) y) eqn:E.
    + apply (IH contents y S' Fy).
    + assert (Fy' : Forall (fun c => sle c y) (contents ++ [a])%list)
        by (apply Forall_app; split; [exact Fy | now constructor]).
      pose proof (IH (contents ++ [a])%list y S' Fy') as H.
      destruct (reduce_from _process (contents ++ [a])%list y rest) as [c' l'].
      rewrite H. now rewrite <- app_assoc.
Qed.

(** The source function is the rule applied to the sorted listing. *)
Lemma dedupe_is_drop_paired (l : list string) :
  _dedupe_pkgs_dir_contents l = drop_paired (sorted l).
Proof.
  destruct l as [|x l]; [reflexivity|].
  unfold _dedupe_pkgs_dir_contents.
  pose proof (sorted_StronglySorted (x :: l)) as S.
  pose proof (sorted_not_nil (x :: l)) as N.
  destruct (sorted (x :: l)) as [|a rest]; [exfalso; apply N; [discriminate | reflexivity]|].
  unfold reduce.
  pose proof (reduce_from_drop_paired rest [] a S (Forall_nil _)) as H.
  destruct (reduce_from _process [] a rest) as [c' l']. exact H.
Qed.

(** C5: the dedup step is the pair rule on the sorted listing: a name
    immediately followed by itself plus the tarball extension is dropped
    and every other name is emitted; the listing of scenario S1 dedupes to
    the three expected names. *)
Theorem C5_dedupe_pairs :
  (forall listing,
      _dedupe_pkgs_dir_contents listing = drop_paired (sorted listing)) /\
  (forall listing, StronglySorted sle (sorted listing) /\
                   Permutation listing (sorted listing)) /\
  (forall x y rest,
      drop_paired (x :: y :: rest) =
      if String.eqb (x ++ CONDA_TARBALL_EXTENSION) y
      then drop_paired (y :: rest)
      else x :: drop_paired (y :: rest)) /\
  (forall x, drop_paired [x] = [x]) /\
  _dedupe_pkgs_dir_contents ["a-1-0"; "a-1-0.tar.bz2"; "b-2-0"; "c-3-0.tar.bz2"]
  = ["a-1-0.tar.bz2"; "b-2-0"; "c-3-0.tar.bz2"].
Proof.
  split; [exact dedupe_is_drop_paired|].
  split; [intros l; split; [apply sorted_StronglySorted | apply sorted_Permutation]|].
  split; [reflexivity|].
  split; reflexivity.
Qed.

(** *** Idempotence *)

Lemma drop_paired_In (l : list string) :
  forall z, In z (drop_paired l) -> In z l.
Proof.
  induction l as [|x rest IH]; intros z; [easy|].
  destruct rest as [|y r]; [easy|].
  change (drop_paired (x :: y :: r)) with
    (if String.eqb (x ++ CONDA_TARBALL_EXTENSION) y
     then drop_paired (y :: r) else x :: drop_paired (y :: r)).
  destruct (String.eqb (x ++ CONDA_TARBALL_EXTENSION) y).
  - intros H. right. now apply IH.
  - intros [-> | H]; [now left | right; now apply IH].
Qed.

Lemma drop_paired_StronglySorted (R : string -> string -> Prop) (l : list string) :
  StronglySorted R l -> StronglySorted R (drop_paired l).
Proof.
  induction l as [|x rest IH]; intros S; [constructor|].
  inversion S as [|? ? S' F]; subst.
  destruct rest as [|y r]; [exact S|].
  change (drop_paired (x :: y :: r)) with
    (if String.eqb (x ++ CONDA_TARBALL_EXTENSION) y
     then drop_paired (y :: r) else x :: drop_paired (y :: r)).
  destruct (String.eqb (x ++ CONDA_TARBALL_EXTENSION) y); [now apply IH|].
  constructor; [now apply IH|].
  rewrite Forall_forall in *. intros z Hz. apply F. now apply drop_paired_In.
Qed.

(** The first name emitted from a listing is its first name followed by
    some number of extensions. *)
Lemma drop_paired_head (rest : list string) :
  forall y, exists k t,
    drop_paired (y :: rest) = (y ++ repeat_str CONDA_TARBALL_EXTENSION k) :: t.
Proof.
  induction rest as [|z r IH]; intros y.
  - exists 0, []. simpl. now rewrite append_nil_r.
  - change (drop_paired (y :: z :: r)) with
      (if String.eqb (y ++ CONDA_TARBALL_EXTENSION) z
       then drop_paired (z :: r) else y :: drop_paired (z :: r)).
    destruct (String.eqb (y ++ CONDA_TARBALL_EXTENSION) z) eqn:E.
    + apply String.eqb_eq in E. subst z.
      destruct (IH (y ++ CONDA_TARBALL_EXTENSION)) as [k [t H]].
      exists (S k), t. rewrite H. cbn [repeat_str]. now rewrite append_assoc.
    + exists 0, (drop_paired (z :: r)). cbn [repeat_str]. now rewrite append_nil_r.
Qed.

Lemma drop_paired_idempotent (s : list string) :
  StronglySorted slt s -> drop_paired (drop_paired s) = drop_paired s.
Proof.
  induction s as [|x rest IH]; intros S; [reflexivity|].
  inversion S as [|? ? S' F]; subst.
  destruct rest as [|y r]; [reflexivity|].
  specialize (IH S').
  change (drop_paired (x :: y :: r)) with
    (if String.eqb (x ++ CONDA_TARBALL_EXTENSION) y
     then drop_paired (y :: r) else x :: drop_paired (y :: r)).
  destruct (String.eqb (x ++ CONDA_TARBALL_EXTENSION) y) eqn:E; [exact IH|].
  destruct (drop_paired_head r y) as [k [t H]].
  rewrite H in IH |- *.
  assert (Hne : String.eqb (x ++ CONDA_TARBALL_EXTENSION)
                  (y ++ repeat_str CONDA_TARBALL_EXTENSION k) = false).
  { destruct k as [|k].
    - cbn [repeat_str]. now rewrite append_nil_r.
    - apply String.eqb_neq. intros Q.
      cbn [repeat_str] in Q. rewrite repeat_str_comm, <- append_assoc in Q.
      apply append_inv_tail in Q.
      assert (Hxy : slt x y) by (inversion F; assumption).
      apply ltb_leb_false in Hxy. rewrite Q, leb_append in Hxy. discriminate. }
  change (drop_paired (x :: (y ++ repeat_str CONDA_TARBALL_EXTENSION k) :: t)) with
    (if String.eqb (x ++ CONDA_TARBALL_EXTENSION)
          (y ++ repeat_str CONDA_TARBALL_EXTENSION k)
     then drop_paired ((y ++ repeat_str CONDA_TARBALL_EXTENSION k) :: t)
     else x :: drop_paired ((y ++ repeat_str CONDA_TARBALL_EXTENSION k) :: t)).
  rewrite Hne. now rewrite IH.
Qed.

(** A sorted listing of distinct names is strictly increasing. *)
Lemma NoDup_strictly_sorted (l : list string) :
  NoDup l -> StronglySorted sle l -> StronglySorted slt l.
Proof.
  induction l as [|a l IH]; intros N S; [constructor|].
  inversion N as [|? ? Ha N']; inversion S as [|? ? S' F]; subst.
  constructor; [now apply IH|].
  rewrite Forall_forall in *. intros z Hz.
  apply leb_neq_ltb; [now apply F | intros ->; contradiction].
Qed.

Lemma slt_sle (l : list string) :
  StronglySorted slt l -> StronglySorted sle l.
Proof.
  induction 1 as [|a l S IH F]; constructor; auto.
  eapply Forall_impl; [|exact F]. intros z Hz. unfold slt, sle in *.
  unfold String.ltb in Hz. unfold String.leb.
  destruct (String.compare a z); congruence.
Qed.

(** C6: on a directory listing, which names each child once, applying the
    dedup step to its own output gives the same list. *)
Theorem C6_dedupe_idempotent (listing : list string) :
  NoDup listing ->
  _dedupe_pkgs_dir_contents (_dedupe_pkgs_dir_contents listing)
  = _dedupe_pkgs_dir_contents listing.
Proof.
  intros N.
  rewrite !dedupe_is_drop_paired.
  assert (S : StronglySorted slt (sorted listing)).
  { apply NoDup_strictly_sorted; [|apply sorted_StronglySorted].
    eapply Permutation_NoDup; [apply sorted_Permutation | exact N]. }
  rewrite (sorted_id (drop_paired (sorted listing))).
  - now apply drop_paired_idempotent.
  - apply slt_sle. now apply drop_paired_StronglySorted.
Qed.

Lemma C6_dedupe_idempotent_witness :
  NoDup ["a-1-0"; "a-1-0.tar.bz2"; "b-2-0"; "c-3-0.tar.bz2"] /\
  _dedupe_pkgs_dir_contents
    (_dedupe_pkgs_dir_contents ["a-1-0"; "a-1-0.tar.bz2"; "b-2-0"; "c-3-0.tar.bz2"])
  = _dedupe_pkgs_dir_contents ["a-1-0"; "a-1-0.tar.bz2"; "b-2-0"; "c-3-0.tar.bz2"].
Proof.
  assert (N : NoDup ["a-1-0"; "a-1-0.tar.bz2"; "b-2-0"; "c-3-0.tar.bz2"]).
  { repeat constructor; simpl; intuition discriminate. }
  split; [exact N | exact (C6_dedupe_idempotent _ N)].
Defined.

(** Outside directory listings the law needs the names to be distinct: a
    list that repeats a name is deduped in two rounds. *)
Example dedupe_repeated_name :
  _dedupe_pkgs_dir_contents ["a"; "a"; "a.tar.bz2"] = ["a"; "a.tar.bz2"] /\
  _dedupe_pkgs_dir_contents ["a"; "a.tar.bz2"] = ["a.tar.bz2"].
Proof. split; reflexivity. Qed.

End DedupeFacts.

(** ** Equality and order of [Dist] *)

Module DistFacts.
Import PyStr DistModel.

Lemma compare_str_Equal (a b : string) : compare_str a b = Equal <-> a = b.
Proof.
  unfold compare_str. split.
  - destruct (String.compare a b) eqn:H; try discriminate.
    intros _. now apply String_as_OT.cmp_eq.
  - intros ->. now rewrite PyStrFacts.compare_refl.
Qed.

Lemma compare_str_Greater (a b : string) :
  compare_str a b = Greater <-> compare_str b a = Less.
Proof.
  unfold compare_str. rewrite (String.compare_antisym a b).
  destruct (String.compare b a); simpl; split; congruence.
Qed.

Lemma compare_opt_Equal (a b : option string) : compare_opt a b = Equal <-> a = b.
Proof.
  destruct a as [x|], b as [y|]; simpl; try (split; congruence).
  rewrite compare_str_Equal. split; congruence.
Qed.

Lemma compare_opt_Greater (a b : option string) :
  compare_opt a b = Greater <-> compare_opt b a = Less.
Proof.
  destruct a as [x|], b as [y|]; simpl; try (split; congruence).
  apply compare_str_Greater.
Qed.

Lemma compare_key_Less (k1 k2 : option string * string * option string) :
  compare_key k1 k2 = Less <-> key_lt k1 k2.
Proof.
  destruct k1 as [[c1 n1] w1], k2 as [[c2 n2] w2]. unfold compare_key, key_lt, lt_opt.
  destruct (compare_opt c1 c2) eqn:Hc.
  - tauto.
  - apply compare_opt_Equal in Hc. subst c2.
    destruct (compare_str n1 n2) eqn:Hn.
    + tauto.
    + apply compare_str_Equal in Hn. subst n2.
      split; [tauto|]. intros [H | [_ [H | [_ H]]]]; congruence.
    + split; [discriminate|]. intros [H | [_ [H | [E _]]]]; try congruence.
      apply compare_str_Equal in E. congruence.
    + split; [discriminate|]. intros [H | [_ [H | [E _]]]]; try congruence.
      apply compare_str_Equal in E. congruence.
  - split; [discriminate|]. intros [H | [E _]]; try congruence.
    apply compare_opt_Equal in E. congruence.
  - split; [discriminate|]. intros [H | [E _]]; try congruence.
    apply compare_opt_Equal in E. congruence.
Qed.

Lemma compare_key_Equal (k1 k2 : option string * string * option string) :
  compare_key k1 k2 = Equal <-> k1 = k2.
Proof.
  destruct k1 as [[c1 n1] w1], k2 as [[c2 n2] w2]. unfold compare_key.
  split.
  - destruct (compare_opt c1 c2) eqn:Hc; try discriminate.
    destruct (compare_str n1 n2) eqn:Hn; try discriminate.
    intros Hw.
    apply compare_opt_Equal in Hc, Hw. apply compare_str_Equal in Hn. congruence.
  - intros E. injection E as -> -> ->.
    rewrite (proj2 (compare_opt_Equal c2 c2) eq_refl).
    rewrite (proj2 (compare_str_Equal n2 n2) eq_refl).
    now apply compare_opt_Equal.
Qed.

Lemma compare_key_Greater (k1 k2 : option string * string * option string) :
  compare_key k1 k2 = Greater <-> compare_key k2 k1 = Less.
Proof.
  destruct k1 as [[c1 n1] w1], k2 as [[c2 n2] w2]. unfold compare_key.
  destruct (compare_opt c1 c2) eqn:Hc.
  - apply compare_opt_Greater in Hc. rewrite Hc. split; congruence.
  - apply compare_opt_Equal in Hc. subst c2.
    rewrite (proj2 (compare_opt_Equal c1 c1) eq_refl).
    destruct (compare_str n1 n2) eqn:Hn.
    + apply compare_str_Greater in Hn. rewrite Hn. split; congruence.
    + apply compare_str_Equal in Hn. subst n2.
      rewrite (proj2 (compare_str_Equal n1 n1) eq_refl).
      apply compare_opt_Greater.
    + assert (Hn' : compare_str n2 n1 = Less) by now apply compare_str_Greater.
      rewrite Hn'. tauto.
    + destruct (compare_str n2 n1) eqn:Hn'; try (split; congruence).
      * apply compare_str_Greater in Hn'. congruence.
      * apply compare_str_Equal in Hn'. subst.
        rewrite (proj2 (compare_str_Equal n1 n1) eq_refl) in Hn. discriminate.
  - assert (Hc' : compare_opt c2 c1 = Less) by now apply compare_opt_Greater.
    rewrite Hc'. tauto.
  - destruct (compare_opt c2 c1) eqn:Hc'; try (split; congruence).
    + apply compare_opt_Greater in Hc'. congruence.
    + apply compare_opt_Equal in Hc'. subst.
      rewrite (proj2 (compare_opt_Equal c1 c1) eq_refl) in Hc. discriminate.
Qed.

Lemma pkey_ignores_build_number_and_wfd (d : Dist) (n : Z) (w : option string) :
  pkey (with_build_number n (with_wfd w d)) = pkey d.
Proof. reflexivity. Qed.

Section Hashing.
Variable hash_str : string -> Z.
Variable hash_int : Z -> Z.
Variable hash_none : Z.

Abbreviation eq_dist := (__eq__ hash_str hash_int hash_none).
Abbreviation hash_obj := (py_hash hash_str hash_int hash_none).

Lemma eq_hash (d : Dist) (o : PyObj) :
  eq_dist d o = Some true <-> hash_obj o = Some (hash_str (pkey d)).
Proof.
  unfold __eq__, __hash__. destruct (hash_obj o) as [h|].
  - split; intros H.
    + injection H as H. apply Z.eqb_eq in H. now subst.
    + injection H as ->. now rewrite Z.eqb_refl.
  - split; discriminate.
Qed.

(** C10: equality of a [Dist] with any value is the comparison of the two
    hashes: the [Dist] equals exactly the hashable values whose hash is the
    hash of its [pkey]; it equals the plain string of its own [pkey], and
    any [Dist] that differs from it in [build_number] or in
    [with_features_depends] only. *)
Theorem C10_eq_is_hash_comparison :
  (forall d o, eq_dist d o = Some true <-> hash_obj o = Some (hash_str (pkey d))) /\
  (forall d o, eq_dist d o = None <-> hash_obj o = None) /\
  (forall d, eq_dist d (OStr (pkey d)) = Some true) /\
  (forall d n w,
      eq_dist d (ODist (with_build_number n (with_wfd w d))) = Some true).
Proof.
  split; [exact eq_hash|].
  split.
  { intros d o. unfold __eq__. destruct (hash_obj o); split; congruence. }
  split.
  - intros d. now apply eq_hash.
  - intros d n w. apply eq_hash. reflexivity.
Qed.

(** C9, as the code has it: two [Dist]s are equal exactly when the hashes of
    their [pkey] strings are, so whenever they agree on the channel, name,
    version and build string, whatever their build numbers; and [<], [>],
    [<=], [>=] compare the keys [(channel, dist_name, with_features_depends)]
    lexicographically. *)
Theorem C9_dist_equality_and_order :
  (forall d1 d2,
      eq_dist d1 (ODist d2) = Some true <-> hash_str (pkey d1) = hash_str (pkey d2)) /\
  (forall d n w,
      eq_dist d (ODist (with_build_number n (with_wfd w d))) = Some true) /\
  (forall d1 d2, __lt__ d1 d2 = Some true <-> key_lt (__key__ d1) (__key__ d2)) /\
  (forall d1 d2, __gt__ d1 d2 = Some true <-> key_lt (__key__ d2) (__key__ d1)) /\
  (forall d1 d2, __le__ d1 d2 = Some true <->
                 key_lt (__key__ d1) (__key__ d2) \/ __key__ d1 = __key__ d2) /\
  (forall d1 d2, __ge__ d1 d2 = Some true <->
                 key_lt (__key__ d2) (__key__ d1) \/ __key__ d1 = __key__ d2) /\
  (forall d1 d2 n, __lt__ (with_build_number n d1) d2 = __lt__ d1 d2).
Proof.
  split.
  { intros d1 d2. rewrite eq_hash. simpl. unfold __hash__.
    split; [intros H; injection H as H; now symmetry | intros ->; reflexivity]. }
  split.
  { intros d n w. apply eq_hash. reflexivity. }
  split.
  { intros d1 d2. rewrite <- compare_key_Less. unfold __lt__.
    destruct (compare_key (__key__ d1) (__key__ d2)); split; congruence. }
  split.
  { intros d1 d2. rewrite <- compare_key_Less, <- compare_key_Greater. unfold __gt__.
    destruct (compare_key (__key__ d1) (__key__ d2)); split; congruence. }
  split.
  { intros d1 d2. rewrite <- compare_key_Less, <- compare_key_Equal. unfold __le__.
    destruct (compare_key (__key__ d1) (__key__ d2)); split;
      try congruence; try tauto; intros [H | H]; congruence. }
  split.
  { intros d1 d2. rewrite <- compare_key_Less, <- compare_key_Greater,
      <- compare_key_Equal. unfold __ge__.
    destruct (compare_key (__key__ d1) (__key__ d2)); split;
      try congruence; try tauto; intros [H | H]; congruence. }
  reflexivity.
Qed.

End Hashing.

(** C9 as stated fails: two [Dist]s with different build numbers, hence
    different identity tuples, are equal under every hash function; and
    [dist_a] is below [dist_a_b] in the order of the identity tuple but
    above it in the order of the class. *)
Lemma C9_counterexample :
  (forall hash_str hash_int hash_none,
      __eq__ hash_str hash_int hash_none dist_x_build0 (ODist dist_x_build1)
      = Some true) /\
  spec_tuple dist_x_build0 <> spec_tuple dist_x_build1 /\
  spec_compare dist_a dist_a_b = Less /\
  __lt__ dist_a dist_a_b = Some false /\
  __gt__ dist_a dist_a_b = Some true.
Proof.
  split; [intros hs hi hn; unfold __eq__; simpl; now rewrite Z.eqb_refl|].
  split; [discriminate|].
  repeat split.
Qed.

End DistFacts.

(** ** The URL index *)

Module UrlsFacts.
Import PyStr Urls.

(** Whatever [get_url] returns is a key of the dictionary, never one of the
    URLs stored under the keys. *)
Lemma get_url_returns_key (self : UrlsData) (name k : string) :
  get_url self name = Some k ->
  In (Some k) (map fst (_urls_data self)) /\
  basename k = lookup_filename name.
Proof.
  unfold get_url, first.
  destruct (List.find _ (map fst (_urls_data self))) as [[k'|]|] eqn:F; try discriminate.
  intros H. injection H as ->.
  apply find_some in F. destruct F as [I T].
  apply andb_true_iff in T. destruct T as [_ T].
  apply String.eqb_eq in T. auto.
Qed.

(** So a lookup finds nothing unless the name looked for is the last
    component of a bucket key. *)
Lemma get_url_None (self : UrlsData) (name : string) :
  (forall k, In (Some k) (map fst (_urls_data self)) ->
             basename k <> lookup_filename name) ->
  get_url self name = None.
Proof.
  intros H. destruct (get_url self name) as [k|] eqn:G; [|reflexivity].
  apply get_url_returns_key in G. destruct G as [I B].
  exfalso. exact (H k I B).
Qed.

(** C2 at the URL of scenario S5, on a fresh root: after [add_url] the URL
    is the first of both of its buckets, the lookup of the specification
    finds it, and [get_url] of its base name returns [None]. *)
Theorem C2_get_url_after_add_url :
  let self := add_url Channel_S5 (new_UrlsData "/opt/pkgs") url_S5 in
  _urls_data self = [(Some "h/c/linux-64", [url_S5]); (None, [url_S5])] /\
  get_url_spec self (basename url_S5) = Some url_S5 /\
  get_url self (basename url_S5) = None /\
  get_url self url_S5 = None.
Proof. repeat split. Qed.

End UrlsFacts.

(** ** The caches and the planner *)

Module CacheFacts.
Import PyStr Py Cache.

Lemma find_some_of_exists {A : Type} (f : A -> bool) (l : list A) (x : A) :
  In x l -> f x = true -> exists y, List.find f l = Some y.
Proof.
  induction l as [|a l IH]; intros I Hx; [destruct I|].
  simpl. destruct (f a) eqn:Fa; [now exists a|].
  destruct I as [-> | I]; [congruence | now apply IH].
Qed.

Lemma In_query (pref_eq : PackageRef -> PackageRef -> bool)
    (cache : PackageCache) (pref : PackageRef) (pcrec : PackageCacheRecord) :
  In pcrec (query pref_eq cache pref) <->
  In pcrec (_package_cache_records cache) /\ pref_eq (pcrec_ref pcrec) pref = true.
Proof. unfold query. apply filter_In. Qed.

Lemma In_query_concat (pref_eq : PackageRef -> PackageRef -> bool)
    (caches : list PackageCache) (cache : PackageCache)
    (pref : PackageRef) (pcrec : PackageCacheRecord) :
  In cache caches ->
  In pcrec (_package_cache_records cache) ->
  pref_eq (pcrec_ref pcrec) pref = true ->
  In pcrec (List.concat (map (fun c => query pref_eq c pref) caches)).
Proof.
  intros Ic Ir E. apply in_concat. exists (query pref_eq cache pref). split.
  - apply in_map_iff. now exists cache.
  - now apply In_query.
Qed.

(** C3: for a reference that carries an md5 value, an extracted entry
    matching it in any cache, writable or read-only, makes the planner
    return [(None, None)]. *)
Theorem C3_planner_no_work
    (pref_eq : PackageRef -> PackageRef -> bool)
    (pkgs_dirs : list PackageCache)
    (Channel : string -> Urls.ChannelInfo)
    (path_to_url : string -> string)
    (target_full_path : CacheUrlAction -> string)
    (pref : PackageRef) (md5 : string)
    (cache : PackageCache) (pcrec : PackageCacheRecord) :
  ref_md5 pref = Some md5 ->
  md5 <> "" ->
  In cache pkgs_dirs ->
  In pcrec (_package_cache_records cache) ->
  pref_eq (pcrec_ref pcrec) pref = true ->
  is_extracted pcrec = true ->
  make_actions_for_record pref_eq pkgs_dirs Channel path_to_url target_full_path pref
  = Ok (None, None).
Proof.
  intros Hmd5 Hne Ic Ir E X.
  unfold make_actions_for_record. rewrite Hmd5.
  assert (T : truthy_opt (Some md5) = Some md5).
  { unfold truthy_opt. destruct md5; [congruence | reflexivity]. }
  rewrite T.
  destruct (find_some_of_exists is_extracted
              (List.concat (map (fun c => query pref_eq c pref) pkgs_dirs)) pcrec)
    as [y Hy]; [eapply In_query_concat; eauto | exact X |].
  now rewrite Hy.
Qed.

(** Scenario S2: the extracted entry sits in a read-only cache. *)
Lemma C3_planner_no_work_witness :
  make_actions_for_record pref_eq_spec two_roots Urls.Channel_S5
    (fun path => "file://" ++ path)
    (fun axn => join (cua_target_pkgs_dir axn) (target_package_basename axn))
    ref_x_defaults
  = Ok (None, None).
Proof.
  apply (C3_planner_no_work pref_eq_spec two_roots Urls.Channel_S5
           (fun path => "file://" ++ path)
           (fun axn => join (cua_target_pkgs_dir axn) (target_package_basename axn))
           ref_x_defaults "abc" cache_ro_x pcrec_x).
  - reflexivity.
  - discriminate.
  - simpl. right. left. reflexivity.
  - simpl. left. reflexivity.
  - reflexivity.
  - reflexivity.
Defined.

(** What the fallback of [get_entry_to_link] does: when no cache has an
    extracted match, the answer is the scan of the first cache alone. *)
Lemma get_entry_to_link_fallback
    (pref_eq : PackageRef -> PackageRef -> bool) (dist_str : PackageRef -> string)
    (pkgs_dirs : list PackageCache) (pref : PackageRef)
    (w : PackageCache) (ws : list PackageCache) :
  filter is_writable pkgs_dirs = w :: ws ->
  List.find is_extracted
    (List.concat (map (fun c => query pref_eq c pref)
                      ((w :: ws) ++ read_only_caches pkgs_dirs)%list)) = None ->
  get_entry_to_link pref_eq dist_str pkgs_dirs pref =
  match _scan_for_dist_no_channel dist_str w (dist_str_no_channel dist_str pref) with
  | Some pc_entry => Ok pc_entry
  | None => Raise (CondaError "No package found in cache directories.")
  end.
Proof.
  intros W F. unfold get_entry_to_link, query_all, writable_caches.
  rewrite W. simpl bind. simpl in F. rewrite F. reflexivity.
Qed.

(** C4 on two roots, a writable one that holds nothing and a read-only one
    that holds [x-1-0] from [defaults], for the reference [x-1-0] of channel
    [<unknown>]: no cache has an equal extracted entry, the read-only cache
    has an entry with the same channel-less dist string, the lookup of the
    specification returns it, and [get_entry_to_link] raises. *)
Theorem C4_get_entry_to_link_first_cache_only :
  query_all pref_eq_spec two_roots ref_x_unknown = Ok [] /\
  _scan_for_dist_no_channel dist_str_spec cache_ro_x
    (dist_str_no_channel dist_str_spec ref_x_unknown) = Some pcrec_x /\
  entry_to_link_spec pref_eq_spec dist_str_spec two_roots ref_x_unknown
  = Ok pcrec_x /\
  get_entry_to_link pref_eq_spec dist_str_spec two_roots ref_x_unknown
  = Raise (CondaError "No package found in cache directories.").
Proof. repeat split. Qed.

End CacheFacts.

(** ** Writability of a cache root *)

Module WritableFacts.
Import PyStr Writable.

Section Probe.
Variable FS : Type.
Variable isdir : FS -> string -> bool.
Variable file_path_is_writable : FS -> string -> FS * bool.
Variable create_package_cache_directory : FS -> string -> FS * bool.
Variable PACKAGE_CACHE_MAGIC_FILE : string.

Abbreviation check :=
  (_check_writable FS isdir file_path_is_writable
                   create_package_cache_directory PACKAGE_CACHE_MAGIC_FILE).
Abbreviation access :=
  (is_writable FS isdir file_path_is_writable
               create_package_cache_directory PACKAGE_CACHE_MAGIC_FILE).
Abbreviation run_ops :=
  (run FS isdir file_path_is_writable
       create_package_cache_directory PACKAGE_CACHE_MAGIC_FILE).

Lemma access_writable (pd : string) (fs : FS) :
  access (mkObj pd (Some true)) fs = (mkObj pd (Some true), fs, true).
Proof. reflexivity. Qed.

(** A probe stores what it reports. *)
Lemma check_records (self : PackageCacheObj) (fs : FS) :
  let '(self', _, r) := check self fs in
  __is_writable self' = Some r /\ pkgs_dir self' = pkgs_dir self.
Proof.
  unfold _check_writable.
  destruct (isdir fs (pkgs_dir self));
    [destruct (file_path_is_writable fs _) | destruct (create_package_cache_directory fs _)];
    simpl; auto.
Qed.

(** Once writable, every later access says writable, whatever happens to
    the disk, as long as [load] does not probe again. *)
Lemma writable_sticky (ops : list (Op FS)) :
  forall (pd : string) (fs : FS),
    forallb (fun o => negb (is_load FS o)) ops = true ->
    Forall (fun r => r = true) (run_ops ops (mkObj pd (Some true)) fs).
Proof.
  induction ops as [|o ops IH]; intros pd fs H; [constructor|].
  simpl in H. apply andb_true_iff in H. destruct H as [Ho H].
  destruct o as [| |change]; simpl in *.
  - constructor; [reflexivity | now apply IH].
  - discriminate.
  - now apply IH.
Qed.

(** C8, as the code has it: a root found writable keeps reporting writable
    on every later access, without another probe, until [load] probes
    again; a root found not writable, like one never probed, is probed
    again by each access, which reports and stores the outcome of that
    probe; the probe of a root that does not exist is
    [create_package_cache_directory], and its outcome is the writability. *)
Theorem C8_is_writable_memo :
  (forall pd fs, access (mkObj pd (Some true)) fs = (mkObj pd (Some true), fs, true)) /\
  (forall ops pd fs,
      forallb (fun o => negb (is_load FS o)) ops = true ->
      Forall (fun r => r = true) (run_ops ops (mkObj pd (Some true)) fs)) /\
  (forall pd fs, access (mkObj pd (Some false)) fs = check (mkObj pd (Some false)) fs) /\
  (forall pd fs, access (mkObj pd None) fs = check (mkObj pd None) fs) /\
  (forall self fs,
      let '(self', _, r) := check self fs in
      __is_writable self' = Some r /\ pkgs_dir self' = pkgs_dir self) /\
  (forall self fs,
      isdir fs (pkgs_dir self) = false ->
      check self fs =
      (mkObj (pkgs_dir self) (Some (snd (create_package_cache_directory fs (pkgs_dir self)))),
       fst (create_package_cache_directory fs (pkgs_dir self)),
       snd (create_package_cache_directory fs (pkgs_dir self)))).
Proof.
  split; [reflexivity|].
  split; [intros ops pd fs; apply writable_sticky|].
  split; [reflexivity|].
  split; [reflexivity|].
  split; [exact check_records|].
  intros self fs H. unfold _check_writable. rewrite H.
  now destruct (create_package_cache_directory fs (pkgs_dir self)).
Qed.

End Probe.

(** On the model disk: three accesses with the disk changing in between,
    and the probe of a root that does not exist under a parent the process
    may write. *)
Lemma C8_is_writable_memo_witness :
  Forall (fun r => r = true)
    (disk_run [Access Disk; External Disk chmod_root_back; Access Disk]
              (mkObj "/opt/pkgs" (Some true)) disk_read_only) /\
  _check_writable Disk disk_isdir disk_file_path_is_writable
    disk_create_package_cache_directory MAGIC
    (mkObj "/opt/new" None) (mkDisk ["/opt"] ["/opt"])
  = (mkObj "/opt/new" (Some true),
     mkDisk ["/opt/new"; "/opt"] ["/opt/new/urls.txt"; "/opt/new"; "/opt"],
     true).
Proof.
  pose proof (C8_is_writable_memo Disk disk_isdir disk_file_path_is_writable
                disk_create_package_cache_directory MAGIC)
    as [_ [Hsticky [_ [_ [_ Hcreate]]]]].
  split.
  - apply (Hsticky [Access Disk; External Disk chmod_root_back; Access Disk]
                   "/opt/pkgs" disk_read_only).
    reflexivity.
  - apply (Hcreate (mkObj "/opt/new" None) (mkDisk ["/opt"] ["/opt"])).
    reflexivity.
Defined.

(** C8 as stated fails: the root is probed and found not writable, its
    owner opens it, and the next access reports writable. *)
Lemma C8_counterexample :
  disk_run [Access Disk] root_obj disk_read_only = [false] /\
  disk_run [Access Disk; External Disk chmod_root; Access Disk]
           root_obj disk_read_only
  = [false; true].
Proof. split; reflexivity. Qed.

(** And a root found writable is demoted when [load] probes it again after
    the disk has changed. *)
Example writable_demoted_by_load :
  disk_run [Access Disk; External Disk chmod_root_back; Load Disk; Access Disk]
           root_obj (chmod_root disk_read_only)
  = [true; false].
Proof. reflexivity. Qed.

End WritableFacts.

(** ** The executor *)

Module ExecutorFacts.
Import PyStr Py Cache Executor.

Section Run.
Variable World : Type.
Variable perform : Phase -> Action -> World -> World * option Exn.
Variable planner : PackageRef -> World -> World * result Plan.
Variable pref_eq : PackageRef -> PackageRef -> bool.
Variable context : Context.

Abbreviation St := (State World).
Abbreviation call' := (call World perform).
Abbreviation run_calls' := (run_calls World perform).
Abbreviation try_body' := (try_body World perform).
Abbreviation run_actions' := (run_actions World perform context).
Abbreviation _execute_actions' := (_execute_actions World perform context).
Abbreviation for_items' := (for_items World perform context).
Abbreviation execute' := (execute World perform planner pref_eq context).
Abbreviation bar := (progress_bar context).
Abbreviation ref_trace' := (ref_trace context).
Abbreviation batch_trace' := (batch_trace context).

Lemma run_calls_cons (ph : Phase) (a : Action) (cb : option ProgressCallback)
    (calls : list (Phase * Action * option ProgressCallback)) (st : St) :
  run_calls' ((ph, a, cb) :: calls) st =
  match perform ph a (world World st) with
  | (w, Some x) =>
      (mkState World w (log World st ++ [EvCall ph a cb (Some x)])%list
               (self World st), Raise x)
  | (w, None) =>
      run_calls' calls
        (mkState World w (log World st ++ [EvCall ph a cb None])%list
                 (self World st))
  end.
Proof.
  cbn [run_calls]. unfold mbind, call.
  destruct (perform ph a (world World st)) as [w [x|]]; reflexivity.
Qed.

(** The calls of a list leave their events in order: all of them when none
    raises, and otherwise those up to the one that raises. *)
Lemma run_calls_trace (calls : list (Phase * Action * option ProgressCallback)) :
  forall st : St,
  exists st' : St,
    self World st' = self World st /\
    ((run_calls' calls st = (st', Ok tt) /\
      log World st' = (log World st ++ map (fun cl => event_of cl None) calls)%list) \/
     (exists done failing rest x,
         calls = (done ++ failing :: rest)%list /\
         run_calls' calls st = (st', Raise x) /\
         log World st' =
         (log World st ++ map (fun cl => event_of cl None) done
            ++ [event_of failing (Some x)])%list)).
Proof.
  induction calls as [|[[ph a] cb] calls IH]; intros st.
  - exists st. split; [reflexivity|]. left. split; [reflexivity|].
    simpl. now rewrite app_nil_r.
  - rewrite run_calls_cons.
    destruct (perform ph a (world World st)) as [w [x|]] eqn:P.
    + eexists. split; [|right; exists [], (ph, a, cb), calls, x].
      2:{ split; [reflexivity|]. split; [reflexivity|]. reflexivity. }
      reflexivity.
    + destruct (IH (mkState World w (log World st ++ [EvCall ph a cb None])%list
                            (self World st)))
        as [st' [Hs [[R L] | [done [f [rest [x [C [R L]]]]]]]]].
      * exists st'. split; [exact Hs|]. left. split; [exact R|].
        rewrite L. cbn [log map event_of]. now rewrite <- app_assoc.
      * exists st'. split; [exact Hs|]. right.
        exists ((ph, a, cb) :: done), f, rest, x.
        split; [now rewrite C|]. split; [exact R|].
        rewrite L. cbn [log map event_of]. now rewrite <- !app_assoc.
Qed.

(** The body of the [try] makes the planned calls in order. *)
Lemma try_body_run_calls (c : option CacheUrlAction) (e : option ExtractPackageAction)
    (st : St) :
  try_body' c e st = run_calls' (body_calls c e) st.
Proof.
  unfold try_body, body_calls.
  destruct c as [ca|], e as [ea|]; cbn [when_some run_calls app]; unfold mbind, ret.
  - destruct (call' Verify (Fetch ca) None st) as [st1 [[]|x]]; [|reflexivity].
    destruct (call' Execute (Fetch ca) _ st1) as [st2 [[]|x]]; [|reflexivity].
    destruct (call' Verify (Extract ea) None st2) as [st3 [[]|x]]; [|reflexivity].
    destruct (call' Execute (Extract ea) _ st3) as [st4 [[]|x]]; reflexivity.
  - destruct (call' Verify (Fetch ca) None st) as [st1 [[]|x]]; [|reflexivity].
    destruct (call' Execute (Fetch ca) _ st1) as [st2 [[]|x]]; reflexivity.
  - destruct (call' Verify (Extract ea) None st) as [st1 [[]|x]]; [|reflexivity].
    destruct (call' Execute (Extract ea) _ st1) as [st2 [[]|x]]; reflexivity.
  - reflexivity.
Qed.

(** A call of a phase that never raises returns and logs itself. *)
Lemma call_never_raises (ph : Phase) (a : Action) (st : St) :
  never_raises World perform ph ->
  exists st' : St,
    call' ph a None st = (st', Ok tt) /\
    self World st' = self World st /\
    log World st' = (log World st ++ [EvCall ph a None None])%list.
Proof.
  intros H. unfold call. specialize (H a (world World st)).
  destruct (perform ph a (world World st)) as [w r]. simpl in H. subst r.
  eexists. repeat split.
Qed.

(** The reversals of the handler, the extract action first. *)
Lemma reversals (c : option CacheUrlAction) (e : option ExtractPackageAction)
    (x : Exn) (st : St) :
  never_raises World perform Reverse ->
  exists st' : St,
    mbind World (when_some World e (fun ea => call' Reverse (Extract ea) None))
      (fun _ => mbind World (when_some World c (fun ca => call' Reverse (Fetch ca) None))
                  (fun _ => ret World (Some x))) st
    = (st', Ok (Some x)) /\
    self World st' = self World st /\
    log World st' = (log World st ++ reverse_calls c e)%list.
Proof.
  intros H. unfold reverse_calls, mbind, ret.
  destruct e as [ea|]; cbn [when_some].
  - destruct (call_never_raises Reverse (Extract ea) st H) as [st1 [R1 [S1 L1]]].
    rewrite R1. destruct c as [ca|]; cbn [when_some].
    + destruct (call_never_raises Reverse (Fetch ca) st1 H) as [st2 [R2 [S2 L2]]].
      rewrite R2. exists st2. split; [reflexivity|]. split; [congruence|].
      rewrite L2, L1. now rewrite <- app_assoc.
    + exists st1. split; [reflexivity|]. split; [exact S1|].
      rewrite L1. now rewrite app_nil_r.
  - unfold ret. destruct c as [ca|]; cbn [when_some].
    + destruct (call_never_raises Reverse (Fetch ca) st H) as [st2 [R2 [S2 L2]]].
      rewrite R2. exists st2. auto.
    + exists st. split; [reflexivity|]. split; [reflexivity|]. now rewrite app_nil_r.
Qed.

(** The cleanups of the [else] branch, the fetch action first, and the end
    of the progress bar. *)
Lemma cleanups (c : option CacheUrlAction) (e : option ExtractPackageAction)
    (st : St) :
  never_raises World perform Cleanup ->
  exists st' : St,
    mbind World (when_some World c (fun ca => call' Cleanup (Fetch ca) None))
      (fun _ => mbind World (when_some World e (fun ea => call' Cleanup (Extract ea) None))
                  (fun _ => mbind World (emit World EvProgressFinish)
                              (fun _ => ret World (@None Exn)))) st
    = (st', Ok None) /\
    self World st' = self World st /\
    log World st' = (log World st ++ cleanup_calls c e ++ [EvProgressFinish])%list.
Proof.
  intros H. unfold cleanup_calls, mbind, ret, emit.
  destruct c as [ca|]; cbn [when_some].
  - destruct (call_never_raises Cleanup (Fetch ca) st H) as [st1 [R1 [S1 L1]]].
    rewrite R1. destruct e as [ea|]; cbn [when_some].
    + destruct (call_never_raises Cleanup (Extract ea) st1 H) as [st2 [R2 [S2 L2]]].
      rewrite R2. eexists. split; [reflexivity|]. split; [simpl; congruence|].
      cbn [log]. rewrite L2, L1. now rewrite <- !app_assoc.
    + unfold ret. eexists. split; [reflexivity|]. split; [simpl; congruence|].
      cbn [log]. rewrite L1. now rewrite <- !app_assoc.
  - unfold ret. destruct e as [ea|]; cbn [when_some].
    + destruct (call_never_raises Cleanup (Extract ea) st H) as [st2 [R2 [S2 L2]]].
      rewrite R2. eexists. split; [reflexivity|]. split; [simpl; congruence|].
      cbn [log]. rewrite L2. now rewrite <- !app_assoc.
    + eexists. split; [reflexivity|]. split; reflexivity.
Qed.

(** One reference with a plan that is not empty: the call returns, with
    the exception captured if a planned call raised, and leaves the trace
    of the specification. *)
Lemma run_actions_trace (prec : PackageRef) (c : option CacheUrlAction)
    (e : option ExtractPackageAction) (st : St) :
  empty_plan (c, e) = false ->
  never_raises World perform Reverse ->
  never_raises World perform Cleanup ->
  exists (st' : St) evs exc,
    run_actions' prec c e st = (st', Ok exc) /\
    self World st' = self World st /\
    log World st' = (log World st ++ evs)%list /\
    ref_trace' prec c e evs exc.
Proof.
  intros NE HR HC.
  unfold run_actions. unfold mbind at 1. unfold emit at 1.
  unfold try_except_else_finally.
  rewrite try_body_run_calls.
  set (st0 := mkState World (world World st) (log World st ++ [bar prec])%list
                      (self World st)).
  destruct (run_calls_trace (body_calls c e) st0)
    as [st1 [S1 [[R1 L1] | [done [f [rest [x [C [R1 L1]]]]]]]]]; rewrite R1.
  - destruct (cleanups c e st1 HC) as [st2 [R2 [S2 L2]]].
    rewrite R2. unfold emit.
    eexists. exists ([bar prec] ++ map (fun cl => event_of cl None) (body_calls c e)
                       ++ cleanup_calls c e ++ [EvProgressFinish; EvProgressClose])%list.
    exists None.
    split; [reflexivity|]. split; [cbn [self]; rewrite S2, S1; reflexivity|]. split.
    + cbn [log]. rewrite L2, L1. subst st0. cbn [log].
      rewrite <- !app_assoc. reflexivity.
    + now apply ref_done.
  - destruct (reversals c e x st1 HR) as [st2 [R2 [S2 L2]]].
    rewrite R2. unfold emit.
    eexists. exists ([bar prec] ++ map (fun cl => event_of cl None) done
                       ++ [event_of f (Some x)] ++ reverse_calls c e
                       ++ [EvProgressClose])%list.
    exists (Some x).
    split; [reflexivity|]. split; [cbn [self]; rewrite S2, S1; reflexivity|]. split.
    + cbn [log]. rewrite L2, L1. subst st0. cbn [log].
      rewrite <- !app_assoc. reflexivity.
    + now apply (ref_failed context prec c e done f rest x).
Qed.

Lemma _execute_actions_trace (prec : PackageRef) (c : option CacheUrlAction)
    (e : option ExtractPackageAction) (st : St) :
  never_raises World perform Reverse ->
  never_raises World perform Cleanup ->
  exists (st' : St) evs exc,
    _execute_actions' prec (c, e) st = (st', Ok exc) /\
    self World st' = self World st /\
    log World st' = (log World st ++ evs)%list /\
    ref_trace' prec c e evs exc.
Proof.
  intros HR HC.
  destruct (empty_plan (c, e)) eqn:NE.
  - destruct c, e; try discriminate.
    exists st, [], None. split; [reflexivity|]. split; [reflexivity|].
    split; [now rewrite app_nil_r | now apply ref_skipped].
  - destruct (run_actions_trace prec c e st NE HR HC) as [st' [evs [exc H]]].
    exists st', evs, exc. destruct c, e; try discriminate; exact H.
Qed.

(** The loop: every item is run, in the order of the dictionary, whatever
    the earlier ones raised, and the exceptions captured are collected in
    that order. *)
Lemma for_items_trace (items : list (PackageRef * Plan)) :
  forall (st : St) (exceptions : list Exn),
    never_raises World perform Reverse ->
    never_raises World perform Cleanup ->
    exists (st' : St) evs excs,
      for_items' items exceptions st = (st', Ok (exceptions ++ excs)%list) /\
      self World st' = self World st /\
      log World st' = (log World st ++ evs)%list /\
      batch_trace' items evs excs.
Proof.
  induction items as [|[prec [c e]] items IH]; intros st exceptions HR HC.
  - exists st, [], []. split; [cbn; unfold ret; now rewrite app_nil_r|].
    split; [reflexivity|]. split; [now rewrite app_nil_r | constructor].
  - destruct (_execute_actions_trace prec c e st HR HC)
      as [st1 [evs1 [exc [R1 [S1 [L1 T1]]]]]].
    cbn [for_items]. unfold mbind. rewrite R1.
    destruct (IH st1 (match exc with
                      | Some x => (exceptions ++ [x])%list
                      | None => exceptions
                      end) HR HC)
      as [st2 [evs2 [excs2 [R2 [S2 [L2 T2]]]]]].
    exists st2, (evs1 ++ evs2)%list, (captured exc ++ excs2)%list.
    split.
    + rewrite R2. destruct exc; cbn [captured]; [now rewrite <- app_assoc | reflexivity].
    + split; [congruence|]. split.
      * rewrite L2, L1. now rewrite <- app_assoc.
      * now constructor.
Qed.

(** A prepared batch in which no reference has a fetch action, or none an
    extract action, is not run at all. *)
Lemma execute_short_circuit (st : St) :
  _prepared (self World st) = true ->
  dry_run context = false ->
  is_empty (cache_actions (self World st))
  || is_empty (extract_actions (self World st)) = true ->
  execute' st = (st, Ok tt).
Proof.
  intros P D E. unfold execute, mbind, get_self.
  rewrite P. cbn [negb]. unfold ret. rewrite D, E. reflexivity.
Qed.

(** The calls of a list, as the executor makes them, are the calls on the
    world. *)
Lemma run_calls_on (calls : list (Phase * Action * option ProgressCallback)) :
  forall st : St,
    run_calls' calls st =
    let '(w, evs, raised) := calls_on World perform calls (world World st) in
    (mkState World w (log World st ++ evs)%list (self World st),
     match raised with
     | Some x => Raise x
     | None => Ok tt
     end).
Proof.
  induction calls as [|[[ph a] cb] calls IH]; intros st.
  - cbn [run_calls calls_on]. unfold ret. rewrite app_nil_r. now destruct st.
  - rewrite run_calls_cons. cbn [calls_on].
    destruct (perform ph a (world World st)) as [w [x|]]; [reflexivity|].
    rewrite IH. cbn [world log self].
    destruct (calls_on World perform calls w) as [[w' evs] raised].
    now rewrite <- app_assoc.
Qed.

Lemma handler_run_calls (c : option CacheUrlAction) (e : option ExtractPackageAction)
    (x : Exn) (st : St) :
  mbind World (when_some World e (fun ea => call' Reverse (Extract ea) None))
    (fun _ => mbind World (when_some World c (fun ca => call' Reverse (Fetch ca) None))
                (fun _ => ret World (Some x))) st
  = mbind World (run_calls' (reverse_list c e)) (fun _ => ret World (Some x)) st.
Proof.
  unfold reverse_list.
  destruct e as [ea|], c as [ca|]; cbn [when_some app run_calls]; unfold mbind, ret.
  - destruct (call' Reverse (Extract ea) None st) as [st1 [[]|y]]; [|reflexivity].
    destruct (call' Reverse (Fetch ca) None st1) as [st2 [[]|y]]; reflexivity.
  - destruct (call' Reverse (Extract ea) None st) as [st1 [[]|y]]; reflexivity.
  - destruct (call' Reverse (Fetch ca) None st) as [st1 [[]|y]]; reflexivity.
  - reflexivity.
Qed.

Lemma orelse_run_calls (c : option CacheUrlAction) (e : option ExtractPackageAction)
    (st : St) :
  mbind World (when_some World c (fun ca => call' Cleanup (Fetch ca) None))
    (fun _ => mbind World (when_some World e (fun ea => call' Cleanup (Extract ea) None))
                (fun _ => mbind World (emit World EvProgressFinish)
                            (fun _ => ret World (@None Exn)))) st
  = mbind World (run_calls' (cleanup_list c e))
      (fun _ => mbind World (emit World EvProgressFinish)
                  (fun _ => ret World (@None Exn))) st.
Proof.
  unfold cleanup_list.
  destruct c as [ca|], e as [ea|]; cbn [when_some app run_calls]; unfold mbind, ret.
  - destruct (call' Cleanup (Fetch ca) None st) as [st1 [[]|y]]; [|reflexivity].
    destruct (call' Cleanup (Extract ea) None st1) as [st2 [[]|y]]; reflexivity.
  - destruct (call' Cleanup (Fetch ca) None st) as [st1 [[]|y]]; reflexivity.
  - destruct (call' Cleanup (Extract ea) None st) as [st1 [[]|y]]; reflexivity.
  - reflexivity.
Qed.

(** One reference with a plan that is not empty, whatever its calls do. *)
Lemma run_actions_outcome (prec : PackageRef) (c : option CacheUrlAction)
    (e : option ExtractPackageAction) (st : St) :
  empty_plan (c, e) = false ->
  run_actions' prec c e st =
  let '(w, evs, o) := ref_outcome World perform context prec c e (world World st) in
  (mkState World w (log World st ++ evs)%list (self World st),
   match o with
   | Completed => Ok None
   | Captured x => Ok (Some x)
   | Escaped y => Raise y
   end).
Proof.
  intros NE. unfold ref_outcome. rewrite NE.
  unfold run_actions. unfold mbind at 1. unfold emit at 1.
  unfold try_except_else_finally.
  rewrite try_body_run_calls, run_calls_on. cbn [world log self].
  destruct (calls_on World perform (body_calls c e) (world World st))
    as [[w1 evs1] [x|]].
  - rewrite handler_run_calls. unfold mbind at 1. rewrite run_calls_on.
    cbn [world log self].
    destruct (calls_on World perform (reverse_list c e) w1) as [[w2 evs2] [y|]];
      unfold ret, emit; cbn [world log self]; rewrite <- !app_assoc; reflexivity.
  - rewrite orelse_run_calls. unfold mbind at 1. rewrite run_calls_on.
    cbn [world log self].
    destruct (calls_on World perform (cleanup_list c e) w1) as [[w2 evs2] [y|]];
      unfold mbind, ret, emit; cbn [world log self]; rewrite <- !app_assoc; reflexivity.
Qed.

Lemma _execute_actions_outcome (prec : PackageRef) (c : option CacheUrlAction)
    (e : option ExtractPackageAction) (st : St) :
  _execute_actions' prec (c, e) st =
  let '(w, evs, o) := ref_outcome World perform context prec c e (world World st) in
  (mkState World w (log World st ++ evs)%list (self World st),
   match o with
   | Completed => Ok None
   | Captured x => Ok (Some x)
   | Escaped y => Raise y
   end).
Proof.
  destruct (empty_plan (c, e)) eqn:NE.
  - unfold ref_outcome. rewrite NE. destruct c, e; try discriminate.
    cbn [_execute_actions]. unfold ret. rewrite app_nil_r. now destruct st.
  - rewrite <- (run_actions_outcome prec c e st NE).
    destruct c, e; try discriminate; reflexivity.
Qed.

(** The loop, whatever the calls do: it stops at the first exception that
    escapes a reference. *)
Lemma for_items_outcome (items : list (PackageRef * Plan)) :
  forall (st : St) (exceptions : list Exn),
    for_items' items exceptions st =
    let '(w, evs, excs, escaped) :=
      batch_outcome World perform context items (world World st) in
    (mkState World w (log World st ++ evs)%list (self World st),
     match escaped with
     | Some y => Raise y
     | None => Ok (exceptions ++ excs)%list
     end).
Proof.
  induction items as [|[prec [c e]] items IH]; intros st exceptions.
  - cbn [for_items batch_outcome]. unfold ret. rewrite !app_nil_r. now destruct st.
  - cbn [for_items batch_outcome]. unfold mbind at 1.
    rewrite _execute_actions_outcome.
    destruct (ref_outcome World perform context prec c e (world World st))
      as [[w1 evs1] o].
    destruct o as [|x|y]; [| |reflexivity]; rewrite IH; cbn [world log self];
      destruct (batch_outcome World perform context items w1)
        as [[[w2 evs2] excs] escaped];
      rewrite <- !app_assoc; reflexivity.
Qed.

(** When [reverse] and [cleanup] never raise, no exception escapes, and
    the events and the exceptions captured are those of the
    specification. *)
Lemma batch_outcome_trace (items : list (PackageRef * Plan)) (w : World) :
  never_raises World perform Reverse ->
  never_raises World perform Cleanup ->
  let '(_, evs, excs, escaped) := batch_outcome World perform context items w in
  escaped = None /\ batch_trace' items evs excs.
Proof.
  intros HR HC.
  pose (st := mkState World w [] (mkPFE [] [] true)).
  destruct (for_items_trace items st [] HR HC) as [st' [evs' [excs' [R [_ [L T]]]]]].
  rewrite for_items_outcome in R. cbn [world log self st app] in R, L.
  destruct (batch_outcome World perform context items w) as [[[w2 evs] excs] escaped].
  destruct escaped as [y|]; [discriminate|].
  injection R as R1 R2. subst st'. cbn [log] in L. subst. now split.
Qed.

(** C7, as the code has it: on a prepared batch, [execute] runs the
    references in the order of the dictionary, each on the world the one
    before left.  For a reference of which a [verify] or [execute] call
    raises, it calls [reverse] on the extract action, then on the fetch
    action, each when present, and closes the bar; if no reversal raises,
    the exception is captured and the next reference is run.  An exception
    raised by a [reverse] call, or by a [cleanup] call of a reference whose
    calls all returned, is not captured: the bar is closed, the calls and
    the references that remain are not run, and [execute] raises that
    exception as it is.  Otherwise, at the end, [execute] raises the
    captured exceptions together as one [CondaMultiError] if there are
    any, and returns if there are none.  When [reverse] and [cleanup]
    never raise, nothing escapes and the run is the one the specification
    describes.  (A batch cut short before the loop runs nothing.) *)
Theorem C7_execute_captures_and_aggregates (st : St) :
  _prepared (self World st) = true ->
  dry_run context = false ->
  (if is_empty (cache_actions (self World st))
      || is_empty (extract_actions (self World st))
   then execute World perform planner pref_eq context st = (st, Ok tt)
   else
     let '(w, evs, excs, escaped) :=
       batch_outcome World perform context (paired_actions (self World st))
                     (world World st) in
     execute World perform planner pref_eq context st =
     (mkState World w
        (log World st ++ [announce context; EvSignalHandlerEnter] ++ evs
           ++ [EvSignalHandlerExit])%list
        (self World st),
      match escaped with
      | Some y => Raise y
      | None => if is_empty excs then Ok tt else Raise (CondaMultiError excs)
      end)) /\
  (never_raises World perform Reverse ->
   never_raises World perform Cleanup ->
   let '(_, evs, excs, escaped) :=
     batch_outcome World perform context (paired_actions (self World st))
                   (world World st) in
   escaped = None /\ batch_trace context (paired_actions (self World st)) evs excs).
Proof.
  intros P D. split; [|apply batch_outcome_trace].
  destruct (is_empty (cache_actions (self World st))
            || is_empty (extract_actions (self World st))) eqn:E.
  - now apply execute_short_circuit.
  - unfold execute, mbind, get_self.
    rewrite P. cbn [negb]. unfold ret. rewrite D, E.
    unfold with_signal_handler, emit, raise. cbn [log world self].
    rewrite for_items_outcome. cbn [log world self app].
    destruct (batch_outcome World perform context (paired_actions (self World st))
                            (world World st)) as [[[w evs] excs] escaped].
    cbn [log world self]. rewrite <- !app_assoc. cbn [app].
    destruct escaped as [y|]; [reflexivity|].
    destruct excs; reflexivity.
Qed.

End Run.

(** A batch of two in which the download of the first reference fails: the
    second reference is still run, and the failure comes out in the
    multi-error. *)
Lemma C7_execute_captures_and_aggregates_witness :
  (let '(w, evs, excs, escaped) :=
     batch_outcome unit download_fails default_context (paired_actions pfe_two) tt in
   execute unit download_fails no_planner pref_eq_spec default_context
           (mkState unit tt [] pfe_two) =
   (mkState unit w
      ([] ++ [announce default_context; EvSignalHandlerEnter] ++ evs
          ++ [EvSignalHandlerExit])%list
      pfe_two,
    match escaped with
    | Some y => Raise y
    | None => if is_empty excs then Ok tt else Raise (CondaMultiError excs)
    end)) /\
  (never_raises unit download_fails Reverse ->
   never_raises unit download_fails Cleanup ->
   let '(_, evs, excs, escaped) :=
     batch_outcome unit download_fails default_context (paired_actions pfe_two) tt in
   escaped = None /\ batch_trace default_context (paired_actions pfe_two) evs excs).
Proof.
  apply (C7_execute_captures_and_aggregates unit download_fails no_planner
           pref_eq_spec default_context (mkState unit tt [] pfe_two)).
  - reflexivity.
  - reflexivity.
Defined.

(** C7 as stated fails.  In the batch of two, the download of the first
    reference fails and the reversal of its extraction fails too: the
    fetch action is not reversed, the exception of the download is not
    captured, the second reference is not run, and what [execute] raises
    is the exception of the reversal, which is no multi-error.  And when
    every planned call returns but a cleanup raises, nothing was captured
    and [execute] does not return normally. *)
Lemma C7_counterexample :
  (let '(st', r) := execute unit reverse_fails no_planner pref_eq_spec default_context
                            (mkState unit tt [] pfe_two) in
   r = Raise (ActionError "reverse failed") /\
   (forall excs : list Exn,
       r <> (if is_empty excs then Ok tt else Raise (CondaMultiError excs))) /\
   log unit st' =
   [EvPrint (String "010"%char "Downloading and Extracting Packages");
    EvSignalHandlerEnter;
    EvProgressBar "y 2" true false;
    EvCall Verify (Fetch fetch_y) None None;
    EvCall Execute (Fetch fetch_y) (Some (mkCallback 75 0))
           (Some (ActionError "md5 mismatch"));
    EvCall Reverse (Extract extract_y) None (Some (ActionError "reverse failed"));
    EvProgressClose;
    EvSignalHandlerExit]) /\
  (let '(st', r) := execute unit cleanup_fails no_planner pref_eq_spec default_context
                            (mkState unit tt [] pfe_two) in
   r = Raise (ActionError "cleanup failed") /\
   log unit st' =
   [EvPrint (String "010"%char "Downloading and Extracting Packages");
    EvSignalHandlerEnter;
    EvProgressBar "y 2" true false;
    EvCall Verify (Fetch fetch_y) None None;
    EvCall Execute (Fetch fetch_y) (Some (mkCallback 75 0)) None;
    EvCall Verify (Extract extract_y) None None;
    EvCall Execute (Extract extract_y) (Some (mkCallback 25 75)) None;
    EvCall Cleanup (Fetch fetch_y) None (Some (ActionError "cleanup failed"));
    EvProgressClose;
    EvSignalHandlerExit]).
Proof.
  vm_compute. repeat split; try reflexivity.
  intros [|x excs]; discriminate.
Qed.

(** What the run of that batch leaves: the failed download is reversed,
    extract action first, and [x 1] is extracted all the same. *)
Example execute_two_download_fails :
  let '(st', r) := execute unit download_fails no_planner pref_eq_spec default_context
                           (mkState unit tt [] pfe_two) in
  r = Raise (CondaMultiError [ActionError "md5 mismatch"]) /\
  log unit st' =
  [EvPrint (String "010"%char "Downloading and Extracting Packages");
   EvSignalHandlerEnter;
   EvProgressBar "y 2" true false;
   EvCall Verify (Fetch fetch_y) None None;
   EvCall Execute (Fetch fetch_y) (Some (mkCallback 75 0))
          (Some (ActionError "md5 mismatch"));
   EvCall Reverse (Extract extract_y) None None;
   EvCall Reverse (Fetch fetch_y) None None;
   EvProgressClose;
   EvProgressBar "x 1" true false;
   EvCall Verify (Extract extract_x) None None;
   EvCall Execute (Extract extract_x) (Some (mkCallback 25 75)) None;
   EvCall Cleanup (Extract extract_x) None None;
   EvProgressFinish;
   EvProgressClose;
   EvSignalHandlerExit].
Proof. vm_compute. split; reflexivity. Qed.

(** C1 on a prepared batch of one reference whose plan is an extraction
    alone, with actions that all succeed: the extraction is planned, the
    loop of [execute] would verify and run it, and [execute] returns
    without a single call. *)
Theorem C1_extract_only_batch_not_run :
  paired_actions pfe_extract_only = [(ref_x_defaults, (None, Some extract_x))] /\
  for_items unit all_succeed default_context (paired_actions pfe_extract_only) []
            (mkState unit tt [] pfe_extract_only)
  = (mkState unit tt
       [EvProgressBar "x 1" true false;
        EvCall Verify (Extract extract_x) None None;
        EvCall Execute (Extract extract_x) (Some (mkCallback 25 75)) None;
        EvCall Cleanup (Extract extract_x) None None;
        EvProgressFinish;
        EvProgressClose]
       pfe_extract_only,
     Ok []) /\
  execute unit all_succeed no_planner pref_eq_spec default_context
          (mkState unit tt [] pfe_extract_only)
  = (mkState unit tt [] pfe_extract_only, Ok tt).
Proof. vm_compute. repeat split. Qed.

End ExecutorFacts.

(** ** [Dist]: the order *)

Module DistOrderFacts.
Import PyStr DistModel DistFacts.

Lemma compare_str_flip (a b : string) : compare_str b a = flip (compare_str a b).
Proof.
  unfold compare_str. rewrite (String.compare_antisym b a).
  destruct (String.compare a b); reflexivity.
Qed.

Lemma compare_opt_flip (a b : option string) :
  compare_opt b a = flip (compare_opt a b).
Proof. destruct a, b; simpl; auto using compare_str_flip. Qed.

Lemma compare_key_flip (k1 k2 : option string * string * option string) :
  compare_key k2 k1 = flip (compare_key k1 k2).
Proof.
  destruct k1 as [[c1 n1] w1], k2 as [[c2 n2] w2]. unfold compare_key.
  rewrite (compare_opt_flip c1 c2), (compare_str_flip n1 n2), (compare_opt_flip w1 w2).
  destruct (compare_opt c1 c2); simpl; try reflexivity.
  destruct (compare_str n1 n2); reflexivity.
Qed.

Lemma compare_str_Less_trans (a b c : string) :
  compare_str a b = Less -> compare_str b c = Less -> compare_str a c = Less.
Proof.
  unfold compare_str.
  destruct (String.compare a b) eqn:Hab; try discriminate.
  destruct (String.compare b c) eqn:Hbc; try discriminate.
  intros _ _.
  apply String_as_OT.cmp_lt in Hab, Hbc.
  assert (H : String_as_OT.cmp a c = Lt)
    by (apply String_as_OT.cmp_lt; eapply String_as_OT.lt_trans; eauto).
  unfold String_as_OT.cmp in H. now rewrite H.
Qed.

Lemma lt_opt_trans (a b c : option string) :
  lt_opt a b -> lt_opt b c -> lt_opt a c.
Proof.
  unfold lt_opt. destruct a, b, c; simpl; try discriminate.
  apply compare_str_Less_trans.
Qed.

Lemma key_lt_trans (k1 k2 k3 : option string * string * option string) :
  key_lt k1 k2 -> key_lt k2 k3 -> key_lt k1 k3.
Proof.
  destruct k1 as [[c1 n1] w1], k2 as [[c2 n2] w2], k3 as [[c3 n3] w3].
  unfold key_lt.
  intros [H12 | [E12 H12]] [H23 | [E23 H23]].
  - left. eapply lt_opt_trans; eauto.
  - subst. now left.
  - subst. now left.
  - subst. right. split; [reflexivity|].
    destruct H12 as [H12 | [F12 H12]], H23 as [H23 | [F23 H23]].
    + left. eapply compare_str_Less_trans; eauto.
    + subst. now left.
    + subst. now left.
    + subst. right. split; [reflexivity|]. eapply lt_opt_trans; eauto.
Qed.

(** [<] on [Dist] is a strict order wherever it answers: no [Dist] is below
    itself, two [Dist]s are never below each other, and below is
    transitive. *)
Theorem dist_lt_strict_order :
  (forall d, __lt__ d d = Some false) /\
  (forall d1 d2, __lt__ d1 d2 = Some true -> __lt__ d2 d1 = Some false) /\
  (forall d1 d2 d3,
      __lt__ d1 d2 = Some true -> __lt__ d2 d3 = Some true ->
      __lt__ d1 d3 = Some true).
Proof.
  split.
  { intros d. unfold __lt__.
    now rewrite (proj2 (compare_key_Equal (__key__ d) (__key__ d)) eq_refl). }
  split.
  { intros d1 d2. unfold __lt__. rewrite (compare_key_flip (__key__ d1) (__key__ d2)).
    destruct (compare_key (__key__ d1) (__key__ d2)); simpl; congruence. }
  intros d1 d2 d3 H12 H23.
  assert (K12 : key_lt (__key__ d1) (__key__ d2)).
  { apply compare_key_Less. unfold __lt__ in H12.
    destruct (compare_key (__key__ d1) (__key__ d2)); congruence. }
  assert (K23 : key_lt (__key__ d2) (__key__ d3)).
  { apply compare_key_Less. unfold __lt__ in H23.
    destruct (compare_key (__key__ d2) (__key__ d3)); congruence. }
  pose proof (proj2 (compare_key_Less _ _) (key_lt_trans _ _ _ K12 K23)) as H.
  unfold __lt__. now rewrite H.
Qed.

Lemma dist_lt_strict_order_witness :
  __lt__ dist_a_b dist_a = Some true /\
  __lt__ dist_a dist_a_b = Some false /\
  __lt__ dist_a_b dist_x_build0 = Some true.
Proof.
  destruct dist_lt_strict_order as [_ [Hasym Htrans]].
  assert (H1 : __lt__ dist_a_b dist_a = Some true) by reflexivity.
  assert (H2 : __lt__ dist_a dist_x_build0 = Some true) by reflexivity.
  split; [exact H1|]. split.
  - exact (Hasym dist_a_b dist_a H1).
  - exact (Htrans dist_a_b dist_a dist_x_build0 H1 H2).
Defined.

(** The four operators agree with each other: [>] is [<] with the operands
    exchanged, [>=] is [<=] exchanged, [<=] is the negation of [>], and
    [<=] holds exactly when [<] does or the keys are equal; one raises
    exactly when the others do. *)
Theorem dist_order_operators_agree :
  (forall d1 d2, __gt__ d1 d2 = __lt__ d2 d1) /\
  (forall d1 d2, __ge__ d1 d2 = __le__ d2 d1) /\
  (forall d1 d2, __le__ d1 d2 = option_map negb (__gt__ d1 d2)) /\
  (forall d1 d2, __ge__ d1 d2 = option_map negb (__lt__ d1 d2)) /\
  (forall d1 d2,
      __le__ d1 d2 =
      match __lt__ d1 d2 with
      | Some true => Some true
      | Some false =>
          Some (match compare_key (__key__ d1) (__key__ d2) with
                | Equal => true
                | _ => false
                end)
      | None => None
      end).
Proof.
  repeat split; intros d1 d2;
    unfold __gt__, __lt__, __ge__, __le__;
    try rewrite (compare_key_flip (__key__ d1) (__key__ d2));
    destruct (compare_key (__key__ d1) (__key__ d2)); reflexivity.
Qed.

(** Equality and order disagree: two [Dist]s that differ in
    [with_features_depends] only are equal, under every hash, and yet one
    is strictly below the other. *)
Theorem dist_equal_yet_below
    (hash_str : string -> Z) (hash_int : Z -> Z) (hash_none : Z)
    (d : Dist) (w1 w2 : string) :
  compare_str w1 w2 = Less ->
  __eq__ hash_str hash_int hash_none
         (with_wfd (Some w1) d) (ODist (with_wfd (Some w2) d)) = Some true /\
  __lt__ (with_wfd (Some w1) d) (with_wfd (Some w2) d) = Some true.
Proof.
  intros H. split.
  - unfold __eq__. simpl. unfold __hash__.
    change (pkey (with_wfd (Some w1) d)) with (pkey d).
    change (pkey (with_wfd (Some w2) d)) with (pkey d).
    now rewrite Z.eqb_refl.
  - unfold __lt__, __key__, compare_key. simpl.
    rewrite (proj2 (compare_opt_Equal (channel d) (channel d)) eq_refl).
    change (dist_name (with_wfd (Some w1) d)) with (dist_name d).
    change (dist_name (with_wfd (Some w2) d)) with (dist_name d).
    rewrite (proj2 (compare_str_Equal (dist_name d) (dist_name d)) eq_refl).
    now rewrite H.
Qed.

Lemma dist_equal_yet_below_witness :
  __eq__ (fun _ => 0%Z) (fun z => z) 0%Z
         (with_wfd (Some "a") dist_a) (ODist (with_wfd (Some "b") dist_a)) = Some true /\
  __lt__ (with_wfd (Some "a") dist_a) (with_wfd (Some "b") dist_a) = Some true.
Proof.
  apply (dist_equal_yet_below (fun _ => 0%Z) (fun z => z) 0%Z dist_a "a" "b").
  reflexivity.
Defined.

End DistOrderFacts.

(** ** [Dist]: names, file names and parsing *)

Module DistNamesFacts.
Import PyStr PyStrFacts Py DistModel DistNames.

Lemma occurs_app (c : ascii) (a b : string) :
  occurs c (a ++ b) = occurs c a || occurs c b.
Proof.
  unfold occurs. rewrite list_ascii_append. apply existsb_app.
Qed.

Lemma occurs_cons (c a : ascii) (s : string) :
  occurs c (String a s) = Ascii.eqb c a || occurs c s.
Proof. reflexivity. Qed.

(** Splitting at the last separator of [s ++ c ++ t], when [t] has none. *)
Lemma rsplit1_last_app (c : ascii) (s t : string) :
  occurs c t = false -> rsplit1_last c (s ++ String c t) = t.
Proof.
  intros Ht. induction s as [|a s IH]; simpl.
  - now rewrite Ht, Ascii.eqb_refl.
  - rewrite occurs_app, occurs_cons, Ascii.eqb_refl, orb_true_r. exact IH.
Qed.

Lemma rsplit1_head_app (c : ascii) (s t : string) :
  occurs c t = false -> rsplit1_head c (s ++ String c t) = s.
Proof.
  intros Ht. induction s as [|a s IH]; simpl.
  - now rewrite Ht, Ascii.eqb_refl.
  - rewrite occurs_app, occurs_cons, Ascii.eqb_refl, orb_true_r. now rewrite IH.
Qed.

Lemma rsplit1_last_none (c : ascii) (s : string) :
  occurs c s = false -> rsplit1_last c s = s.
Proof.
  destruct s as [|a s]; [reflexivity|]. rewrite occurs_cons. intros H.
  apply orb_false_iff in H. destruct H as [Ha Hs]. simpl. rewrite Hs.
  rewrite Ascii.eqb_sym in Ha. now rewrite Ha.
Qed.

Lemma occurs_app_sep (c : ascii) (s t : string) :
  occurs c (s ++ String c t) = true.
Proof. now rewrite occurs_app, occurs_cons, Ascii.eqb_refl, orb_true_r. Qed.

(** The three parts of [name-version-build], whatever dashes the name has. *)
Lemma rsplit_name_version_build (n v b : string) :
  occurs "-"%char v = false ->
  occurs "-"%char b = false ->
  rsplit_char "-"%char 2 (n ++ "-" ++ v ++ "-" ++ b) = [n; v; b].
Proof.
  intros Hv Hb.
  change (n ++ "-" ++ v ++ "-" ++ b) with (n ++ String "-"%char (v ++ String "-"%char b)).
  assert (E : n ++ String "-"%char (v ++ String "-"%char b)
              = (n ++ String "-"%char v) ++ String "-"%char b).
  { rewrite append_assoc. reflexivity. }
  rewrite E. cbn [rsplit_char].
  rewrite occurs_app_sep, (rsplit1_last_app _ _ b Hb), (rsplit1_head_app _ _ b Hb).
  rewrite occurs_app_sep, (rsplit1_last_app _ _ v Hv), (rsplit1_head_app _ _ v Hv).
  reflexivity.
Qed.

(** *** Suffixes *)

Lemma substring_prefix (s e : string) :
  substring 0 (String.length s) (s ++ e) = s.
Proof.
  induction s as [|a s IH]; simpl.
  - destruct e; reflexivity.
  - now rewrite IH.
Qed.

Lemma substring_whole (e : string) : substring 0 (String.length e) e = e.
Proof. induction e as [|a e IH]; simpl; [reflexivity | now rewrite IH]. Qed.

Lemma substring_suffix (s e : string) :
  substring (String.length s) (String.length e) (s ++ e) = e.
Proof.
  induction s as [|a s IH]; simpl; [apply substring_whole | exact IH].
Qed.

Lemma endswith_app (s e : string) : endswith (s ++ e) e = true.
Proof.
  unfold endswith. rewrite length_append.
  replace (Nat.leb (String.length e) (String.length s + String.length e)) with true
    by (symmetry; apply Nat.leb_le; lia).
  replace (String.length s + String.length e - String.length e) with (String.length s)
    by lia.
  rewrite substring_suffix. apply String.eqb_refl.
Qed.

Lemma strip_last_app (s e : string) : strip_last (String.length e) (s ++ e) = s.
Proof.
  unfold strip_last. rewrite length_append.
  replace (String.length s + String.length e - String.length e) with (String.length s)
    by lia.
  apply substring_prefix.
Qed.

(** *** Substrings *)

Lemma prefix_cons (a b : ascii) (s1 s2 : string) :
  String.prefix (String a s1) (String b s2) = Ascii.eqb a b && String.prefix s1 s2.
Proof.
  change (String.prefix (String a s1) (String b s2))
    with (if ascii_dec a b then String.prefix s1 s2 else false).
  destruct (ascii_dec a b) as [->|N].
  - now rewrite Ascii.eqb_refl.
  - apply Ascii.eqb_neq in N. now rewrite N.
Qed.

Lemma prefix_nil (s : string) : String.prefix "" s = true.
Proof. destruct s; reflexivity. Qed.

Lemma prefix_refl_app (t b : string) : String.prefix t (t ++ b) = true.
Proof.
  induction t as [|a t IH].
  - apply prefix_nil.
  - change (String a t ++ b) with (String a (t ++ b)).
    now rewrite prefix_cons, Ascii.eqb_refl, IH.
Qed.

Lemma contains_cons (sub : string) (a : ascii) (s : string) :
  contains sub s = true -> contains sub (String a s) = true.
Proof. intros H. cbn [contains]. rewrite H. apply orb_true_r. Qed.

Lemma contains_app (t a b : string) : contains t (a ++ t ++ b) = true.
Proof.
  induction a as [|x a IH]; simpl append.
  - destruct (t ++ b) eqn:E; cbn [contains]; rewrite <- E, prefix_refl_app; reflexivity.
  - now apply contains_cons.
Qed.

Lemma prefix_substring (item s : string) (k : nat) :
  String.prefix item s = true -> String.prefix (substring 0 k item) s = true.
Proof.
  revert s k. induction item as [|a item IH]; intros s k H.
  - destruct k; apply prefix_nil.
  - destruct s as [|b s]; [discriminate H|].
    rewrite prefix_cons in H. apply andb_true_iff in H. destruct H as [Hab H].
    destruct k as [|k]; [reflexivity|].
    change (substring 0 (S k) (String a item)) with (String a (substring 0 k item)).
    rewrite prefix_cons, Hab. now apply IH.
Qed.

(** A beginning of something found is found too. *)
Lemma contains_substring (item s : string) (k : nat) :
  contains item s = true -> contains (substring 0 k item) s = true.
Proof.
  induction s as [|b s IH]; cbn [contains]; intros H.
  - rewrite orb_false_r in *. now apply prefix_substring.
  - apply orb_true_iff in H. apply orb_true_iff. destruct H as [H | H].
    + left. now apply prefix_substring.
    + right. now apply IH.
Qed.

Lemma contains_colons_none (s : string) :
  occurs ":"%char s = false -> contains "::" s = false.
Proof.
  induction s as [|a s IH]; [reflexivity|].
  rewrite occurs_cons. intros H. apply orb_false_iff in H. destruct H as [Ha Hs].
  cbn [contains]. rewrite (IH Hs), orb_false_r.
  change "::" with (String ":"%char ":"). now rewrite prefix_cons, Ha.
Qed.

(** What follows the last ["::"] of [c ++ "::" ++ t], when [t] has no
    colon. *)
Lemma rsplit1_last_str_app (c t : string) :
  occurs ":"%char t = false ->
  rsplit1_last_str "::" (c ++ "::" ++ t) = t.
Proof.
  intros Ht. induction c as [|a c IH].
  - change ("" ++ "::" ++ t) with (String ":"%char (String ":"%char t)).
    cbn [rsplit1_last_str].
    assert (C : contains "::" (String ":"%char t) = false).
    { cbn [contains]. rewrite (contains_colons_none t Ht), orb_false_r.
      change "::" with (String ":"%char ":").
      rewrite prefix_cons, Ascii.eqb_refl. cbn [andb].
      destruct t as [|b t]; [reflexivity|].
      rewrite occurs_cons in Ht. apply orb_false_iff in Ht. destruct Ht as [Hb _].
      now rewrite prefix_cons, Hb. }
    rewrite C.
    change "::" with (String ":"%char (String ":"%char "")).
    rewrite !prefix_cons, !Ascii.eqb_refl, prefix_nil. reflexivity.
  - change (String a c ++ "::" ++ t) with (String a (c ++ "::" ++ t)).
    cbn [rsplit1_last_str]. rewrite (contains_app "::" c t). exact IH.
Qed.

(** *** The properties *)

Lemma dist_name_no (c : ascii) (d : Dist) :
  is_feature_package d = false ->
  Ascii.eqb c "-"%char = false ->
  occurs c (name d) = false -> occurs c (version d) = false ->
  occurs c (build d) = false ->
  occurs c (dist_name d) = false.
Proof.
  intros F C Hn Hv Hb. unfold dist_name. rewrite F.
  change (name d ++ "-" ++ version d ++ "-" ++ build d)
    with (name d ++ String "-"%char (version d ++ String "-"%char (build d))).
  rewrite occurs_app, occurs_cons, occurs_app, occurs_cons.
  now rewrite Hn, Hv, Hb, C.
Qed.

(** [quad] gives back the name, version and build string of a [Dist] that
    is not a feature package, when the version and the build string have
    no dash; the name may have some. *)
Theorem quad_fields (d : Dist) :
  is_feature_package d = false ->
  occurs "-"%char (version d) = false ->
  occurs "-"%char (build_string d) = false ->
  quad d = (name d, version d, build_string d, channel_or_defaults d).
Proof.
  intros F Hv Hb. unfold quad, dist_name. rewrite F.
  unfold build. now rewrite (rsplit_name_version_build _ _ _ Hv Hb).
Qed.

Lemma quad_fields_witness :
  quad dist_a_b = ("a-b", "1", "0", "defaults").
Proof.
  apply (quad_fields dist_a_b); reflexivity.
Defined.

(** What [rsplit1_last] returns is made of characters of the string. *)
Lemma forallb_rsplit1_last (P : ascii -> bool) (c : ascii) (s : string) :
  forallb P (list_ascii_of_string s) = true ->
  forallb P (list_ascii_of_string (rsplit1_last c s)) = true.
Proof.
  induction s as [|a s IH]; intros H; [reflexivity|].
  cbn [list_ascii_of_string forallb] in H. apply andb_true_iff in H.
  destruct H as [Ha Hs]. cbn [rsplit1_last].
  destruct (occurs c s); [now apply IH|].
  destruct (Ascii.eqb a c); [exact Hs|].
  cbn [list_ascii_of_string forallb]. now rewrite Ha, Hs.
Qed.

Lemma isdigit_ascii_decimal (a : ascii) :
  Nat.ltb (nat_of_ascii a) 128 = true -> isdigit a = true -> isdecimal a = true.
Proof.
  unfold isdigit. intros L H. apply Nat.ltb_lt in L.
  destruct (isdecimal a); [reflexivity|]. cbn [orb] in H.
  apply orb_true_iff in H. destruct H as [H|H];
    [apply orb_true_iff in H; destruct H as [H|H]|];
    apply Nat.eqb_eq in H; lia.
Qed.

(** The digits of ASCII text are decimal, so that [int] reads them. *)
Lemma build_number_of_ascii (build_string : string) :
  isascii build_string = true ->
  exists build_number, build_number_of build_string = Some build_number.
Proof.
  intros A. unfold build_number_of.
  set (tail := if truthy build_string then rsplit1_last "_"%char build_string else "0").
  assert (T : isascii tail = true).
  { subst tail. destruct (truthy build_string); [|reflexivity].
    unfold isascii. now apply forallb_rsplit1_last. }
  destruct (truthy (filter_str isdigit tail)); [|now exists 0%Z].
  unfold int_of_digits, filter_str. rewrite list_ascii_of_string_of_list_ascii.
  assert (D : forallb isdecimal (filter isdigit (list_ascii_of_string tail)) = true).
  { apply forallb_forall. intros a I. apply filter_In in I. destruct I as [I G].
    apply isdigit_ascii_decimal; [|exact G].
    unfold isascii in T. rewrite forallb_forall in T. now apply T. }
  rewrite D. eauto.
Qed.



(** *** Names without a dash *)

Lemma occurs_substring (c : ascii) (s : string) :
  occurs c s = false -> forall n m, occurs c (substring n m s) = false.
Proof.
  induction s as [|a s IH]; intros H n m.
  - destruct n, m; reflexivity.
  - rewrite occurs_cons in H. apply orb_false_iff in H. destruct H as [Ha Hs].
    destruct n as [|n].
    + destruct m as [|m]; [reflexivity|].
      change (substring 0 (S m) (String a s)) with (String a (substring 0 m s)).
      now rewrite occurs_cons, Ha, IH.
    + change (substring (S n) m (String a s)) with (substring n m s). now apply IH.
Qed.

Lemma occurs_rsplit1_last (c c' : ascii) (s : string) :
  occurs c s = false -> occurs c (rsplit1_last c' s) = false.
Proof.
  induction s as [|a s IH]; intros H; [reflexivity|].
  pose proof H as H'. rewrite occurs_cons in H'. apply orb_false_iff in H'.
  destruct H' as [Ha Hs]. cbn [rsplit1_last].
  destruct (occurs c' s); [now apply IH|].
  destruct (Ascii.eqb a c'); assumption.
Qed.

Lemma occurs_skip (c : ascii) (n : nat) :
  forall s, occurs c s = false -> occurs c (skip n s) = false.
Proof.
  induction n as [|n IH]; intros s H; [exact H|].
  destruct s as [|a s]; [reflexivity|].
  rewrite occurs_cons in H. apply orb_false_iff in H. destruct H as [_ Hs].
  now apply IH.
Qed.

Lemma occurs_rsplit1_last_str (c : ascii) (sep s : string) :
  occurs c s = false -> occurs c (rsplit1_last_str sep s) = false.
Proof.
  induction s as [|a s IH]; intros H; [reflexivity|].
  pose proof H as H'. rewrite occurs_cons in H'. apply orb_false_iff in H'.
  destruct H' as [Ha Hs]. cbn [rsplit1_last_str].
  destruct (contains sep s); [now apply IH|].
  destruct (String.prefix sep (String a s)); [now apply occurs_skip | exact H].
Qed.

(** A name without a single dash has no version part: [parse_dist_name]
    raises [CondaError], with the name in the message. *)
Theorem parse_dist_name_without_dash (string : string) :
  occurs "-"%char string = false ->
  parse_dist_name string =
  Raise (CondaError ("dist_name is not a valid conda package: " ++ string)).
Proof.
  intros H. unfold parse_dist_name.
  set (no_tar := if endswith string CONDA_TARBALL_EXTENSION
                 then strip_last (String.length CONDA_TARBALL_EXTENSION) string
                 else string).
  assert (Hn : occurs "-"%char no_tar = false).
  { subst no_tar. destruct (endswith string CONDA_TARBALL_EXTENSION); [|exact H].
    unfold strip_last. now apply occurs_substring. }
  set (dist := if contains "::" no_tar then rsplit1_last_str "::" no_tar
               else rsplit1_last "/"%char no_tar).
  assert (Hd : occurs "-"%char dist = false).
  { subst dist. destruct (contains "::" no_tar);
      [now apply occurs_rsplit1_last_str | now apply occurs_rsplit1_last]. }
  cbn [rsplit_char]. now rewrite Hd.
Qed.

Lemma parse_dist_name_without_dash_witness :
  parse_dist_name "defaults::six.tar.bz2" =
  Raise (CondaError "dist_name is not a valid conda package: defaults::six.tar.bz2").
Proof.
  apply (parse_dist_name_without_dash "defaults::six.tar.bz2"). reflexivity.
Defined.

(** *** Membership *)

Lemma contains_dist_name (d : Dist) : contains (dist_name d) (__str__ d) = true.
Proof.
  unfold __str__.
  assert (A : forall a b, contains (dist_name d) (a ++ dist_name d ++ b) = true)
    by (intros; apply contains_app).
  assert (B : forall a w, contains (dist_name d) ((a ++ dist_name d) ++ "[" ++ w ++ "]") = true).
  { intros a w. rewrite append_assoc. apply A. }
  pose proof (A "" "") as A0. cbn [append] in A0. rewrite append_nil_r in A0.
  pose proof (fun c => A (c ++ "::") "") as A1.
  assert (A1' : forall c, contains (dist_name d) (c ++ "::" ++ dist_name d) = true).
  { intros c. specialize (A1 c). rewrite append_nil_r, append_assoc in A1. exact A1. }
  assert (B0 : forall w, contains (dist_name d) (dist_name d ++ "[" ++ w ++ "]") = true).
  { intros w. exact (A "" ("[" ++ w ++ "]")). }
  assert (B1 : forall c w,
             contains (dist_name d) ((c ++ "::" ++ dist_name d) ++ "[" ++ w ++ "]") = true).
  { intros c w. specialize (B (c ++ "::") w). rewrite (append_assoc c "::") in B. exact B. }
  destruct (channel d) as [c|]; [destruct (truthy c)|];
    (destruct (with_features_depends d) as [w|]; [destruct (truthy w)|]); auto.
Qed.

(** Whatever is found in the text of a [Dist] is in the [Dist], with or
    without the tarball extension taken off. *)
Lemma contains_after_strip (d : Dist) (item : string) :
  contains item (__str__ d) = true -> __contains__ d item = true.
Proof.
  intros H. unfold __contains__.
  destruct (endswith item CONDA_TARBALL_EXTENSION); [|exact H].
  unfold strip_last. now apply contains_substring.
Qed.

(** Every [Dist] contains its own dist name and its own file name. *)
Theorem dist_contains_own_names :
  (forall d, __contains__ d (dist_name d) = true) /\
  (forall d, __contains__ d (to_filename d) = true).
Proof.
  split; [intros d; apply contains_after_strip, contains_dist_name|].
  intros d. unfold to_filename.
  destruct (is_feature_package d); [apply contains_after_strip, contains_dist_name|].
  unfold __contains__. rewrite endswith_app, strip_last_app.
  apply contains_dist_name.
Qed.

End DistNamesFacts.

(** ** Queries across the caches *)

Module CacheQueryFacts.
Import PyStr Py Cache CacheFacts.

Lemma filter_head_find {A : Type} (f : A -> bool) (l : list A) :
  match filter f l with
  | [] => List.find f l = None
  | x :: _ => List.find f l = Some x
  end.
Proof.
  induction l as [|a l IH]; [reflexivity|].
  simpl. destruct (f a); [reflexivity | exact IH].
Qed.

Lemma find_app {A : Type} (f : A -> bool) (l1 l2 : list A) :
  List.find f (l1 ++ l2) =
  match List.find f l1 with
  | Some x => Some x
  | None => List.find f l2
  end.
Proof.
  induction l1 as [|a l1 IH]; [reflexivity|].
  simpl. destruct (f a); [reflexivity | exact IH].
Qed.

Lemma filter_partition_Permutation {A : Type} (f : A -> bool) (l : list A) :
  Permutation l (filter f l ++ filter (fun x => negb (f x)) l).
Proof.
  induction l as [|a l IH]; [constructor|].
  simpl. destruct (f a); simpl.
  - now constructor.
  - apply Permutation_cons_app. exact IH.
Qed.

Section Queries.
Variable pref_eq : PackageRef -> PackageRef -> bool.
Variable pkgs_dirs : list PackageCache.

Abbreviation no_writable :=
  (CondaError "No writable package cache directories found").

Lemma writable_caches_Ok (ws : list PackageCache) :
  writable_caches pkgs_dirs = Ok ws ->
  ws = filter is_writable pkgs_dirs /\ ws <> [].
Proof.
  unfold writable_caches. destruct (filter is_writable pkgs_dirs) as [|w l];
    [discriminate|].
  intros H. injection H as <-. split; [reflexivity | discriminate].
Qed.

Lemma writable_caches_of_writable (c : PackageCache) :
  In c pkgs_dirs -> is_writable c = true ->
  writable_caches pkgs_dirs = Ok (filter is_writable pkgs_dirs).
Proof.
  intros I W. unfold writable_caches.
  assert (F : In c (filter is_writable pkgs_dirs)) by (apply filter_In; auto).
  destruct (filter is_writable pkgs_dirs); [destruct F | reflexivity].
Qed.

(** The caches split into the writable and the read-only ones, each cache
    on one side only and in the order of [pkgs_dirs]; [writable_caches]
    raises exactly when no cache is writable, and [first_writable] is the
    first writable cache of [pkgs_dirs]. *)
Theorem caches_split_by_writability :
  Permutation pkgs_dirs
    (filter is_writable pkgs_dirs ++ read_only_caches pkgs_dirs) /\
  (forall c, In c (read_only_caches pkgs_dirs) <->
             In c pkgs_dirs /\ is_writable c = false) /\
  writable_caches pkgs_dirs =
    (if existsb is_writable pkgs_dirs
     then Ok (filter is_writable pkgs_dirs)
     else Raise no_writable) /\
  first_writable pkgs_dirs =
    match List.find is_writable pkgs_dirs with
    | Some c => Ok c
    | None => Raise no_writable
    end.
Proof.
  split; [apply filter_partition_Permutation|].
  split.
  { intros c. unfold read_only_caches. rewrite filter_In.
    now rewrite negb_true_iff. }
  assert (W : writable_caches pkgs_dirs =
              if existsb is_writable pkgs_dirs
              then Ok (filter is_writable pkgs_dirs) else Raise no_writable).
  { unfold writable_caches.
    destruct (existsb is_writable pkgs_dirs) eqn:E.
    - apply existsb_exists in E. destruct E as [c [I Wc]].
      assert (F : In c (filter is_writable pkgs_dirs)) by (apply filter_In; auto).
      destruct (filter is_writable pkgs_dirs); [destruct F | reflexivity].
    - destruct (filter is_writable pkgs_dirs) as [|w l] eqn:F; [reflexivity|].
      assert (I : In w (filter is_writable pkgs_dirs)) by (rewrite F; now left).
      apply filter_In in I. destruct I as [I Ww].
      assert (X : existsb is_writable pkgs_dirs = true)
        by (apply existsb_exists; eauto).
      congruence. }
  split; [exact W|].
  unfold first_writable, writable_caches.
  pose proof (filter_head_find is_writable pkgs_dirs) as H.
  destruct (filter is_writable pkgs_dirs) as [|w l]; rewrite H; reflexivity.
Qed.

Lemma query_all_Ok (param : PackageRef) (w : PackageCache) :
  In w pkgs_dirs -> is_writable w = true ->
  query_all pref_eq pkgs_dirs param =
  Ok (List.concat (map (fun c => query pref_eq c param)
                       (filter is_writable pkgs_dirs)) ++
      List.concat (map (fun c => query pref_eq c param)
                       (read_only_caches pkgs_dirs)))%list.
Proof.
  intros I W. unfold query_all. rewrite (writable_caches_of_writable w I W).
  simpl bind. now rewrite map_app, concat_app.
Qed.

Lemma In_queries (param : PackageRef) (caches : list PackageCache)
    (pcrec : PackageCacheRecord) :
  In pcrec (List.concat (map (fun c => query pref_eq c param) caches)) <->
  exists c, In c caches /\ In pcrec (_package_cache_records c) /\
            pref_eq (pcrec_ref pcrec) param = true.
Proof.
  rewrite in_concat. split.
  - intros [l [Hl Hp]]. apply in_map_iff in Hl. destruct Hl as [c [<- Hc]].
    apply In_query in Hp. exists c. tauto.
  - intros [c [Ic [Ir E]]]. exists (query pref_eq c param). split.
    + apply in_map_iff. now exists c.
    + apply In_query. auto.
Qed.

(** With a writable cache around, [query_all] returns exactly the records,
    of any cache, that equal the reference, those of the writable caches
    first. *)
Theorem query_all_records (param : PackageRef) (w : PackageCache) :
  In w pkgs_dirs -> is_writable w = true ->
  exists found,
    query_all pref_eq pkgs_dirs param = Ok found /\
    found =
      (List.concat (map (fun c => query pref_eq c param)
                        (filter is_writable pkgs_dirs)) ++
       List.concat (map (fun c => query pref_eq c param)
                        (read_only_caches pkgs_dirs)))%list /\
    (forall pcrec,
        In pcrec found <->
        exists c, In c pkgs_dirs /\ In pcrec (_package_cache_records c) /\
                  pref_eq (pcrec_ref pcrec) param = true).
Proof.
  intros I W. eexists. split; [exact (query_all_Ok param w I W)|].
  split; [reflexivity|].
  intros pcrec. rewrite in_app_iff, !In_queries. split.
  - intros [[c [Hc H]] | [c [Hc H]]]; exists c; apply filter_In in Hc; tauto.
  - intros [c [Ic H]]. destruct (is_writable c) eqn:Wc.
    + left. exists c. split; [apply filter_In; auto | exact H].
    + right. exists c. split; [apply filter_In; rewrite Wc; auto | exact H].
Qed.

(** With a writable cache around, [get_entry_to_link] finds an extracted
    record equal to the reference whenever some cache holds one, and takes
    it from a writable cache whenever a writable cache holds one. *)
Theorem get_entry_to_link_extracted (dist_str : PackageRef -> string)
    (package_ref : PackageRef) (w c : PackageCache) (pcrec : PackageCacheRecord) :
  In w pkgs_dirs -> is_writable w = true ->
  In c pkgs_dirs ->
  In pcrec (_package_cache_records c) ->
  pref_eq (pcrec_ref pcrec) package_ref = true ->
  is_extracted pcrec = true ->
  exists pc_entry,
    get_entry_to_link pref_eq dist_str pkgs_dirs package_ref = Ok pc_entry /\
    is_extracted pc_entry = true /\
    pref_eq (pcrec_ref pc_entry) package_ref = true /\
    (exists c', In c' pkgs_dirs /\ In pc_entry (_package_cache_records c') /\
                (is_writable c = true -> is_writable c' = true)).
Proof.
  intros Iw Ww Ic Ir E X.
  unfold get_entry_to_link. rewrite (query_all_Ok package_ref w Iw Ww). simpl bind.
  rewrite find_app.
  destruct (List.find is_extracted
              (List.concat (map (fun c0 => query pref_eq c0 package_ref)
                                (filter is_writable pkgs_dirs)))) as [r|] eqn:F.
  - apply find_some in F. destruct F as [Hr Xr].
    apply In_queries in Hr. destruct Hr as [c' [Hc' [Hr Er]]].
    apply filter_In in Hc'. destruct Hc' as [Hc' Wc'].
    exists r. repeat split; auto. exists c'. auto.
  - destruct (is_writable c) eqn:Wc.
    + exfalso.
      assert (I : In pcrec (List.concat (map (fun c0 => query pref_eq c0 package_ref)
                                             (filter is_writable pkgs_dirs)))).
      { apply In_queries. exists c. split; [apply filter_In; auto | auto]. }
      pose proof (find_none _ _ F pcrec I). congruence.
    + assert (I : In pcrec (List.concat (map (fun c0 => query pref_eq c0 package_ref)
                                             (read_only_caches pkgs_dirs)))).
      { apply In_queries. exists c. split; [|auto].
        apply filter_In. rewrite Wc. auto. }
      destruct (find_some_of_exists is_extracted _ pcrec I X) as [r F'].
      rewrite F'. apply find_some in F'. destruct F' as [Hr Xr].
      apply In_queries in Hr. destruct Hr as [c' [Hc' [Hr Er]]].
      apply filter_In in Hc'. destruct Hc' as [Hc' _].
      exists r. repeat split; auto. exists c'. repeat split; auto. discriminate.
Qed.

End Queries.

Lemma query_all_records_witness :
  exists found,
    query_all pref_eq_spec two_roots ref_x_defaults = Ok found /\
    found =
      (List.concat (map (fun c => query pref_eq_spec c ref_x_defaults)
                        (filter is_writable two_roots)) ++
       List.concat (map (fun c => query pref_eq_spec c ref_x_defaults)
                        (read_only_caches two_roots)))%list /\
    (forall pcrec,
        In pcrec found <->
        exists c, In c two_roots /\ In pcrec (_package_cache_records c) /\
                  pref_eq_spec (pcrec_ref pcrec) ref_x_defaults = true).
Proof.
  apply (query_all_records pref_eq_spec two_roots ref_x_defaults cache_rw_empty).
  - simpl. left. reflexivity.
  - reflexivity.
Defined.

Lemma get_entry_to_link_extracted_witness :
  exists pc_entry,
    get_entry_to_link pref_eq_spec dist_str_spec two_roots ref_x_defaults = Ok pc_entry /\
    is_extracted pc_entry = true /\
    pref_eq_spec (pcrec_ref pc_entry) ref_x_defaults = true /\
    (exists c', In c' two_roots /\ In pc_entry (_package_cache_records c') /\
                (is_writable cache_ro_x = true -> is_writable c' = true)).
Proof.
  apply (get_entry_to_link_extracted pref_eq_spec two_roots dist_str_spec
           ref_x_defaults cache_rw_empty cache_ro_x pcrec_x).
  - simpl. left. reflexivity.
  - reflexivity.
  - simpl. right. left. reflexivity.
  - simpl. left. reflexivity.
  - reflexivity.
  - reflexivity.
Defined.

End CacheQueryFacts.

(** ** The plans of the planner *)

Module PlannerFacts.
Import PyStr Py Cache CacheFacts CacheQueryFacts CacheScenarios.

Section Planner.
Variable pref_eq : PackageRef -> PackageRef -> bool.
Variable pkgs_dirs : list PackageCache.
Variable Channel : string -> Urls.ChannelInfo.
Variable path_to_url : string -> string.
Variable target_full_path : CacheUrlAction -> string.

Abbreviation plan_for :=
  (make_actions_for_record pref_eq pkgs_dirs Channel path_to_url target_full_path).
Abbreviation queries caches pref :=
  (List.concat (map (fun c => query pref_eq c pref) caches)).

Lemma first_writable_find :
  first_writable pkgs_dirs =
  match List.find is_writable pkgs_dirs with
  | Some c => Ok c
  | None => Raise (CondaError "No writable package cache directories found")
  end.
Proof.
  unfold first_writable, writable_caches.
  pose proof (filter_head_find is_writable pkgs_dirs) as H.
  destruct (filter is_writable pkgs_dirs) as [|w l]; rewrite H; reflexivity.
Qed.

Lemma writable_caches_find (fw : PackageCache) :
  List.find is_writable pkgs_dirs = Some fw ->
  writable_caches pkgs_dirs = Ok (filter is_writable pkgs_dirs).
Proof.
  intros F. apply find_some in F. destruct F as [I W].
  unfold writable_caches.
  assert (X : In fw (filter is_writable pkgs_dirs)) by (apply filter_In; auto).
  destruct (filter is_writable pkgs_dirs); [destruct X | reflexivity].
Qed.

(** Every plan is one of three: nothing to do, because the reference has an
    md5 value and some cache holds an extracted record equal to it; an
    extraction in place of a tarball that a writable cache holds, into the
    directory of that tarball; or a fetch into the first writable cache
    followed by the extraction of what was fetched, when no writable cache
    holds the tarball.  A fetch is never planned without its extraction. *)
Theorem planner_plans (pref : PackageRef)
    (cache_axn : option CacheUrlAction) (extract_axn : option ExtractPackageAction) :
  plan_for pref = Ok (cache_axn, extract_axn) ->
  match cache_axn, extract_axn with
  | None, None =>
      truthy_opt (ref_md5 pref) <> None /\
      exists pcrec, In pcrec (queries pkgs_dirs pref) /\ is_extracted pcrec = true
  | None, Some e =>
      exists pcrec,
        In pcrec (queries (filter is_writable pkgs_dirs) pref) /\
        is_fetched pcrec = true /\
        source_full_path e = package_tarball_full_path pcrec /\
        epa_target_pkgs_dir e = dirname (package_tarball_full_path pcrec) /\
        target_extracted_dirname e = basename (extracted_package_dir pcrec)
  | Some c, Some e =>
      exists fw,
        List.find is_writable pkgs_dirs = Some fw /\
        cua_target_pkgs_dir c = pkgs_dir fw /\
        epa_target_pkgs_dir e = pkgs_dir fw /\
        source_full_path e = target_full_path c /\
        cua_md5sum c = ref_md5 pref /\
        List.find is_fetched (queries (filter is_writable pkgs_dirs) pref) = None
  | Some _, None => False
  end.
Proof.
  unfold make_actions_for_record. rewrite first_writable_find.
  destruct (match truthy_opt (ref_md5 pref) with
            | Some _ => List.find is_extracted (queries pkgs_dirs pref)
            | None => None
            end) as [x|] eqn:R0.
  - intros H. injection H as <- <-.
    destruct (truthy_opt (ref_md5 pref)); [|discriminate].
    split; [discriminate|]. apply find_some in R0. exists x. exact R0.
  - destruct (List.find is_writable pkgs_dirs) as [fw|] eqn:FW; [|discriminate].
    simpl bind. rewrite (writable_caches_find fw FW). simpl bind.
    destruct (List.find is_fetched (queries (filter is_writable pkgs_dirs) pref))
      as [pcrec|] eqn:R1.
    + intros H. injection H as <- <-. apply find_some in R1.
      exists pcrec. simpl. tauto.
    + destruct (List.find is_fetched (queries (read_only_caches pkgs_dirs) pref))
        as [pcrec|] eqn:R2.
      * intros H. injection H as <- <-. exists fw. simpl. tauto.
      * destruct (truthy_opt (ref_url pref)) as [u|]; [|discriminate].
        destruct (Urls.subdir_truthy (Channel u));
          intros H; injection H as <- <-; exists fw; simpl; tauto.
Qed.

(** The planner raises in two cases only: [CondaError] when no cache is
    writable, and the failed assertion when no cache holds the tarball and
    the reference has no URL; in both the reference has no md5 value or no
    cache holds an extracted record equal to it. *)
Theorem planner_errors (pref : PackageRef) (e : Exn) :
  plan_for pref = Raise e ->
  (truthy_opt (ref_md5 pref) = None \/
   List.find is_extracted (queries pkgs_dirs pref) = None) /\
  ((e = CondaError "No writable package cache directories found" /\
    existsb is_writable pkgs_dirs = false) \/
   (e = AssertionError /\
    truthy_opt (ref_url pref) = None /\
    existsb is_writable pkgs_dirs = true /\
    List.find is_fetched (queries (filter is_writable pkgs_dirs) pref) = None /\
    List.find is_fetched (queries (read_only_caches pkgs_dirs) pref) = None)).
Proof.
  unfold make_actions_for_record. rewrite first_writable_find.
  destruct (match truthy_opt (ref_md5 pref) with
            | Some _ => List.find is_extracted (queries pkgs_dirs pref)
            | None => None
            end) as [x|] eqn:R0; [discriminate|].
  intros H. split.
  { destruct (truthy_opt (ref_md5 pref)); [now right | now left]. }
  destruct (List.find is_writable pkgs_dirs) as [fw|] eqn:FW.
  - right. simpl bind in H. rewrite (writable_caches_find fw FW) in H. simpl bind in H.
    assert (X : existsb is_writable pkgs_dirs = true).
    { apply find_some in FW. apply existsb_exists. exists fw. exact FW. }
    destruct (List.find is_fetched (queries (filter is_writable pkgs_dirs) pref));
      [discriminate|].
    destruct (List.find is_fetched (queries (read_only_caches pkgs_dirs) pref));
      [discriminate|].
    destruct (truthy_opt (ref_url pref)) as [u|].
    + destruct (Urls.subdir_truthy (Channel u)); discriminate.
    + injection H as <-. auto.
  - left. simpl bind in H. injection H as <-. split; [reflexivity|].
    destruct (existsb is_writable pkgs_dirs) eqn:X; [|reflexivity].
    apply existsb_exists in X. destruct X as [c [I W]].
    pose proof (find_none _ _ FW c I). congruence.
Qed.

(** A reference without an md5 value is never left alone: whatever the
    caches hold, the planner plans an extraction for it or raises. *)
Theorem planner_without_md5 (pref : PackageRef) :
  truthy_opt (ref_md5 pref) = None ->
  match plan_for pref with
  | Ok (_, Some _) => True
  | Ok (_, None) => False
  | Raise _ => True
  end.
Proof.
  intros M. unfold make_actions_for_record. rewrite M, first_writable_find.
  destruct (List.find is_writable pkgs_dirs) as [fw|] eqn:FW; [|exact I].
  simpl bind. rewrite (writable_caches_find fw FW). simpl bind.
  destruct (List.find is_fetched (queries (filter is_writable pkgs_dirs) pref));
    [exact I|].
  destruct (List.find is_fetched (queries (read_only_caches pkgs_dirs) pref));
    [exact I|].
  destruct (truthy_opt (ref_url pref)) as [u|]; [|exact I].
  destruct (Urls.subdir_truthy (Channel u)); exact I.
Qed.

End Planner.

(** Scenario S4 without an md5 value: the tarball of [x-1-0] is in the
    read-only root, so it is fetched into the writable one. *)
Lemma planner_plans_witness :
  exists c e,
    make_actions_for_record pref_eq_spec two_roots Urls.Channel_S5 file_url
      target_path ref_x_no_md5 = Ok (Some c, Some e) /\
    exists fw,
      List.find is_writable two_roots = Some fw /\
      cua_target_pkgs_dir c = pkgs_dir fw /\
      epa_target_pkgs_dir e = pkgs_dir fw /\
      source_full_path e = target_path c /\
      cua_md5sum c = ref_md5 ref_x_no_md5 /\
      List.find is_fetched
        (List.concat (map (fun c0 => query pref_eq_spec c0 ref_x_no_md5)
                          (filter is_writable two_roots))) = None.
Proof.
  eexists. eexists. split; [vm_compute; reflexivity|].
  apply (planner_plans pref_eq_spec two_roots Urls.Channel_S5 file_url target_path
           ref_x_no_md5 (Some _) (Some _)).
  vm_compute. reflexivity.
Defined.

Lemma planner_errors_witness :
  (truthy_opt (ref_md5 ref_z_no_url) = None \/
   List.find is_extracted
     (List.concat (map (fun c => query pref_eq_spec c ref_z_no_url) two_roots)) = None) /\
  ((AssertionError = CondaError "No writable package cache directories found" /\
    existsb is_writable two_roots = false) \/
   (AssertionError = AssertionError /\
    truthy_opt (ref_url ref_z_no_url) = None /\
    existsb is_writable two_roots = true /\
    List.find is_fetched
      (List.concat (map (fun c => query pref_eq_spec c ref_z_no_url)
                        (filter is_writable two_roots))) = None /\
    List.find is_fetched
      (List.concat (map (fun c => query pref_eq_spec c ref_z_no_url)
                        (read_only_caches two_roots))) = None)).
Proof.
  apply (planner_errors pref_eq_spec two_roots Urls.Channel_S5 file_url target_path
           ref_z_no_url AssertionError).
  vm_compute. reflexivity.
Defined.

Lemma planner_without_md5_witness :
  match make_actions_for_record pref_eq_spec read_only_root Urls.Channel_S5 file_url
          target_path ref_x_no_md5 with
  | Ok (_, Some _) => True
  | Ok (_, None) => False
  | Raise _ => True
  end.
Proof.
  apply (planner_without_md5 pref_eq_spec read_only_root Urls.Channel_S5 file_url
           target_path ref_x_no_md5).
  reflexivity.
Defined.

End PlannerFacts.

(** ** The executor: preparing, dry runs and quiet runs *)

Module ExecutorRunsFacts.
Import PyStr Py Cache Executor ExecutorFacts ExecutorRuns.

Section Run.
Variable World : Type.
Variable perform : Phase -> Action -> World -> World * option Exn.
Variable planner : PackageRef -> World -> World * result Plan.
Variable pref_eq : PackageRef -> PackageRef -> bool.
Variable context : Context.

Abbreviation St := (State World).
Abbreviation prepare_from' := (prepare_from World planner pref_eq).
Abbreviation prepare' := (prepare World planner pref_eq).
Abbreviation execute' := (execute World perform planner pref_eq context).
Abbreviation odict_set' := (odict_set pref_eq).
Abbreviation run_calls' := (run_calls World perform).
Abbreviation run_actions' := (run_actions World perform context).
Abbreviation _execute_actions' := (_execute_actions World perform context).
Abbreviation for_items' := (for_items World perform context).

Abbreviation distinct_keys := (ExecutorRuns.distinct_keys pref_eq).
Abbreviation plan_all' := (plan_all World planner).
Abbreviation odict_update' := (odict_update pref_eq).

(** *** The ordered dictionary *)

Lemma keys_odict_set (k : PackageRef) (v : Plan) (d : list (PackageRef * Plan)) :
  keys (odict_set' k v d) =
  (keys d ++ if existsb (pref_eq k) (keys d) then [] else [k])%list.
Proof.
  induction d as [|[k' v'] d IH]; [reflexivity|].
  cbn [odict_set keys map fst existsb]. destruct (pref_eq k k') eqn:E.
  - cbn [orb map fst]. now rewrite app_nil_r.
  - cbn [orb map fst app]. f_equal. exact IH.
Qed.

Lemma key_after_odict_set (k : PackageRef) (v : Plan) (d : list (PackageRef * Plan)) :
  exists k', In k' (keys (odict_set' k v d)) /\ (k' = k \/ pref_eq k k' = true).
Proof.
  rewrite keys_odict_set. destruct (existsb (pref_eq k) (keys d)) eqn:E.
  - apply existsb_exists in E. destruct E as [k' [I H]].
    exists k'. split; [apply in_or_app; now left | now right].
  - exists k. split; [apply in_or_app; right; now left | now left].
Qed.

Lemma ForallOrdPairs_snoc {A : Type} (R : A -> A -> Prop) (l : list A) (x : A) :
  ForallOrdPairs R l -> Forall (fun y => R y x) l -> ForallOrdPairs R (l ++ [x]).
Proof.
  induction 1 as [|a l Ha Hl IH]; intros F; simpl.
  - constructor; constructor.
  - inversion F as [|? ? Hax F']; subst. constructor.
    + apply Forall_app. split; [exact Ha | constructor; [exact Hax | constructor]].
    + now apply IH.
Qed.

Lemma distinct_keys_odict_set (k : PackageRef) (v : Plan) (d : list (PackageRef * Plan)) :
  distinct_keys d -> distinct_keys (odict_set' k v d).
Proof.
  unfold distinct_keys. intros D. rewrite keys_odict_set.
  destruct (existsb (pref_eq k) (keys d)) eqn:E; [now rewrite app_nil_r|].
  apply ForallOrdPairs_snoc; [exact D|].
  apply Forall_forall. intros y Hy.
  destruct (pref_eq k y) eqn:Ey; [|reflexivity].
  assert (X : existsb (pref_eq k) (keys d) = true) by (apply existsb_exists; eauto).
  congruence.
Qed.

(** *** [prepare] *)

(** What planning a list of references does to the object: nothing is
    logged, keys are only added, at the end and never twice, and on
    success each reference has its entry. *)
Lemma prepare_from_outcome (precs : list PackageRef) :
  forall st : St,
    let '(st', r) := prepare_from' precs st in
    log World st' = log World st /\
    link_precs (self World st') = link_precs (self World st) /\
    _prepared (self World st') = _prepared (self World st) /\
    (exists added,
        keys (paired_actions (self World st'))
        = (keys (paired_actions (self World st)) ++ added)%list) /\
    (distinct_keys (paired_actions (self World st)) ->
     distinct_keys (paired_actions (self World st'))) /\
    (r = Ok tt ->
     forall prec, In prec precs ->
       exists k, In k (keys (paired_actions (self World st'))) /\
                 (k = prec \/ pref_eq prec k = true)).
Proof.
  induction precs as [|prec precs IH]; intros st.
  - cbn. repeat split; auto. exists []. now rewrite app_nil_r.
    intros _ prec [].
  - cbn [prepare_from]. unfold mbind at 1.
    destruct (planner prec (world World st)) as [w [plan|e]] eqn:P.
    + unfold mbind, get_self, set_self. cbn [self log world].
      set (st1 := mkState World w (log World st)
                    (mkPFE (link_precs (self World st))
                           (odict_set' prec plan (paired_actions (self World st)))
                           (_prepared (self World st)))).
      specialize (IH st1).
      destruct (prepare_from' precs st1) as [st' r].
      destruct IH as [L [LP [PR [[added K] [D H]]]]].
      subst st1. cbn [self log link_precs _prepared paired_actions] in *.
      split; [exact L|]. split; [exact LP|]. split; [exact PR|].
      split.
      { rewrite K, keys_odict_set, <- app_assoc. eexists. reflexivity. }
      split.
      { intros D0. apply D. now apply distinct_keys_odict_set. }
      intros R p [<- | Ip]; [|now apply H].
      destruct (key_after_odict_set prec plan (paired_actions (self World st)))
        as [k [Ik Hk]].
      exists k. split; [|exact Hk]. rewrite K. apply in_or_app. now left.
    + cbn [self log]. repeat split; auto.
      * exists []. now rewrite app_nil_r.
      * discriminate.
Qed.

(** A key that equals none of the dictionary goes to its end. *)
Lemma odict_set_fresh (k : PackageRef) (v : Plan) (d : list (PackageRef * Plan)) :
  Forall (fun k' => pref_eq k k' = false) (keys d) ->
  odict_set' k v d = (d ++ [(k, v)])%list.
Proof.
  induction d as [|[k' v'] d IH]; intros F; [reflexivity|].
  cbn [keys map fst] in F. inversion F as [|? ? Hk F']; subst.
  cbn [odict_set app]. rewrite Hk. f_equal. now apply IH.
Qed.

Lemma ForallOrdPairs_before {A : Type} (R : A -> A -> Prop) (l1 l2 : list A) (x : A) :
  ForallOrdPairs R (l1 ++ x :: l2) -> Forall (fun y => R y x) l1.
Proof.
  induction l1 as [|a l1 IH]; intros H; [constructor|].
  cbn [app] in H. inversion H as [|? ? Ha H']; subst.
  constructor; [|now apply IH].
  rewrite Forall_forall in Ha. apply Ha. apply in_or_app. right. now left.
Qed.

(** Items whose keys equal neither one another nor a key of the
    dictionary are added at its end, in order. *)
Lemma odict_update_fresh (items : list (PackageRef * Plan)) :
  forall d : list (PackageRef * Plan),
    ForallOrdPairs (fun k1 k2 => pref_eq k2 k1 = false) (keys d ++ keys items) ->
    odict_update' items d = (d ++ items)%list.
Proof.
  induction items as [|[k v] items IH]; intros d H.
  - cbn. now rewrite app_nil_r.
  - cbn [odict_update fold_left fst snd]. cbn [keys map fst] in H.
    rewrite odict_set_fresh by exact (ForallOrdPairs_before _ _ _ _ H).
    change (odict_update' items (d ++ [(k, v)]) = (d ++ (k, v) :: items)%list).
    rewrite IH.
    + now rewrite <- app_assoc.
    + unfold keys in *. rewrite map_app, <- app_assoc. exact H.
Qed.

Lemma In_firstn_In {A : Type} (x : A) (l : list A) :
  forall n, In x (firstn n l) -> In x l.
Proof.
  induction l as [|b l IH]; intros [|n] I; cbn [firstn] in I; try contradiction.
  destruct I as [<-|I]; [now left | right; eauto].
Qed.

Lemma ForallOrdPairs_firstn {A : Type} (R : A -> A -> Prop) (l : list A) :
  ForallOrdPairs R l -> forall n, ForallOrdPairs R (firstn n l).
Proof.
  induction 1 as [|a l Ha Hl IH]; intros [|n]; cbn [firstn]; try constructor.
  - apply Forall_forall. intros x I. rewrite Forall_forall in Ha. apply Ha.
    exact (In_firstn_In x l n I).
  - apply IH.
Qed.

Lemma keys_combine_firstn (precs : list PackageRef) :
  forall plans : list Plan,
    keys (combine precs plans) = firstn (List.length plans) precs.
Proof.
  induction precs as [|p precs IH]; intros [|v plans];
    cbn [combine keys map fst firstn List.length]; try reflexivity.
  f_equal. apply IH.
Qed.

(** What planning a list of references leaves: the world of the planner,
    the dictionary updated with the plans made, in order, and the
    exception of the planner if it raised. *)
Lemma prepare_from_plans (precs : list PackageRef) :
  forall st : St,
    prepare_from' precs st =
    let '(w, plans, raised) := plan_all' precs (world World st) in
    (mkState World w (log World st)
       (mkPFE (link_precs (self World st))
              (odict_update' (combine precs plans) (paired_actions (self World st)))
              (_prepared (self World st))),
     match raised with
     | None => Ok tt
     | Some e => Raise e
     end).
Proof.
  induction precs as [|prec precs IH]; intros st.
  - cbn. unfold ret. destruct st as [w l [lp pa pr]]. reflexivity.
  - cbn [prepare_from plan_all]. unfold mbind at 1.
    destruct (planner prec (world World st)) as [w [plan|e]].
    + unfold mbind, get_self, set_self. cbn [self log world].
      rewrite IH. cbn [self log world link_precs paired_actions _prepared].
      destruct (plan_all' precs w) as [[w2 plans] raised]. reflexivity.
    + cbn [combine odict_update fold_left]. destruct st as [w0 l [lp pa pr]]. reflexivity.
Qed.

(** [prepare] leaves the log as it is. *)
Lemma prepare_keeps_log (st : St) :
  log World (fst (prepare' st)) = log World st.
Proof.
  unfold prepare. unfold mbind at 1. unfold get_self at 1.
  destruct (_prepared (self World st)); [reflexivity|].
  unfold mbind at 1. rewrite prepare_from_plans.
  destruct (plan_all' (link_precs (self World st)) (world World st))
    as [[w plans] [e|]]; reflexivity.
Qed.

(** [prepare] on a batch that is not prepared yet calls the planner on the
    references of [link_precs], in order, each call on the world the one
    before left, up to the first call that raises, and stores each plan
    under its reference as it is made: [paired_actions] is updated with
    the plans made, and when it was empty and no reference equals an
    earlier one it is the list of the references planned, each with its
    plan.  Nothing is logged; keys are only added, never two equal ones;
    if the planner raises, [prepare] raises the same and the batch stays
    unprepared; otherwise it is prepared, every reference has an entry,
    and preparing again changes nothing. *)
Theorem prepare_outcome (st : St) :
  _prepared (self World st) = false ->
  let '(st', r) := prepare World planner pref_eq st in
  let '(w, plans, raised) :=
    plan_all World planner (link_precs (self World st)) (world World st) in
  world World st' = w /\
  r = match raised with None => Ok tt | Some e => Raise e end /\
  paired_actions (self World st') =
    odict_update pref_eq (combine (link_precs (self World st)) plans)
                 (paired_actions (self World st)) /\
  (paired_actions (self World st) = [] ->
   distinct_refs pref_eq (link_precs (self World st)) ->
   paired_actions (self World st') = combine (link_precs (self World st)) plans) /\
  log World st' = log World st /\
  link_precs (self World st') = link_precs (self World st) /\
  (exists added,
      keys (paired_actions (self World st'))
      = (keys (paired_actions (self World st)) ++ added)%list) /\
  (distinct_keys (paired_actions (self World st)) ->
   distinct_keys (paired_actions (self World st'))) /\
  match r with
  | Ok _ =>
      _prepared (self World st') = true /\
      (forall prec, In prec (link_precs (self World st)) ->
         exists k, In k (keys (paired_actions (self World st'))) /\
                   (k = prec \/ pref_eq prec k = true)) /\
      prepare' st' = (st', Ok tt)
  | Raise _ => _prepared (self World st') = false
  end.
Proof.
  intros U. unfold prepare. unfold mbind at 1. unfold get_self at 1. rewrite U.
  unfold mbind at 1.
  pose proof (prepare_from_outcome (link_precs (self World st)) st) as H.
  pose proof (prepare_from_plans (link_precs (self World st)) st) as Q.
  destruct (plan_all' (link_precs (self World st)) (world World st))
    as [[w plans] raised].
  assert (Fresh :
    paired_actions (self World st) = [] ->
    distinct_refs pref_eq (link_precs (self World st)) ->
    odict_update' (combine (link_precs (self World st)) plans)
                  (paired_actions (self World st))
    = combine (link_precs (self World st)) plans).
  { intros E D. rewrite E. rewrite odict_update_fresh; [reflexivity|].
    cbn [keys map app]. fold (keys (combine (link_precs (self World st)) plans)).
    rewrite keys_combine_firstn. now apply ForallOrdPairs_firstn. }
  destruct (prepare_from' (link_precs (self World st)) st) as [st1 r1].
  injection Q as -> ->.
  cbn [self log world link_precs paired_actions _prepared] in H.
  destruct raised as [e|].
  - destruct H as [L [LP [PR [K [D H]]]]].
    cbn [self log world link_precs paired_actions _prepared].
    repeat split; auto.
  - destruct H as [L [LP [PR [K [D H]]]]].
    unfold mbind, get_self, set_self.
    cbn [self log world link_precs paired_actions _prepared].
    repeat split; auto.
Qed.

(** Under [dry_run], [execute] raises and no action is verified, executed,
    reversed or cleaned up; on a prepared batch what it raises is the
    failed assertion, and nothing changes at all. *)
Theorem execute_dry_run (st : St) :
  dry_run context = true ->
  let '(st', r) := execute World perform planner pref_eq context st in
  log World st' = log World st /\
  (exists e, r = Raise e) /\
  (_prepared (self World st) = true -> st' = st /\ r = Raise AssertionError).
Proof.
  intros D. unfold execute. unfold mbind at 1. unfold get_self at 1.
  destruct (_prepared (self World st)) eqn:P; cbn [negb].
  - unfold mbind, ret, raise. rewrite D. repeat split; eauto.
  - unfold mbind at 1. pose proof (prepare_keeps_log st) as H.
    destruct (prepare' st) as [st1 [[]|e]]; cbn [fst] in H.
    + unfold mbind, raise. rewrite D.
      repeat split; eauto; discriminate.
    + repeat split; eauto; discriminate.
Qed.

(** *** Runs in which no call raises *)

Abbreviation quiet := (ExecutorRuns.quiet World perform).

Lemma run_calls_quiet (calls : list (Phase * Action * option ProgressCallback)) :
  quiet ->
  forall st : St,
  exists st' : St,
    run_calls' calls st = (st', Ok tt) /\
    self World st' = self World st /\
    log World st' = (log World st ++ map (fun cl => event_of cl None) calls)%list.
Proof.
  intros Q. induction calls as [|[[ph a] cb] calls IH]; intros st.
  - exists st. repeat split. now rewrite app_nil_r.
  - rewrite run_calls_cons. pose proof (Q ph a (world World st)) as Hq.
    destruct (perform ph a (world World st)) as [w r]. simpl in Hq. subst r.
    destruct (IH (mkState World w (log World st ++ [EvCall ph a cb None])%list
                          (self World st))) as [st' [R [S L]]].
    exists st'. split; [exact R|]. split; [exact S|].
    rewrite L. cbn [log map event_of]. now rewrite <- app_assoc.
Qed.

Lemma run_actions_quiet (prec : PackageRef) (c : option CacheUrlAction)
    (e : option ExtractPackageAction) (st : St) :
  quiet ->
  empty_plan (c, e) = false ->
  exists st' : St,
    run_actions' prec c e st = (st', Ok None) /\
    self World st' = self World st /\
    log World st' = (log World st ++ quiet_trace context (prec, (c, e)))%list.
Proof.
  intros Q NE.
  assert (HC : never_raises World perform Cleanup) by (intros a w; apply Q).
  unfold run_actions. unfold mbind at 1. unfold emit at 1.
  unfold try_except_else_finally. rewrite try_body_run_calls.
  set (st0 := mkState World (world World st)
                (log World st ++ [progress_bar context prec])%list (self World st)).
  destruct (run_calls_quiet (body_calls c e) Q st0) as [st1 [R1 [S1 L1]]].
  rewrite R1.
  destruct (cleanups World perform c e st1 HC) as [st2 [R2 [S2 L2]]].
  rewrite R2. unfold emit. eexists. split; [reflexivity|].
  split; [cbn [self]; rewrite S2, S1; reflexivity|].
  cbn [log]. rewrite L2, L1. subst st0. cbn [log].
  unfold quiet_trace. rewrite NE. rewrite <- !app_assoc. reflexivity.
Qed.

Lemma for_items_quiet (items : list (PackageRef * Plan)) :
  quiet ->
  forall (st : St) (exceptions : list Exn),
  exists st' : St,
    for_items' items exceptions st = (st', Ok exceptions) /\
    self World st' = self World st /\
    log World st' = (log World st ++ flat_map (quiet_trace context) items)%list.
Proof.
  intros Q. induction items as [|[prec [c e]] items IH]; intros st exceptions.
  - exists st. repeat split. now rewrite app_nil_r.
  - assert (H : exists st1 : St,
               _execute_actions' prec (c, e) st = (st1, Ok None) /\
               self World st1 = self World st /\
               log World st1 = (log World st ++ quiet_trace context (prec, (c, e)))%list).
    { destruct (empty_plan (c, e)) eqn:NE.
      - destruct c, e; try discriminate. exists st. repeat split.
        cbn. now rewrite app_nil_r.
      - destruct (run_actions_quiet prec c e st Q NE) as [st1 H].
        exists st1. destruct c, e; try discriminate; exact H. }
    destruct H as [st1 [R1 [S1 L1]]].
    cbn [for_items]. unfold mbind. rewrite R1.
    destruct (IH st1 exceptions) as [st2 [R2 [S2 L2]]].
    exists st2. split; [exact R2|]. split; [congruence|].
    rewrite L2, L1. cbn [flat_map]. now rewrite <- app_assoc.
Qed.

(** When no call raises, [execute] on a prepared batch returns normally; if
    it runs the batch at all, it goes through the references in the order
    of the dictionary and, for each plan that is not empty, opens a bar,
    verifies and executes the fetch action, then the extract action,
    cleans up in the same order, and finishes and closes the bar: nothing
    is reversed. *)
Theorem execute_quiet_run (st : St) :
  _prepared (self World st) = true ->
  dry_run context = false ->
  quiet ->
  exists st' : St,
    execute' st = (st', Ok tt) /\
    self World st' = self World st /\
    log World st' =
    (log World st ++
     if is_empty (cache_actions (self World st))
        || is_empty (extract_actions (self World st))
     then []
     else [announce context; EvSignalHandlerEnter]
            ++ flat_map (quiet_trace context) (paired_actions (self World st))
            ++ [EvSignalHandlerExit])%list.
Proof.
  intros P D Q.
  destruct (is_empty (cache_actions (self World st))
            || is_empty (extract_actions (self World st))) eqn:E.
  - exists st. split; [now apply execute_short_circuit|].
    split; [reflexivity | now rewrite app_nil_r].
  - unfold execute, mbind, get_self.
    rewrite P. cbn [negb]. unfold ret. rewrite D, E.
    unfold with_signal_handler, emit, raise. cbn [log world self].
    set (st0 := mkState World (world World st)
                  ((log World st ++ [announce context]) ++ [EvSignalHandlerEnter])%list
                  (self World st)).
    destruct (for_items_quiet (paired_actions (self World st)) Q st0 [])
      as [st1 [R [S L]]].
    rewrite R. cbn [is_empty]. eexists. split; [reflexivity|].
    split; [cbn [self]; rewrite S; reflexivity|].
    cbn [log]. rewrite L. subst st0. cbn [log].
    rewrite <- !app_assoc. reflexivity.
Qed.

(** *** Plans of the planner's shape *)

Lemma shaped_no_extract_no_fetch (items : list (PackageRef * Plan)) :
  Forall (fun item => planner_shaped (snd item) = true) items ->
  flat_map (fun item : PackageRef * Plan =>
              match snd (snd item) with Some e => [e] | None => [] end) items = [] ->
  flat_map (fun item : PackageRef * Plan =>
              match fst (snd item) with Some c => [c] | None => [] end) items = [].
Proof.
  induction 1 as [|[k [c e]] items Hs F IH]; [reflexivity|].
  cbn [flat_map fst snd]. intros H.
  apply app_eq_nil in H. destruct H as [He H].
  rewrite (IH H). destruct c as [ca|]; [|reflexivity].
  destruct e as [ea|]; [discriminate He | discriminate Hs].
Qed.

(** A prepared batch whose plans have the shape the planner gives them is
    run exactly when one of its references has a fetch action: without
    any, [execute] returns at once, whatever extractions are planned. *)
Theorem execute_runs_iff_fetch (st : St) :
  _prepared (self World st) = true ->
  dry_run context = false ->
  never_raises World perform Reverse ->
  never_raises World perform Cleanup ->
  Forall (fun item => planner_shaped (snd item) = true)
         (paired_actions (self World st)) ->
  (cache_actions (self World st) = [] <-> execute' st = (st, Ok tt)).
Proof.
  intros P D HR HC Sh.
  assert (E : is_empty (cache_actions (self World st))
              || is_empty (extract_actions (self World st))
              = is_empty (cache_actions (self World st))).
  { destruct (cache_actions (self World st)) eqn:C; [reflexivity|].
    destruct (extract_actions (self World st)) eqn:X; [|reflexivity].
    unfold extract_actions in X. unfold cache_actions in C.
    rewrite (shaped_no_extract_no_fetch _ Sh X) in C. discriminate. }
  split.
  - intros C. apply execute_short_circuit; auto. rewrite E, C. reflexivity.
  - intros R. destruct (cache_actions (self World st)) as [|ca l] eqn:C; [reflexivity|].
    exfalso. cbn [is_empty] in E.
    unfold execute, mbind, get_self in R.
    rewrite P in R. cbn [negb] in R. unfold ret in R. rewrite D, C in R.
    cbn [is_empty] in R. rewrite E in R.
    unfold with_signal_handler, emit, raise in R. cbn [log world self] in R.
    set (st0 := mkState World (world World st)
                  ((log World st ++ [announce context]) ++ [EvSignalHandlerEnter])%list
                  (self World st)) in R.
    destruct (for_items_trace World perform context (paired_actions (self World st))
                st0 [] HR HC) as [st1 [evs [excs [R1 [S1 [L1 T1]]]]]].
    rewrite R1 in R. cbn [app] in R.
    assert (L : log World st = (log World st1 ++ [EvSignalHandlerExit])%list).
    { destruct (is_empty excs); injection R as R; rewrite <- R at 1; reflexivity. }
    rewrite L1 in L. subst st0. cbn [log] in L.
    apply (f_equal (@List.length Event)) in L.
    rewrite !length_app in L. cbn [List.length] in L. lia.
Qed.

End Run.

Lemma prepare_outcome_witness :
  let '(st', r) := prepare unit sample_planner pref_eq_spec
                           (mkState unit tt [] pfe_unprepared) in
  let '(w, plans, raised) :=
    plan_all unit sample_planner [ref_y; ref_x_defaults; ref_y] tt in
  world unit st' = w /\
  r = match raised with None => Ok tt | Some e => Raise e end /\
  paired_actions (self unit st') =
    odict_update pref_eq_spec (combine [ref_y; ref_x_defaults; ref_y] plans) [] /\
  (paired_actions pfe_unprepared = [] ->
   distinct_refs pref_eq_spec [ref_y; ref_x_defaults; ref_y] ->
   paired_actions (self unit st') = combine [ref_y; ref_x_defaults; ref_y] plans) /\
  log unit st' = [] /\
  link_precs (self unit st') = [ref_y; ref_x_defaults; ref_y] /\
  (exists added,
      keys (paired_actions (self unit st')) = ([] ++ added)%list) /\
  (distinct_keys pref_eq_spec [] ->
   distinct_keys pref_eq_spec (paired_actions (self unit st'))) /\
  match r with
  | Ok _ =>
      _prepared (self unit st') = true /\
      (forall prec, In prec [ref_y; ref_x_defaults; ref_y] ->
         exists k, In k (keys (paired_actions (self unit st'))) /\
                   (k = prec \/ pref_eq_spec prec k = true)) /\
      prepare unit sample_planner pref_eq_spec st' = (st', Ok tt)
  | Raise _ => _prepared (self unit st') = false
  end.
Proof.
  apply (prepare_outcome unit sample_planner pref_eq_spec
           (mkState unit tt [] pfe_unprepared)).
  reflexivity.
Defined.

Lemma execute_dry_run_witness :
  let '(st', r) := execute unit all_succeed no_planner pref_eq_spec dry_context
                           (mkState unit tt [] pfe_two) in
  log unit st' = [] /\
  (exists e, r = Raise e) /\
  (_prepared pfe_two = true ->
   st' = mkState unit tt [] pfe_two /\ r = Raise AssertionError).
Proof.
  apply (execute_dry_run unit all_succeed no_planner pref_eq_spec dry_context
           (mkState unit tt [] pfe_two)).
  reflexivity.
Defined.

Lemma execute_quiet_run_witness :
  exists st' : State unit,
    execute unit all_succeed no_planner pref_eq_spec default_context
            (mkState unit tt [] pfe_two) = (st', Ok tt) /\
    self unit st' = pfe_two /\
    log unit st' =
    ([] ++
     [announce default_context; EvSignalHandlerEnter]
       ++ flat_map (quiet_trace default_context) (paired_actions pfe_two)
       ++ [EvSignalHandlerExit])%list.
Proof.
  apply (execute_quiet_run unit all_succeed no_planner pref_eq_spec default_context
           (mkState unit tt [] pfe_two)).
  - reflexivity.
  - reflexivity.
  - intros ph a w. reflexivity.
Defined.

Lemma execute_runs_iff_fetch_witness :
  cache_actions pfe_two = [fetch_y] /\
  (cache_actions pfe_two = [] <->
   execute unit all_succeed no_planner pref_eq_spec default_context
           (mkState unit tt [] pfe_two) = (mkState unit tt [] pfe_two, Ok tt)).
Proof.
  split; [reflexivity|].
  apply (execute_runs_iff_fetch unit all_succeed no_planner pref_eq_spec
           default_context (mkState unit tt [] pfe_two)).
  - reflexivity.
  - reflexivity.
  - intros a w. reflexivity.
  - intros a w. reflexivity.
  - repeat constructor.
Defined.

End ExecutorRunsFacts.

(** ** The URL index: buckets and files *)

Module UrlsLogFacts.
Import PyStr PyStrFacts Urls UrlsLog.

Lemma key_eqb_eq (a b : option string) : key_eqb a b = true <-> a = b.
Proof.
  destruct a as [x|], b as [y|]; simpl; try (split; congruence).
  rewrite String.eqb_eq. split; congruence.
Qed.

Lemma key_eqb_refl (a : option string) : key_eqb a a = true.
Proof. now apply key_eqb_eq. Qed.

Lemma bucket_insert0_same (k : option string) (u : string) (d : UrlsDict) :
  bucket k (insert0 k u d) = u :: bucket k d.
Proof.
  unfold bucket. induction d as [|[k' v] d IH]; simpl.
  - now rewrite key_eqb_refl.
  - destruct (key_eqb k k') eqn:E; simpl; rewrite E; [reflexivity | exact IH].
Qed.

Lemma bucket_insert0_other (k k' : option string) (u : string) (d : UrlsDict) :
  key_eqb k' k = false -> bucket k' (insert0 k u d) = bucket k' d.
Proof.
  intros N. unfold bucket. induction d as [|[k0 v] d IH]; simpl.
  - now rewrite N.
  - destruct (key_eqb k k0) eqn:E; simpl.
    + apply key_eqb_eq in E. subst k0. now rewrite N.
    + destruct (key_eqb k' k0); [reflexivity | exact IH].
Qed.

Lemma bucket_dict_set_other (k k' : option string) (v : list string) (d : UrlsDict) :
  key_eqb k' k = false -> bucket k' (dict_set k v d) = bucket k' d.
Proof.
  intros N. unfold bucket. induction d as [|[k0 v0] d IH]; simpl.
  - now rewrite N.
  - destruct (key_eqb k k0) eqn:E; simpl.
    + apply key_eqb_eq in E. subst k0. now rewrite N.
    + destruct (key_eqb k' k0); [reflexivity | exact IH].
Qed.

Lemma keys_insert0 (k : option string) (u : string) (d : UrlsDict) :
  map fst (insert0 k u d) =
  (map fst d ++ if existsb (key_eqb k) (map fst d) then [] else [k])%list.
Proof.
  induction d as [|[k' v] d IH]; [reflexivity|].
  simpl. destruct (key_eqb k k') eqn:E; simpl.
  - now rewrite app_nil_r.
  - now rewrite IH.
Qed.

Lemma NoDup_keys_insert0 (k : option string) (u : string) (d : UrlsDict) :
  NoDup (map fst d) -> NoDup (map fst (insert0 k u d)).
Proof.
  intros N. rewrite keys_insert0.
  destruct (existsb (key_eqb k) (map fst d)) eqn:E; [now rewrite app_nil_r|].
  apply NoDup_app; [exact N | repeat constructor; intros [] | ].
  intros x Hx [<- | []].
  assert (X : existsb (key_eqb k) (map fst d) = true).
  { apply existsb_exists. exists k. split; [exact Hx | apply key_eqb_refl]. }
  congruence.
Qed.

Section Writes.
Variable Channel : string -> ChannelInfo.

Abbreviation add_url' := (add_url Channel).
Abbreviation add_urls' := (add_urls Channel).
Abbreviation has_subdir' := (has_subdir Channel).

(** One [add_url]: what it does to a bucket, to the keys, to the paths and
    to the files. *)
Lemma add_url_step (self : UrlsData) (u : string) :
  pkgs_dir (add_url' self u) = pkgs_dir self /\
  urls_txt_path (add_url' self u) = urls_txt_path self /\
  bucket None (_urls_data (add_url' self u)) =
    (if truthy u then u :: bucket None (_urls_data self)
     else bucket None (_urls_data self)) /\
  (forall k, exists newer,
      bucket k (_urls_data (add_url' self u)) = (newer ++ bucket k (_urls_data self))%list) /\
  (NoDup (map fst (_urls_data self)) -> NoDup (map fst (_urls_data (add_url' self u)))) /\
  appended (add_url' self u) =
    ((if truthy u then [(urls_txt_path self, (u ++ newline)%string)] else []) ++
     (if truthy u && has_subdir' u
      then [(channel_file Channel (pkgs_dir self) u, (u ++ newline)%string)]
      else []) ++
     appended self)%list.
Proof.
  unfold add_url, has_subdir, channel_file. destruct (truthy u); cbn [negb andb].
  - destruct (subdir_truthy (Channel u)) as [sd|];
      cbn [pkgs_dir urls_txt_path _urls_data appended].
    + split; [reflexivity|]. split; [reflexivity|].
      split; [rewrite bucket_insert0_same, bucket_insert0_other; reflexivity|].
      split.
      { intros k.
        destruct (key_eqb k None) eqn:E1.
        - apply key_eqb_eq in E1. subst k.
          rewrite bucket_insert0_same, bucket_insert0_other by reflexivity.
          now exists [u].
        - rewrite (bucket_insert0_other None k) by exact E1.
          destruct (key_eqb k (Some (safe_name (Channel u) ++ "/" ++ sd))) eqn:E2.
          + apply key_eqb_eq in E2. subst k. rewrite bucket_insert0_same. now exists [u].
          + rewrite bucket_insert0_other by exact E2. now exists []. }
      split; [intros N; now apply NoDup_keys_insert0, NoDup_keys_insert0|].
      reflexivity.
    + split; [reflexivity|]. split; [reflexivity|].
      split; [now rewrite bucket_insert0_same|].
      split.
      { intros k. destruct (key_eqb k None) eqn:E1.
        - apply key_eqb_eq in E1. subst k. rewrite bucket_insert0_same. now exists [u].
        - rewrite bucket_insert0_other by exact E1. now exists []. }
      split; [intros N; now apply NoDup_keys_insert0|].
      reflexivity.
  - repeat split; auto. intros k. now exists [].
Qed.

(** Calls of [add_url] that all return keep the URLs most recent first:
    the global bucket is what it was behind the non-empty URLs added, the
    last one first; no bucket loses a URL; the keys stay distinct; and one
    line is written to the root file for each non-empty URL, one more to a
    per-channel file when the channel has a subdir. *)
Lemma buckets_after_add_urls (urls : list string) :
  forall self : UrlsData,
    bucket None (_urls_data (add_urls' self urls)) =
      (rev (filter truthy urls) ++ bucket None (_urls_data self))%list /\
    (forall k, exists newer,
        bucket k (_urls_data (add_urls' self urls)) =
        (newer ++ bucket k (_urls_data self))%list) /\
    (NoDup (map fst (_urls_data self)) ->
     NoDup (map fst (_urls_data (add_urls' self urls)))) /\
    List.length (appended (add_urls' self urls)) =
      List.length (appended self) + List.length (filter truthy urls)
      + List.length (filter has_subdir' (filter truthy urls)).
Proof.
  induction urls as [|u urls IH]; intros self.
  - cbn. repeat split; auto; [intros k; now exists [] | lia].
  - cbn [add_urls fold_left]. fold (add_urls' (add_url' self u) urls).
    destruct (IH (add_url' self u)) as [B [M [N L]]].
    destruct (add_url_step self u) as [_ [_ [B1 [M1 [N1 A1]]]]].
    split.
    { rewrite B, B1. cbn [filter]. destruct (truthy u); [|reflexivity].
      cbn [rev]. now rewrite <- app_assoc. }
    split.
    { intros k. destruct (M k) as [n2 H2]. destruct (M1 k) as [n1 H1].
      exists (n2 ++ n1)%list. now rewrite H2, H1, app_assoc. }
    split; [intros Hn; apply N, N1, Hn|].
    rewrite L, A1. cbn [filter]. destruct (truthy u); cbn [andb].
    + cbn [filter]. destruct (has_subdir' u); cbn [app List.length]; lia.
    + cbn [app]. lia.
Qed.

End Writes.

(** *** Reading the root file back *)

Lemma rstrip_app_newline (u : string) : rstrip (u ++ newline) = rstrip u.
Proof.
  induction u as [|a u IH]; [reflexivity|].
  change (String a u ++ newline) with (String a (u ++ newline)).
  cbn [rstrip]. now rewrite IH.
Qed.

Lemma strip_line (u : string) : strip (u ++ newline) = strip u.
Proof. unfold strip. now rewrite rstrip_app_newline. Qed.

Lemma lines_from_app (u : string) :
  occurs "010"%char u = false ->
  forall current text,
    lines_from current (u ++ text) = lines_from (current ++ u) text.
Proof.
  induction u as [|a u IH]; intros H current text.
  - now rewrite append_nil_r.
  - change (occurs "010"%char (String a u))
      with (Ascii.eqb "010"%char a || occurs "010"%char u) in H.
    apply orb_false_iff in H. destruct H as [Ha Hu].
    change (String a u ++ text) with (String a (u ++ text)).
    cbn [lines_from]. rewrite Ascii.eqb_sym, Ha.
    rewrite (IH Hu). f_equal. now rewrite append_assoc.
Qed.

Lemma file_lines_written (us : list string) :
  (forall u, In u us -> occurs "010"%char u = false) ->
  file_lines (fold_right String.append "" (map (fun u => u ++ newline) us))
  = map (fun u => u ++ newline) us.
Proof.
  unfold file_lines. induction us as [|u us IH]; intros H; [reflexivity|].
  cbn [map fold_right]. rewrite append_assoc.
  rewrite (lines_from_app u (H u (or_introl eq_refl))).
  cbn [append newline lines_from]. rewrite Ascii.eqb_refl.
  f_equal. apply IH. intros v Hv. apply H. now right.
Qed.

Lemma strip_written (us : list string) :
  (forall u, In u us -> strip u = u) ->
  map strip (map (fun u => u ++ newline) us) = us.
Proof.
  induction us as [|u us IH]; intros H; [reflexivity|].
  cbn [map]. rewrite strip_line, (H u (or_introl eq_refl)). f_equal.
  apply IH. intros v Hv. apply H. now right.
Qed.

Section Persistence.
Variable Channel : string -> ChannelInfo.
Variable listdir : string -> list string.

Lemma add_urls_paths (urls : list string) :
  forall self,
    pkgs_dir (add_urls Channel self urls) = pkgs_dir self /\
    urls_txt_path (add_urls Channel self urls) = urls_txt_path self.
Proof.
  induction urls as [|u urls IH]; intros self; [split; reflexivity|].
  cbn [add_urls fold_left]. fold (add_urls Channel (add_url Channel self u) urls).
  destruct (IH (add_url Channel self u)) as [P U].
  destruct (add_url_step Channel self u) as [P1 [U1 _]].
  split; congruence.
Qed.

(** The lines of the root file, oldest first, are the non-empty URLs in the
    order they were added, provided no per-channel file is the root file. *)
Lemma root_file_writes (urls : list string) :
  forall self,
    (forall u, In u urls -> has_subdir Channel u = true ->
               channel_file Channel (pkgs_dir self) u <> urls_txt_path self) ->
    filter (fun w : string * string => String.eqb (fst w) (urls_txt_path self))
           (appended (add_urls Channel self urls))
    = (rev (map (fun u => (urls_txt_path self, (u ++ newline)%string))
                (filter truthy urls))
         ++ filter (fun w : string * string => String.eqb (fst w) (urls_txt_path self))
                   (appended self))%list.
Proof.
  induction urls as [|u urls IH]; intros self H; [reflexivity|].
  cbn [add_urls fold_left]. fold (add_urls Channel (add_url Channel self u) urls).
  destruct (add_url_step Channel self u) as [P1 [U1 [_ [_ [_ A1]]]]].
  pose proof (IH (add_url Channel self u)) as IH'.
  rewrite P1, U1 in IH'. rewrite IH'.
  2:{ intros v Hv. apply H. now right. }
  rewrite A1. cbn [filter]. destruct (truthy u) eqn:T; cbn [andb app].
  - destruct (has_subdir Channel u) eqn:S; cbn [filter fst app].
    + assert (N : String.eqb (channel_file Channel (pkgs_dir self) u)
                             (urls_txt_path self) = false).
      { apply String.eqb_neq. apply H; [now left | exact S]. }
      rewrite String.eqb_refl, N. cbn [map rev]. now rewrite <- app_assoc.
    + rewrite String.eqb_refl. cbn [map rev]. now rewrite <- app_assoc.
  - reflexivity.
Qed.

Lemma load_global_bucket (isfile : string -> bool) (read_text : string -> string)
    (root : string) :
  bucket None (_load isfile listdir read_text root) =
  if isfile (join root "urls.txt")
  then load_file read_text (join root "urls.txt")
  else [].
Proof.
  unfold _load. destruct (isfile (join root "urls.txt")); [|reflexivity].
  set (d0 := [(None, load_file read_text (join root "urls.txt"))]).
  assert (B0 : bucket None d0 = load_file read_text (join root "urls.txt")) by reflexivity.
  rewrite <- B0. clear B0. generalize d0.
  induction (filter (fun d => isfile (join (join root d) "metadata.json"))
                    (listdir root)) as [|cd cds IH]; intros d; [reflexivity|].
  cbn [fold_left]. rewrite IH. clear IH.
  induction (filter (fun sd => isfile (join (join (join root cd) sd) "urls.txt"))
                    (listdir (join root cd))) as [|sd sds IH] in d |- *; [reflexivity|].
  cbn [fold_left]. rewrite IH.
  destruct (isfile (join (join (join root cd) sd) "urls.txt")); [|reflexivity].
  now rewrite bucket_dict_set_other.
Qed.

(** The global bucket survives a restart: after any list of [add_url] on a
    fresh root, [_load] reads back from the root file the same bucket, the
    most recent URL first.  The URLs are ASCII text without surrounding
    white space, without a line feed and without a carriage return, and no
    per-channel file is the root file itself. *)
Theorem load_reads_back (root : string) (urls : list string) :
  (forall u, In u urls ->
             is_ascii u = true /\ strip u = u /\
             occurs "010"%char u = false /\ occurs "013"%char u = false) ->
  (forall u, In u urls -> has_subdir Channel u = true ->
             channel_file Channel root u <> join root "urls.txt") ->
  let self := add_urls Channel (new_UrlsData root) urls in
  bucket None (_load (was_written self) listdir (written_text self) root)
  = bucket None (_urls_data self).
Proof.
  intros Hu Hc self.
  destruct (buckets_after_add_urls Channel urls (new_UrlsData root)) as [B _].
  fold self in B. rewrite B. cbn [new_UrlsData _urls_data]. unfold bucket at 2.
  cbn [List.find]. rewrite app_nil_r.
  pose proof (root_file_writes urls (new_UrlsData root) Hc) as W.
  fold self in W. cbn [new_UrlsData urls_txt_path appended filter] in W.
  rewrite app_nil_r in W.
  rewrite load_global_bucket.
  unfold was_written, written_text, load_file.
  rewrite W.
  destruct (filter truthy urls) as [|u0 us0] eqn:F.
  - destruct (existsb _ (appended self)); reflexivity.
  - assert (X : existsb (fun w : string * string => String.eqb (fst w) (join root "urls.txt"))
                        (appended self) = true).
    { apply existsb_exists.
      assert (I : In (join root "urls.txt", u0 ++ newline)
                     (filter (fun w : string * string =>
                                String.eqb (fst w) (join root "urls.txt"))
                             (appended self))).
      { rewrite W. apply in_rev. rewrite rev_involutive. now left. }
      apply filter_In in I. exists (join root "urls.txt", u0 ++ newline). exact I. }
    rewrite X. rewrite map_rev, rev_involutive, map_map. cbn [snd].
    assert (Hf : forall u, In u (u0 :: us0) -> In u urls).
    { intros u Iu. rewrite <- F in Iu. apply filter_In in Iu. tauto. }
    rewrite file_lines_written by (intros u Iu; apply Hu; now apply Hf).
    rewrite strip_written by (intros u Iu; apply Hu; now apply Hf).
    reflexivity.
Qed.

End Persistence.

Lemma load_reads_back_witness :
  let self := add_urls Channel_S5 (new_UrlsData "/opt/pkgs")
                       [url_S5; "https://h/c/linux-64/y-2-0.tar.bz2"] in
  bucket None (_load (was_written self) no_listing (written_text self) "/opt/pkgs")
  = bucket None (_urls_data self).
Proof.
  apply (load_reads_back Channel_S5 no_listing "/opt/pkgs"
           [url_S5; "https://h/c/linux-64/y-2-0.tar.bz2"]).
  - intros u [<- | [<- | []]]; vm_compute; repeat split.
  - intros u [<- | [<- | []]] _; discriminate.
Defined.

End UrlsLogFacts.

(** ** The dictionary of records *)

Module CacheIndexFacts.
Import PyStr Py Cache CacheIndex.

Section Index.
Variable pref_eq : PackageRef -> PackageRef -> bool.
Variable write_raises : string -> option Exn.
Hypothesis Heq : equivalence pref_eq.

Abbreviation wf := (well_formed pref_eq).
Abbreviation get' := (get pref_eq).
Abbreviation insert' := (insert pref_eq write_raises).
Abbreviation remove' := (remove pref_eq).
Abbreviation query' := (query pref_eq).
Abbreviation dict_set' := (dict_set pref_eq).
Abbreviation dict_pop' := (dict_pop pref_eq).
Abbreviation key_is' := (key_is pref_eq).

Lemma eq_refl' (a : PackageRef) : pref_eq a a = true.
Proof. apply Heq. Qed.

Lemma eq_sym' (a b : PackageRef) : pref_eq a b = pref_eq b a.
Proof. apply Heq. Qed.

Lemma eq_compat (a b c : PackageRef) :
  pref_eq a b = true -> pref_eq a c = pref_eq b c.
Proof.
  destruct Heq as [_ [S T]]. intros H.
  destruct (pref_eq b c) eqn:Ebc.
  - eapply T; eauto.
  - destruct (pref_eq a c) eqn:Eac; [|reflexivity].
    rewrite (S a b) in H. rewrite <- Ebc. symmetry. eapply T; eauto.
Qed.

Lemma eq_trans' (a b c : PackageRef) :
  pref_eq a b = true -> pref_eq b c = true -> pref_eq a c = true.
Proof. apply Heq. Qed.

Lemma find_dict_set (k v : PackageCacheRecord) (ref : PackageRef) (d : Records) :
  option_map snd (List.find (key_is' ref) (dict_set' k v d)) =
  if pref_eq (pcrec_ref k) ref then Some v
  else option_map snd (List.find (key_is' ref) d).
Proof.
  induction d as [|[k' v'] d IH]; cbn [dict_set List.find].
  - unfold key_is at 1. cbn [fst]. destruct (pref_eq (pcrec_ref k) ref); reflexivity.
  - destruct (pref_eq (pcrec_ref k') (pcrec_ref k)) eqn:E; cbn [List.find].
    + unfold key_is. cbn [fst]. rewrite (eq_compat _ _ ref E).
      destruct (pref_eq (pcrec_ref k) ref); reflexivity.
    + unfold key_is at 1 3. cbn [fst].
      destruct (pref_eq (pcrec_ref k') ref) eqn:E'; [|exact IH].
      destruct (pref_eq (pcrec_ref k) ref) eqn:E''; [|reflexivity].
      exfalso. rewrite (eq_sym' (pcrec_ref k) ref) in E''.
      pose proof (eq_trans' _ _ _ E' E''). congruence.
Qed.

Lemma rest_no_key (ref : PackageRef) (kv : PackageCacheRecord * PackageCacheRecord)
    (d : Records) :
  Forall (fun kv2 : PackageCacheRecord * PackageCacheRecord =>
            pref_eq (pcrec_ref (fst kv2)) (pcrec_ref (fst kv)) = false) d ->
  pref_eq (pcrec_ref (fst kv)) ref = true ->
  Forall (fun kv2 => key_is' ref kv2 = false) d.
Proof.
  intros F E. eapply Forall_impl; [|exact F]. intros kv2 H. unfold key_is.
  destruct (pref_eq (pcrec_ref (fst kv2)) ref) eqn:E2; [|reflexivity].
  rewrite (eq_sym' (pcrec_ref (fst kv)) ref) in E.
  pose proof (eq_trans' _ _ _ E2 E). congruence.
Qed.

Lemma find_none_Forall {A : Type} (f : A -> bool) (l : list A) :
  Forall (fun x => f x = false) l -> List.find f l = None.
Proof.
  induction 1 as [|x l Hx F IH]; [reflexivity|]. simpl. now rewrite Hx.
Qed.

Lemma filter_all {A : Type} (f : A -> bool) (l : list A) :
  Forall (fun x => f x = true) l -> filter f l = l.
Proof.
  induction 1 as [|x l Hx F IH]; [reflexivity|]. simpl. now rewrite Hx, IH.
Qed.

Lemma ForallOrdPairs_filter {A : Type} (R : A -> A -> Prop) (f : A -> bool)
    (l : list A) :
  ForallOrdPairs R l -> ForallOrdPairs R (filter f l).
Proof.
  induction 1 as [|a l Ha Hl IH]; [constructor|].
  simpl. destruct (f a); [|exact IH].
  constructor; [|exact IH].
  apply Forall_forall. intros x Hx. apply filter_In in Hx.
  rewrite Forall_forall in Ha. now apply Ha.
Qed.

Lemma Forall_filter {A : Type} (P : A -> Prop) (f : A -> bool) (l : list A) :
  Forall P l -> Forall P (filter f l).
Proof.
  intros F. apply Forall_forall. intros x Hx. apply filter_In in Hx.
  rewrite Forall_forall in F. now apply F.
Qed.

Lemma wf_dict_set (r : PackageCacheRecord) (d : Records) :
  wf d -> wf (dict_set' r r d).
Proof.
  intros [D V]. induction d as [|[k' v'] d IH]; cbn [dict_set].
  - split; [repeat constructor | repeat constructor; apply eq_refl'].
  - inversion D as [|? ? Dk D']; inversion V as [|? ? Vk V']; subst.
    destruct (pref_eq (pcrec_ref k') (pcrec_ref r)) eqn:E.
    + split; [constructor; assumption|].
      constructor; [|exact V']. cbn [fst snd]. now rewrite eq_sym'.
    + destruct (IH D' V') as [D2 V2]. split; [|constructor; assumption].
      constructor; [|exact D2].
      clear IH D2 V2 D' V' V Vk D.
      induction d as [|[k2 v2] d IHd]; cbn [dict_set].
      * constructor; [|constructor]. cbn [fst]. now rewrite eq_sym'.
      * inversion Dk as [|? ? H2 Dk']; subst.
        destruct (pref_eq (pcrec_ref k2) (pcrec_ref r)); constructor; auto.
Qed.

(** [insert] then [get]: the record inserted is what [get] returns for
    every reference equal to it, in place of what was stored before under
    that key; the other keys are as they were, and the dictionary keeps
    its keys distinct.  If writing the file raises, that is what [insert]
    raises, and nothing is stored. *)
Theorem index_insert_get (r : PackageCacheRecord) (self : Index) :
  (write_raises (repodata_record_path r) = None ->
   (forall ref has_default,
       get' ref has_default (fst (insert' r self)) =
       if pref_eq (pcrec_ref r) ref then Found r else get' ref has_default self) /\
   (wf (records self) -> wf (records (fst (insert' r self)))) /\
   written (fst (insert' r self)) = (repodata_record_path r, r) :: written self) /\
  (forall e, write_raises (repodata_record_path r) = Some e ->
             insert' r self = (self, Raise e)).
Proof.
  unfold insert. split; [intros W | intros e W]; rewrite W; [|reflexivity].
  cbn [fst records written]. split; [|split; [apply wf_dict_set | reflexivity]].
  intros ref hd. unfold get. cbn [records].
  pose proof (find_dict_set r r ref (records self)) as H.
  destruct (List.find (key_is' ref) (dict_set' r r (records self))) as [[k v]|];
    destruct (pref_eq (pcrec_ref r) ref);
    destruct (List.find (key_is' ref) (records self)) as [[k0 v0]|];
    cbn [option_map snd] in H; congruence.
Qed.

(** With distinct keys, popping a key takes away every entry it matches. *)
Lemma dict_pop_filter (ref : PackageRef) (d : Records) :
  wf d ->
  dict_pop' ref d =
  match List.find (key_is' ref) d with
  | Some (_, v) => Some (v, filter (fun kv => negb (key_is' ref kv)) d)
  | None => None
  end.
Proof.
  intros [D V]. induction d as [|[k' v'] d IH]; [reflexivity|].
  inversion D as [|? ? Dk D']; inversion V as [|? ? Vk V']; subst.
  cbn [dict_pop List.find filter]. unfold key_is at 1 3. cbn [fst].
  destruct (pref_eq (pcrec_ref k') ref) eqn:E; cbn [negb].
  - rewrite filter_all; [reflexivity|].
    pose proof (rest_no_key ref (k', v') d Dk E) as F.
    eapply Forall_impl; [|exact F]. intros kv H. now rewrite H.
  - rewrite (IH D' V').
    destruct (List.find (key_is' ref) d) as [[k v]|]; reflexivity.
Qed.

Lemma find_filter_other (ref ref' : PackageRef) (d : Records) :
  pref_eq ref' ref = false ->
  List.find (key_is' ref') (filter (fun kv => negb (key_is' ref kv)) d)
  = List.find (key_is' ref') d.
Proof.
  intros N. induction d as [|kv d IH]; [reflexivity|].
  cbn [filter List.find]. destruct (key_is' ref kv) eqn:E; cbn [negb List.find].
  - destruct (key_is' ref' kv) eqn:E'; [|exact IH].
    exfalso. unfold key_is in E, E'.
    rewrite (eq_sym' (pcrec_ref (fst kv)) ref') in E'.
    pose proof (eq_trans' _ _ _ E' E). congruence.
  - now rewrite IH.
Qed.

Lemma find_filter_same (ref : PackageRef) (d : Records) :
  List.find (key_is' ref) (filter (fun kv => negb (key_is' ref kv)) d) = None.
Proof.
  apply find_none_Forall. apply Forall_forall. intros kv H.
  apply filter_In in H. destruct H as [_ H]. now apply negb_true_iff in H.
Qed.

(** [remove]: it hands out what [get] would have returned, the key is gone
    afterwards, the other keys are untouched, and the keys stay distinct;
    a key that is not there leaves the dictionary as it is. *)
Theorem index_remove (ref : PackageRef) (has_default : bool) (self : Index) :
  wf (records self) ->
  snd (remove' ref has_default self) = get' ref has_default self /\
  get' ref has_default (fst (remove' ref has_default self))
    = (if has_default then Default else KeyError) /\
  (forall ref' hd, pref_eq ref' ref = false ->
      get' ref' hd (fst (remove' ref has_default self)) = get' ref' hd self) /\
  wf (records (fst (remove' ref has_default self))) /\
  (get' ref has_default self = (if has_default then Default else KeyError) ->
   fst (remove' ref has_default self) = self).
Proof.
  intros W. unfold remove, get. rewrite (dict_pop_filter ref (records self) W).
  destruct (List.find (key_is' ref) (records self)) as [[k v]|] eqn:F;
    cbn [fst snd records].
  - split; [reflexivity|]. split; [now rewrite find_filter_same|].
    split; [intros ref' hd N; now rewrite find_filter_other|].
    split.
    + destruct W as [D V]. split;
        [now apply ForallOrdPairs_filter | now apply Forall_filter].
    + destruct has_default; discriminate.
  - rewrite F. repeat split; auto. apply W. apply W.
Qed.

(** [query] on a reference yields at most one record, the one [get]
    returns. *)
Theorem index_query_single (ref : PackageRef) (self : Index) :
  wf (records self) ->
  query' ref self =
  match get' ref true self with
  | Found pcrec => [pcrec]
  | _ => []
  end.
Proof.
  intros [D V]. unfold query, values, get.
  induction (records self) as [|[k v] d IH]; [reflexivity|].
  inversion D as [|? ? Dk D']; inversion V as [|? ? Vk V']; subst.
  cbn [map snd filter List.find]. unfold key_is at 1. cbn [fst snd] in *.
  rewrite (eq_compat _ _ ref Vk).
  destruct (pref_eq (pcrec_ref k) ref) eqn:E.
  - f_equal. specialize (IH D' V').
    pose proof (rest_no_key ref (k, v) d Dk E) as F.
    rewrite (find_none_Forall _ _ F) in IH. exact IH.
  - exact (IH D' V').
Qed.

End Index.

Lemma pref_eq_spec_equivalence : equivalence pref_eq_spec.
Proof.
  unfold equivalence, pref_eq_spec. split; [|split].
  - intros a. now rewrite !String.eqb_refl, Z.eqb_refl.
  - intros a b.
    rewrite (String.eqb_sym (ref_channel a)), (String.eqb_sym (ref_name a)),
      (String.eqb_sym (ref_version a)), (String.eqb_sym (ref_build a)),
      (Z.eqb_sym (ref_build_number a)).
    reflexivity.
  - intros a b c H1 H2.
    repeat (apply andb_true_iff in H1; destruct H1 as [H1 ?]).
    repeat (apply andb_true_iff in H2; destruct H2 as [H2 ?]).
    repeat match goal with
           | H : String.eqb _ _ = true |- _ => apply String.eqb_eq in H
           | H : Z.eqb _ _ = true |- _ => apply Z.eqb_eq in H
           end.
    repeat (apply andb_true_iff; split);
      try (apply String.eqb_eq; congruence); apply Z.eqb_eq; congruence.
Qed.

Lemma wf_index_x : well_formed pref_eq_spec (records index_x).
Proof. split; repeat constructor. Qed.

Lemma index_insert_get_witness :
  (forall ref has_default,
      get pref_eq_spec ref has_default
          (fst (insert pref_eq_spec never_fails pcrec_x index_x)) =
      if pref_eq_spec (pcrec_ref pcrec_x) ref then Found pcrec_x
      else get pref_eq_spec ref has_default index_x) /\
  (well_formed pref_eq_spec (records index_x) ->
   well_formed pref_eq_spec
     (records (fst (insert pref_eq_spec never_fails pcrec_x index_x)))) /\
  written (fst (insert pref_eq_spec never_fails pcrec_x index_x))
  = (repodata_record_path pcrec_x, pcrec_x) :: written index_x.
Proof.
  apply (index_insert_get pref_eq_spec never_fails pref_eq_spec_equivalence
           pcrec_x index_x).
  reflexivity.
Defined.

Lemma index_remove_witness :
  snd (remove pref_eq_spec ref_x_defaults false index_x)
  = get pref_eq_spec ref_x_defaults false index_x /\
  get pref_eq_spec ref_x_defaults false
      (fst (remove pref_eq_spec ref_x_defaults false index_x)) = KeyError /\
  (forall ref' hd, pref_eq_spec ref' ref_x_defaults = false ->
      get pref_eq_spec ref' hd (fst (remove pref_eq_spec ref_x_defaults false index_x))
      = get pref_eq_spec ref' hd index_x) /\
  well_formed pref_eq_spec
    (records (fst (remove pref_eq_spec ref_x_defaults false index_x))) /\
  (get pref_eq_spec ref_x_defaults false index_x = KeyError ->
   fst (remove pref_eq_spec ref_x_defaults false index_x) = index_x).
Proof.
  apply (index_remove pref_eq_spec pref_eq_spec_equivalence ref_x_defaults false index_x).
  exact wf_index_x.
Defined.

Lemma index_query_single_witness :
  query pref_eq_spec ref_x_defaults index_x =
  match get pref_eq_spec ref_x_defaults true index_x with
  | Found pcrec => [pcrec]
  | _ => []
  end.
Proof.
  apply (index_query_single pref_eq_spec pref_eq_spec_equivalence ref_x_defaults index_x).
  exact wf_index_x.
Defined.

End CacheIndexFacts.

(** ** Records that no environment links *)

Module InUseFacts.
Import PyStr Cache Os InUse.

Section Links.

Variable E : Type.
Variable read_paths_json : string -> outcome E (list PathData).
Variable cross_platform_st_nlink : string -> outcome E nat.

Abbreviation scan_paths' := (scan_paths E cross_platform_st_nlink).
Abbreviation in_use := (_pcrec_is_in_use E read_paths_json cross_platform_st_nlink).
Abbreviation keep_unused' := (keep_unused E read_paths_json cross_platform_st_nlink).
Abbreviation linked_elsewhere' := (linked_elsewhere E cross_platform_st_nlink).
Abbreviation links_accounted' := (links_accounted E cross_platform_st_nlink).

Lemma inode_paths_in_package_max (pd : PathData) :
  inode_paths_in_package pd =
  Nat.max 1 (List.length (match inode_paths pd with Some l => l | None => [] end)).
Proof.
  unfold inode_paths_in_package.
  destruct (List.length match inode_paths pd with Some l => l | None => [] end);
    cbn [Nat.eqb]; lia.
Qed.

Lemma links_accounted_cons (epd : string) (pd : PathData) (rest : list PathData) :
  (path_type pd <> directory ->
   exists st_nlink,
     cross_platform_st_nlink (join epd (path pd)) = Returns st_nlink /\
     st_nlink <=
     Nat.max 1 (List.length (match inode_paths pd with Some l => l | None => [] end))) ->
  links_accounted' epd rest ->
  links_accounted' epd (pd :: rest).
Proof.
  intros H R pd' [<-|I] N; [now apply H | now apply R].
Qed.

(** What the loop finds: a file with more links than the package accounts
    for, none at all, or the exception of the first file that cannot be
    examined. *)
Lemma scan_paths_outcome (epd : string) (paths : list PathData) :
  match scan_paths' epd paths with
  | Returns true => exists pd, In pd paths /\ linked_elsewhere' epd pd
  | Returns false => links_accounted' epd paths
  | Raises e =>
      exists pd, In pd paths /\ path_type pd <> directory /\
                 cross_platform_st_nlink (join epd (path pd)) = Raises e
  end.
Proof.
  induction paths as [|pd rest IH]; cbn [scan_paths].
  - intros pd [].
  - assert (Next :
      (path_type pd <> directory ->
       exists st_nlink,
         cross_platform_st_nlink (join epd (path pd)) = Returns st_nlink /\
         st_nlink <=
         Nat.max 1 (List.length (match inode_paths pd with Some l => l | None => [] end))) ->
      match scan_paths' epd rest with
      | Returns true => exists pd0, In pd0 (pd :: rest) /\ linked_elsewhere' epd pd0
      | Returns false => links_accounted' epd (pd :: rest)
      | Raises e =>
          exists pd0, In pd0 (pd :: rest) /\ path_type pd0 <> directory /\
                      cross_platform_st_nlink (join epd (path pd0)) = Raises e
      end).
    { intros H. destruct (scan_paths' epd rest) as [[|]|e].
      - destruct IH as [pd0 [I L]]. exists pd0. split; [now right | exact L].
      - now apply links_accounted_cons.
      - destruct IH as [pd0 [I L]]. exists pd0. split; [now right | exact L]. }
    assert (Stat :
      path_type pd <> directory ->
      match
        match cross_platform_st_nlink (join epd (path pd)) with
        | Raises e => Raises e
        | Returns st_nlink =>
            if Nat.ltb 1 st_nlink
            then if Nat.ltb (inode_paths_in_package pd) st_nlink
                 then Returns true
                 else scan_paths' epd rest
            else scan_paths' epd rest
        end
      with
      | Returns true => exists pd0, In pd0 (pd :: rest) /\ linked_elsewhere' epd pd0
      | Returns false => links_accounted' epd (pd :: rest)
      | Raises e =>
          exists pd0, In pd0 (pd :: rest) /\ path_type pd0 <> directory /\
                      cross_platform_st_nlink (join epd (path pd0)) = Raises e
      end).
    { intros N.
      destruct (cross_platform_st_nlink (join epd (path pd))) as [n|e] eqn:S.
      - destruct (Nat.ltb 1 n) eqn:L1.
        + destruct (Nat.ltb (inode_paths_in_package pd) n) eqn:L2.
          * exists pd. split; [now left|]. split; [exact N|].
            exists n. split; [exact S|].
            apply Nat.ltb_lt in L2. now rewrite <- inode_paths_in_package_max.
          * apply Next. intros _. exists n. split; [reflexivity|].
            apply Nat.ltb_ge in L2. now rewrite <- inode_paths_in_package_max.
        + apply Next. intros _. exists n. split; [reflexivity|].
          apply Nat.ltb_ge in L1. lia.
      - exists pd. split; [now left|]. split; [exact N | exact S]. }
    destruct (path_type pd) eqn:T.
    + apply Stat. discriminate.
    + apply Stat. discriminate.
    + apply Next. intros N. now elim N.
Qed.

(** [_pcrec_is_in_use] answers [True] only for a package one of whose
    files, directories apart, has more links than the larger of [1] and
    the number of its [inode_paths]; it answers [False] only when every
    such file could be examined and has no more links than that; and what
    it raises is what reading [paths.json] raised, or what examining one
    of the files raised. *)
Theorem pcrec_in_use_links (pcrec : PackageCacheRecord) :
  let epd := extracted_package_dir pcrec in
  match _pcrec_is_in_use E read_paths_json cross_platform_st_nlink pcrec with
  | Returns true =>
      exists paths pd,
        read_paths_json epd = Returns paths /\ In pd paths /\
        linked_elsewhere' epd pd
  | Returns false =>
      exists paths,
        read_paths_json epd = Returns paths /\ links_accounted' epd paths
  | Raises e =>
      read_paths_json epd = Raises e \/
      exists paths pd,
        read_paths_json epd = Returns paths /\ In pd paths /\
        path_type pd <> directory /\
        cross_platform_st_nlink (join epd (path pd)) = Raises e
  end.
Proof.
  intros epd. unfold _pcrec_is_in_use. fold epd.
  destruct (read_paths_json epd) as [paths|e] eqn:R; [|now left].
  pose proof (scan_paths_outcome epd paths) as H.
  destruct (scan_paths' epd paths) as [[|]|e].
  - destruct H as [pd [I L]]. now exists paths, pd.
  - now exists paths.
  - right. destruct H as [pd [I [N S]]]. now exists paths, pd.
Qed.

Lemma keep_unused_filter (pcrecs kept : list PackageCacheRecord) :
  keep_unused' pcrecs = Returns kept ->
  (forall p, In p pcrecs -> exists b, in_use p = Returns b) /\
  kept = filter (fun p => match in_use p with
                          | Returns false => true
                          | _ => false
                          end) pcrecs.
Proof.
  revert kept. induction pcrecs as [|p rest IH]; cbn [keep_unused filter]; intros kept H.
  - split; [intros p []|]. congruence.
  - destruct (in_use p) as [b|e] eqn:U; [|discriminate].
    destruct (keep_unused' rest) as [kept'|e]; [|discriminate].
    destruct (IH kept' eq_refl) as [A F]. split.
    + intros q [<-|I]; [now exists b | now apply A].
    + destruct b; injection H as <-; now rewrite F.
Qed.

(** When [pcrecs_not_linked] returns, it returns, in the order of the
    dictionary, exactly the records that are extracted and all of whose
    files, directories apart, have no more links than the larger of [1]
    and the number of their [inode_paths]. *)
Theorem pcrecs_not_linked_sound (self : PackageCache) (kept : list PackageCacheRecord) :
  pcrecs_not_linked E read_paths_json cross_platform_st_nlink self = Returns kept ->
  kept = filter (fun p => match in_use p with
                          | Returns false => true
                          | _ => false
                          end) (pcrecs_extracted self) /\
  forall p,
    In p kept <->
    In p (_package_cache_records self) /\ is_extracted p = true /\
    exists paths,
      read_paths_json (extracted_package_dir p) = Returns paths /\
      links_accounted' (extracted_package_dir p) paths.
Proof.
  unfold pcrecs_not_linked. intros H.
  destruct (keep_unused_filter _ _ H) as [A F]. split; [exact F|].
  intros p. rewrite F, filter_In. unfold pcrecs_extracted. rewrite filter_In.
  pose proof (pcrec_in_use_links p) as L. cbv zeta in L. split.
  - intros [[I X] U]. split; [exact I|]. split; [exact X|].
    destruct (in_use p) as [[|]|e]; try discriminate. exact L.
  - intros [I [X [paths [R Acc]]]]. split; [now split|].
    destruct (A p) as [b B]; [unfold pcrecs_extracted; now apply filter_In|].
    rewrite B in L |- *. destruct b; [|reflexivity].
    exfalso. destruct L as [paths' [pd [R' [Ipd [N [n [S Lt]]]]]]].
    rewrite R in R'. injection R' as <-.
    destruct (Acc pd Ipd N) as [n' [S' Le]].
    rewrite S in S'. injection S' as <-. lia.
Qed.

End Links.

Lemma pcrecs_not_linked_sound_witness :
  [pcrec_x] =
  filter (fun p => match _pcrec_is_in_use unit read_paths_x st_nlink_unlinked p with
                   | Returns false => true
                   | _ => false
                   end) (pcrecs_extracted cache_ro_x) /\
  forall p,
    In p [pcrec_x] <->
    In p (_package_cache_records cache_ro_x) /\ is_extracted p = true /\
    exists paths,
      read_paths_x (extracted_package_dir p) = Returns paths /\
      links_accounted unit st_nlink_unlinked (extracted_package_dir p) paths.
Proof.
  apply (pcrecs_not_linked_sound unit read_paths_x st_nlink_unlinked cache_ro_x [pcrec_x]).
  vm_compute. reflexivity.
Defined.

End InUseFacts.

(** ** One object per directory *)

Module RegistryFacts.
Import PyStr Py Writable Registry.

Lemma nth_error_store (c c' : nat) (obj : PackageCacheObj)
    (objs : list PackageCacheObj) :
  nth_error (store c obj objs) c' =
  if Nat.eqb c c'
  then match nth_error objs c with Some _ => Some obj | None => None end
  else nth_error objs c'.
Proof.
  revert c c'. induction objs as [|o rest IH]; intros c c'.
  - cbn [store]. destruct (Nat.eqb c c'), c, c'; reflexivity.
  - destruct c, c'; cbn [store nth_error Nat.eqb]; try reflexivity. apply IH.
Qed.

Lemma store_same (c : nat) (obj : PackageCacheObj) (objs : list PackageCacheObj) :
  nth_error objs c = Some obj -> store c obj objs = objs.
Proof.
  revert c. induction objs as [|o rest IH]; intros [|c] H; cbn [store] in *;
    try discriminate.
  - now injection H as ->.
  - now rewrite IH.
Qed.

Lemma lookup_app (pd : string) (l1 l2 : list (string * nat)) :
  lookup pd (l1 ++ l2) =
  match lookup pd l1 with
  | Some c => Some c
  | None => lookup pd l2
  end.
Proof.
  unfold lookup. induction l1 as [|[k v] l1 IH]; cbn [app List.find fst]; [reflexivity|].
  destruct (String.eqb k pd); [reflexivity | exact IH].
Qed.

Lemma lookup_single (pd pd' : string) (c : nat) :
  lookup pd' [(pd, c)] = if String.eqb pd pd' then Some c else None.
Proof.
  unfold lookup. cbn [List.find fst]. now destruct (String.eqb pd pd').
Qed.

Lemma extends_refl (h : Heap) : extends h h.
Proof. repeat split; auto. Qed.

Lemma extends_trans (h1 h2 h3 : Heap) : extends h1 h2 -> extends h2 h3 -> extends h1 h3.
Proof.
  intros [A1 [B1 C1]] [A2 [B2 C2]]. repeat split; auto.
Qed.

Lemma nth_error_snoc_old (objs : list PackageCacheObj) (obj : PackageCacheObj) (c : nat)
    (self : PackageCacheObj) :
  nth_error objs c = Some self -> nth_error (objs ++ [obj]) c = Some self.
Proof.
  intros H. rewrite nth_error_app1; [exact H|].
  apply nth_error_Some. congruence.
Qed.

Lemma nth_error_snoc_new (objs : list PackageCacheObj) (obj : PackageCacheObj) :
  nth_error (objs ++ [obj]) (List.length objs) = Some obj.
Proof.
  rewrite nth_error_app2, Nat.sub_diag; [reflexivity | lia].
Qed.

Lemma call_extends (pd : string) (h : Heap) :
  well_formed h ->
  well_formed (fst (__call__ (Directory pd) h)) /\
  extends h (fst (__call__ (Directory pd) h)) /\
  lookup pd (_cache_ (fst (__call__ (Directory pd) h)))
  = Some (snd (__call__ (Directory pd) h)).
Proof.
  intros W. cbn [__call__]. destruct (lookup pd (_cache_ h)) as [c|] eqn:L; cbn [fst snd].
  - split; [exact W|]. split; [apply extends_refl | exact L].
  - split; [|split].
    + intros pd' c'. cbn [_cache_ objects]. rewrite lookup_app, lookup_single.
      destruct (lookup pd' (_cache_ h)) as [c0|] eqn:L'.
      * intros H. injection H as <-. destruct (W pd' c0 L') as [self [N D]].
        exists self. split; [now apply nth_error_snoc_old | exact D].
      * destruct (String.eqb pd pd') eqn:Q; [|discriminate].
        intros H. injection H as <-. apply String.eqb_eq in Q. subst pd'.
        exists (mkObj pd None). split; [apply nth_error_snoc_new | reflexivity].
    + split; [|split].
      * intros pd' c' H. cbn [_cache_]. rewrite lookup_app. now rewrite H.
      * intros c' pd'. unfold dir_at. cbn [objects].
        destruct (nth_error (objects h) c') as [self|] eqn:N; [|discriminate].
        now rewrite (nth_error_snoc_old _ _ _ _ N).
      * intros c'. unfold memo_at. cbn [objects].
        destruct (nth_error (objects h) c') as [self|] eqn:N; [|discriminate].
        now rewrite (nth_error_snoc_old _ _ _ _ N).
    + cbn [_cache_]. rewrite lookup_app, L, lookup_single. now rewrite String.eqb_refl.
Qed.

Section Probe.

Variable FS : Type.
Variable isdir : FS -> string -> bool.
Variable file_path_is_writable : FS -> string -> FS * bool.
Variable create_package_cache_directory : FS -> string -> FS * bool.
Variable PACKAGE_CACHE_MAGIC_FILE : string.

Abbreviation is_writable' :=
  (is_writable FS isdir file_path_is_writable create_package_cache_directory
               PACKAGE_CACHE_MAGIC_FILE).
Abbreviation _check_writable' :=
  (_check_writable FS isdir file_path_is_writable create_package_cache_directory
                   PACKAGE_CACHE_MAGIC_FILE).
Abbreviation is_writable_at' :=
  (is_writable_at FS isdir file_path_is_writable create_package_cache_directory
                  PACKAGE_CACHE_MAGIC_FILE).
Abbreviation scan' :=
  (scan FS isdir file_path_is_writable create_package_cache_directory
        PACKAGE_CACHE_MAGIC_FILE).
Abbreviation writable_caches' :=
  (writable_caches FS isdir file_path_is_writable create_package_cache_directory
                   PACKAGE_CACHE_MAGIC_FILE).
Abbreviation run_step' :=
  (run_step FS isdir file_path_is_writable create_package_cache_directory
            PACKAGE_CACHE_MAGIC_FILE).
Abbreviation run_steps' :=
  (run_steps FS isdir file_path_is_writable create_package_cache_directory
             PACKAGE_CACHE_MAGIC_FILE).

Lemma is_writable_obj (self : PackageCacheObj) (fs : FS) :
  pkgs_dir (fst (fst (is_writable' self fs))) = pkgs_dir self /\
  (snd (is_writable' self fs) = true ->
   __is_writable (fst (fst (is_writable' self fs))) = Some true) /\
  (__is_writable self = Some true -> is_writable' self fs = (self, fs, true)).
Proof.
  unfold is_writable, _check_writable.
  destruct (__is_writable self) as [[|]|] eqn:M; cbn [fst snd].
  - repeat split; auto.
  - destruct (if isdir fs (pkgs_dir self) then _ else _) as [fs' i].
    cbn [fst snd pkgs_dir __is_writable].
    repeat split; [congruence | discriminate].
  - destruct (if isdir fs (pkgs_dir self) then _ else _) as [fs' i].
    cbn [fst snd pkgs_dir __is_writable].
    repeat split; [congruence | discriminate].
Qed.

Lemma is_writable_at_extends (c : nat) (h : Heap) (fs : FS) :
  well_formed h ->
  well_formed (fst (fst (is_writable_at' c h fs))) /\
  extends h (fst (fst (is_writable_at' c h fs))) /\
  (forall pd, dir_at c h = Some pd -> snd (is_writable_at' c h fs) = true ->
     memo_at c (fst (fst (is_writable_at' c h fs))) = Some true) /\
  (memo_at c h = Some true -> is_writable_at' c h fs = (h, fs, true)).
Proof.
  intros W. unfold is_writable_at, dir_at, memo_at.
  destruct (nth_error (objects h) c) as [self|] eqn:N; cbn [fst snd option_map].
  2: { repeat split; auto; discriminate. }
  destruct (is_writable_obj self fs) as [D [T S]].
  destruct (is_writable' self fs) as [[self' fs'] r]. cbn [fst snd] in *.
  split; [|split; [|split]].
  - intros pd c' L. cbn [_cache_ objects] in *.
    destruct (W pd c' L) as [o [No Do]]. rewrite nth_error_store.
    destruct (Nat.eqb c c') eqn:Q.
    + apply Nat.eqb_eq in Q. subst c'. rewrite N. exists self'.
      split; [reflexivity|]. congruence.
    + now exists o.
  - split; [|split].
    + intros pd c' L. exact L.
    + intros c' pd. unfold dir_at. cbn [objects]. rewrite nth_error_store.
      destruct (Nat.eqb c c') eqn:Q; [|auto].
      apply Nat.eqb_eq in Q. subst c'. rewrite N. cbn [option_map]. congruence.
    + intros c'. unfold memo_at. cbn [objects]. rewrite nth_error_store.
      destruct (Nat.eqb c c') eqn:Q; [|auto].
      apply Nat.eqb_eq in Q. subst c'. rewrite N. intros M.
      specialize (S M). injection S as -> _ _. exact M.
  - intros pd _ R. cbn [objects]. rewrite nth_error_store, Nat.eqb_refl, N. auto.
  - intros M. specialize (S M). injection S as -> -> ->.
    rewrite (store_same _ _ _ N). now destruct h.
Qed.

Lemma scan_cons (want : bool) (pd : string) (rest : list string) (h : Heap) (fs : FS) :
  scan' want (pd :: rest) h fs =
  let h1 := fst (__call__ (Directory pd) h) in
  let c := snd (__call__ (Directory pd) h) in
  let h2 := fst (fst (is_writable_at' c h1 fs)) in
  let fs2 := snd (fst (is_writable_at' c h1 fs)) in
  let w := snd (is_writable_at' c h1 fs) in
  let h3 := fst (fst (scan' want rest h2 fs2)) in
  let fs3 := snd (fst (scan' want rest h2 fs2)) in
  let found := snd (scan' want rest h2 fs2) in
  (h3, fs3, if Bool.eqb w want then c :: found else found).
Proof.
  cbn [scan]. cbv zeta.
  destruct (__call__ (Directory pd) h) as [h1 c]. cbn [fst snd].
  destruct (is_writable_at' c h1 fs) as [[h2 fs2] w]. cbn [fst snd].
  destruct (scan' want rest h2 fs2) as [[h3 fs3] found]. reflexivity.
Qed.

(** What a scan leaves behind, and what it finds. *)
Lemma scan_extends (want : bool) (pkgs_dirs : list string) :
  forall (h : Heap) (fs : FS),
    well_formed h ->
    well_formed (fst (fst (scan' want pkgs_dirs h fs))) /\
    extends h (fst (fst (scan' want pkgs_dirs h fs))) /\
    (want = true ->
     forall c, In c (snd (scan' want pkgs_dirs h fs)) ->
       memo_at c (fst (fst (scan' want pkgs_dirs h fs))) = Some true /\
       exists pd, In pd pkgs_dirs /\
                  lookup pd (_cache_ (fst (fst (scan' want pkgs_dirs h fs)))) = Some c) /\
    (want = true ->
     forall pd c, In pd pkgs_dirs -> lookup pd (_cache_ h) = Some c ->
       memo_at c h = Some true -> In c (snd (scan' want pkgs_dirs h fs))).
Proof.
  induction pkgs_dirs as [|pd rest IH]; intros h fs W.
  - cbn [scan fst snd]. split; [exact W|]. split; [apply extends_refl|].
    split; [intros _ c [] | intros _ pd c []].
  - rewrite scan_cons. cbv zeta. cbn [fst snd].
    destruct (call_extends pd h W) as [W1 [X1 L1]].
    set (h1 := fst (__call__ (Directory pd) h)) in *.
    set (c0 := snd (__call__ (Directory pd) h)) in *.
    destruct (is_writable_at_extends c0 h1 fs W1) as [W2 [X2 [T2 S2]]].
    set (h2 := fst (fst (is_writable_at' c0 h1 fs))) in *.
    set (fs2 := snd (fst (is_writable_at' c0 h1 fs))) in *.
    set (w := snd (is_writable_at' c0 h1 fs)) in *.
    destruct (IH h2 fs2 W2) as [W3 [X3 [F3 G3]]].
    set (h3 := fst (fst (scan' want rest h2 fs2))) in *.
    set (found := snd (scan' want rest h2 fs2)) in *.
    split; [exact W3|].
    split; [exact (extends_trans _ _ _ (extends_trans _ _ _ X1 X2) X3)|].
    split.
    + intros Hw c I. subst want.
      assert (Old : In c found ->
                    memo_at c h3 = Some true /\
                    exists pd0, In pd0 (pd :: rest) /\ lookup pd0 (_cache_ h3) = Some c).
      { intros I'. destruct (F3 eq_refl c I') as [M [pd0 [I0 L0]]].
        split; [exact M|]. exists pd0. split; [now right | exact L0]. }
      destruct w eqn:Ew; cbn [Bool.eqb] in I; [|now apply Old].
      destruct I as [<-|I]; [|now apply Old].
      destruct (W1 pd c0 L1) as [self [N D]].
      assert (Dir : dir_at c0 h1 = Some pd) by (unfold dir_at; now rewrite N, <- D).
      split.
      * apply X3. apply (T2 pd Dir). reflexivity.
      * exists pd. split; [now left|]. apply X3. apply X2. exact L1.
    + intros Hw pd' c I L M. subst want.
      destruct I as [<-|I].
      * assert (c0 = c) as ->.
        { destruct X1 as [A _]. specialize (A pd c L). congruence. }
        assert (M1 : memo_at c h1 = Some true) by (apply X1; exact M).
        assert (Ew : w = true) by (unfold w; now rewrite (S2 M1)).
        rewrite Ew. now left.
      * assert (In c found).
        { apply (G3 eq_refl pd' c I).
          - apply X2. apply X1. exact L.
          - apply X2. apply X1. exact M. }
        destruct (Bool.eqb w true); [now right | assumption].
Qed.

Lemma step_extends (s : Step FS) (h : Heap) (fs : FS) :
  well_formed h ->
  keeps_memo FS s = true ->
  well_formed (fst (run_step' s h fs)) /\ extends h (fst (run_step' s h fs)).
Proof.
  intros W K. destruct s as [arg|c|pds|pds|c| |change]; try discriminate;
    cbn [run_step fst].
  - destruct arg as [c|pd]; [split; [exact W | apply extends_refl]|].
    destruct (call_extends pd h W) as [W1 [X1 _]]. now split.
  - destruct (is_writable_at_extends c h fs W) as [W1 [X1 _]]. now split.
  - unfold writable_caches.
    destruct (scan_extends true pds h fs W) as [W1 [X1 _]].
    destruct (scan' true pds h fs) as [[h' fs'] found]. now split.
  - unfold read_only_caches.
    destruct (scan_extends false pds h fs W) as [W1 [X1 _]]. now split.
  - split; [exact W | apply extends_refl].
Qed.

Lemma steps_extend (steps : list (Step FS)) :
  forall (h : Heap) (fs : FS),
    well_formed h ->
    forallb (keeps_memo FS) steps = true ->
    well_formed (fst (run_steps' steps h fs)) /\ extends h (fst (run_steps' steps h fs)).
Proof.
  induction steps as [|s steps IH]; intros h fs W K.
  - split; [exact W | apply extends_refl].
  - cbn [forallb] in K. apply andb_true_iff in K. destruct K as [Ks K].
    cbn [run_steps]. destruct (step_extends s h fs W Ks) as [W1 X1].
    destruct (run_step' s h fs) as [h1 fs1]. cbn [fst] in *.
    destruct (IH h1 fs1 W1 K) as [W2 X2].
    split; [exact W2 | exact (extends_trans _ _ _ X1 X2)].
Qed.

(** A cache that [writable_caches] has returned is returned again by every
    later call whose list of directories has its directory, as long as
    neither [load] nor [clear] has run in between: whatever objects were
    made, whatever was asked or scanned, and whatever has become of the
    disk, the call does not raise, and a call on the same directories
    returns at least the caches of the first. *)
Theorem writable_caches_monotone (pkgs_dirs : list string) (h h1 : Heap)
    (fs fs1 : FS) (caches : list nat) :
  well_formed h ->
  writable_caches FS isdir file_path_is_writable create_package_cache_directory
                  PACKAGE_CACHE_MAGIC_FILE pkgs_dirs h fs = (h1, fs1, Ok caches) ->
  well_formed h1 /\
  (forall c, In c caches ->
     memo_at c h1 = Some true /\
     exists pd, In pd pkgs_dirs /\ lookup pd (_cache_ h1) = Some c) /\
  (forall (steps : list (Step FS)) (fs2 : FS),
     forallb (keeps_memo FS) steps = true ->
     let h3 := fst (run_steps' steps h1 fs2) in
     let fs3 := snd (run_steps' steps h1 fs2) in
     (forall (pkgs_dirs2 : list string) c pd,
        In c caches -> lookup pd (_cache_ h1) = Some c -> In pd pkgs_dirs2 ->
        exists caches2,
          snd (writable_caches' pkgs_dirs2 h3 fs3) = Ok caches2 /\ In c caches2) /\
     (exists caches2,
        snd (writable_caches' pkgs_dirs h3 fs3) = Ok caches2 /\ incl caches caches2)).
Proof.
  intros W H. unfold writable_caches in H.
  destruct (scan_extends true pkgs_dirs h fs W) as [W1 [X1 [F1 _]]].
  destruct (scan' true pkgs_dirs h fs) as [[h' fs'] found] eqn:S.
  cbn [fst snd] in *.
  assert (found = caches /\ h' = h1) as [-> ->].
  { destruct found; [discriminate|]. injection H as -> _ E. now split. }
  specialize (F1 eq_refl).
  split; [exact W1|]. split; [exact F1|].
  intros steps fs2 K.
  destruct (steps_extend steps h1 fs2 W1 K) as [W3 [XL [_ XM]]].
  set (h3 := fst (run_steps' steps h1 fs2)) in *.
  set (fs3 := snd (run_steps' steps h1 fs2)) in *.
  assert (Again : forall pkgs_dirs2 : list string,
             forall c, (exists pd, In pd pkgs_dirs2 /\ lookup pd (_cache_ h1) = Some c) ->
                       In c caches ->
                       In c (snd (scan' true pkgs_dirs2 h3 fs3))).
  { intros pkgs_dirs2 c [pd [I L]] Ic.
    destruct (scan_extends true pkgs_dirs2 h3 fs3 W3) as [_ [_ [_ G]]].
    apply (G eq_refl pd c I); [now apply XL|]. apply XM. now apply F1. }
  split.
  - intros pkgs_dirs2 c pd Ic L I.
    pose proof (Again pkgs_dirs2 c (ex_intro _ pd (conj I L)) Ic) as In2.
    unfold writable_caches.
    destruct (scan' true pkgs_dirs2 h3 fs3) as [[h4 fs4] found2]. cbn [snd] in *.
    destruct found2 as [|c2 found2]; [destruct In2|]. now exists (c2 :: found2).
  - assert (Inc : incl caches (snd (scan' true pkgs_dirs h3 fs3))).
    { intros c Ic. apply Again; [|exact Ic].
      destruct (F1 c Ic) as [_ E]. exact E. }
    unfold writable_caches.
    destruct (scan' true pkgs_dirs h3 fs3) as [[h4 fs4] found2]. cbn [snd] in *.
    destruct found2 as [|c2 found2].
    + destruct caches as [|c cs]; [discriminate|]. destruct (Inc c). now left.
    + now exists (c2 :: found2).
Qed.

(** After [clear], a directory gets a new object, at an address that
    names none of the objects made before; the new object remembers
    nothing, so that asking it probes the disk again, whatever the old
    object of that directory remembers; the old objects stay as they
    are. *)
Theorem clear_forgets (pd : string) (h : Heap) (fs : FS) :
  well_formed h ->
  let h1 := fst (__call__ (Directory pd) (clear h)) in
  let c1 := snd (__call__ (Directory pd) (clear h)) in
  well_formed h1 /\
  c1 = List.length (objects h) /\
  (forall c self, nth_error (objects h) c = Some self ->
                  c <> c1 /\ nth_error (objects h1) c = Some self) /\
  dir_at c1 h1 = Some pd /\
  memo_at c1 h1 = None /\
  (let '(_, fs', r) := is_writable_at' c1 h1 fs in (fs', r)) =
  (let '(_, fs', r) := _check_writable' (mkObj pd None) fs in (fs', r)).
Proof.
  intros W. cbn [__call__ clear _cache_ lookup List.find option_map objects fst snd].
  cbv zeta. split; [|split; [reflexivity|split; [|split; [|split]]]].
  - intros pd' c'. cbn [_cache_ objects app]. rewrite lookup_single.
    destruct (String.eqb pd pd') eqn:Q; [|discriminate].
    intros H. injection H as <-. apply String.eqb_eq in Q. subst pd'.
    exists (mkObj pd None). split; [apply nth_error_snoc_new | reflexivity].
  - intros c self N. split.
    + assert (c < List.length (objects h)) by (apply nth_error_Some; congruence). lia.
    + now apply nth_error_snoc_old.
  - unfold dir_at. cbn [objects]. now rewrite nth_error_snoc_new.
  - unfold memo_at. cbn [objects]. now rewrite nth_error_snoc_new.
  - unfold is_writable_at. cbn [objects]. rewrite nth_error_snoc_new.
    unfold is_writable. cbn [__is_writable].
    destruct (_check_writable' (mkObj pd None) fs) as [[self' fs'] r]. reflexivity.
Qed.

End Probe.

(** A directory always gives the same object: a second call returns the
    address of the first and leaves the heap as it is, the object is the
    one of that directory, another directory never gives it, and the
    objects made before are untouched. *)
Theorem call_interned (pd : string) (h : Heap) :
  well_formed h ->
  let h1 := fst (__call__ (Directory pd) h) in
  let c := snd (__call__ (Directory pd) h) in
  well_formed h1 /\
  __call__ (Directory pd) h1 = (h1, c) /\
  __call__ (Instance c) h1 = (h1, c) /\
  dir_at c h1 = Some pd /\
  (forall pd', pd' <> pd -> snd (__call__ (Directory pd') h1) <> c) /\
  (forall c' self, nth_error (objects h) c' = Some self ->
                   nth_error (objects h1) c' = Some self).
Proof.
  intros W. cbv zeta.
  destruct (call_extends pd h W) as [W1 [X1 L1]].
  set (h1 := fst (__call__ (Directory pd) h)) in *.
  set (c := snd (__call__ (Directory pd) h)) in *.
  destruct (W1 pd c L1) as [self [N D]].
  split; [exact W1|]. split; [|split; [reflexivity|split; [|split]]].
  - cbn [__call__]. now rewrite L1.
  - unfold dir_at. now rewrite N, <- D.
  - intros pd' Ne. cbn [__call__].
    destruct (lookup pd' (_cache_ h1)) as [c'|] eqn:L'; cbn [snd].
    + intros ->. destruct (W1 pd' c L') as [self' [N' D']]. congruence.
    + intros E. assert (c < List.length (objects h1)) by (apply nth_error_Some; congruence).
      lia.
  - intros c' self' N'. subst h1. cbn [__call__].
    destruct (lookup pd (_cache_ h)); cbn [fst objects]; [exact N'|].
    now apply nth_error_snoc_old.
Qed.

Lemma call_interned_witness :
  let h1 := fst (__call__ (Directory "/rw/pkgs") empty_heap) in
  let c := snd (__call__ (Directory "/rw/pkgs") empty_heap) in
  well_formed h1 /\
  __call__ (Directory "/rw/pkgs") h1 = (h1, c) /\
  __call__ (Instance c) h1 = (h1, c) /\
  dir_at c h1 = Some "/rw/pkgs" /\
  (forall pd', pd' <> "/rw/pkgs" -> snd (__call__ (Directory pd') h1) <> c) /\
  (forall c' self, nth_error (objects empty_heap) c' = Some self ->
                   nth_error (objects h1) c' = Some self).
Proof.
  apply (call_interned "/rw/pkgs" empty_heap).
  intros pd c H. discriminate.
Defined.

Lemma writable_caches_monotone_witness :
  let h1 := fst (fst (disk_writable_caches ["/rw/pkgs"; "/ro/pkgs"] empty_heap
                                           disk_two_roots)) in
  well_formed h1 /\
  (forall c, In c [0] ->
     memo_at c h1 = Some true /\
     exists pd, In pd ["/rw/pkgs"; "/ro/pkgs"] /\ lookup pd (_cache_ h1) = Some c) /\
  (forall (steps : list (Step Disk)) (fs2 : Disk),
     forallb (keeps_memo Disk) steps = true ->
     let h3 := fst (disk_run_steps steps h1 fs2) in
     let fs3 := snd (disk_run_steps steps h1 fs2) in
     (forall (pkgs_dirs2 : list string) c pd,
        In c [0] -> lookup pd (_cache_ h1) = Some c -> In pd pkgs_dirs2 ->
        exists caches2,
          snd (disk_writable_caches pkgs_dirs2 h3 fs3) = Ok caches2 /\ In c caches2) /\
     (exists caches2,
        snd (disk_writable_caches ["/rw/pkgs"; "/ro/pkgs"] h3 fs3) = Ok caches2 /\
        incl [0] caches2)).
Proof.
  apply (writable_caches_monotone Disk disk_isdir disk_file_path_is_writable
           disk_create_package_cache_directory MAGIC
           ["/rw/pkgs"; "/ro/pkgs"] empty_heap _ disk_two_roots disk_two_roots [0]).
  - intros pd c H. discriminate.
  - vm_compute. reflexivity.
Defined.

(** The two roots scanned, the disk then closed to the process: the first
    root is returned all the same after an access and another scan, and
    no longer once [load] has probed it again. *)
Example writable_caches_after_load :
  let h1 := fst (fst (disk_writable_caches ["/rw/pkgs"; "/ro/pkgs"] empty_heap
                                           disk_two_roots)) in
  (let '(h2, fs2) :=
     disk_run_steps [External Disk lock_disk; Ask Disk 0;
                     ScanReadOnly Disk ["/rw/pkgs"; "/ro/pkgs"]] h1 disk_two_roots in
   snd (disk_writable_caches ["/rw/pkgs"; "/ro/pkgs"] h2 fs2) = Ok [0]) /\
  (let '(h2, fs2) :=
     disk_run_steps [External Disk lock_disk; Load Disk 0] h1 disk_two_roots in
   snd (disk_writable_caches ["/rw/pkgs"; "/ro/pkgs"] h2 fs2)
   = Raise (CondaError "No writable package cache directories found")).
Proof. vm_compute. split; reflexivity. Qed.

Lemma clear_forgets_witness :
  let h := fst (fst (disk_is_writable_at 0
                       (fst (__call__ (Directory "/rw/pkgs") empty_heap))
                       disk_two_roots)) in
  let h1 := fst (__call__ (Directory "/rw/pkgs") (clear h)) in
  let c1 := snd (__call__ (Directory "/rw/pkgs") (clear h)) in
  memo_at 0 h = Some true /\
  well_formed h1 /\
  c1 = List.length (objects h) /\
  (forall c self, nth_error (objects h) c = Some self ->
                  c <> c1 /\ nth_error (objects h1) c = Some self) /\
  dir_at c1 h1 = Some "/rw/pkgs" /\
  memo_at c1 h1 = None /\
  (let '(_, fs', r) := disk_is_writable_at c1 h1 disk_two_roots in (fs', r)) =
  (let '(_, fs', r) :=
     _check_writable Disk disk_isdir disk_file_path_is_writable
                     disk_create_package_cache_directory MAGIC
                     (mkObj "/rw/pkgs" None) disk_two_roots in (fs', r)).
Proof.
  split; [vm_compute; reflexivity|].
  apply (clear_forgets Disk disk_isdir disk_file_path_is_writable
           disk_create_package_cache_directory MAGIC "/rw/pkgs" _ disk_two_roots).
  intros pd c H. change (lookup pd [("/rw/pkgs", 0)] = Some c) in H.
  rewrite lookup_single in H.
  destruct (String.eqb "/rw/pkgs" pd) eqn:Q; [|discriminate].
  apply String.eqb_eq in Q. subst pd. injection H as <-.
  eexists. split; [vm_compute; reflexivity | reflexivity].
Defined.

End RegistryFacts.

(** ** Building one record *)

Module SingleRecordFacts.
Import PyStr Os SingleRecord.
Local Open Scope os_scope.

Lemma substring_split (x : string) :
  forall k, k <= String.length x ->
    substring 0 k x ++ substring k (String.length x - k) x = x.
Proof.
  induction x as [|a x IH]; intros [|k] L; cbn [String.length] in *.
  - reflexivity.
  - lia.
  - cbn [substring Nat.sub append]. now rewrite DistNamesFacts.substring_whole.
  - cbn [substring Nat.sub append]. rewrite IH; [reflexivity | lia].
Qed.

Lemma endswith_split (x e : string) :
  endswith x e = true -> strip_last (String.length e) x ++ e = x.
Proof.
  unfold endswith, strip_last.
  destruct (Nat.leb (String.length e) (String.length x)) eqn:L; [|discriminate].
  apply Nat.leb_le in L. intros H. apply String.eqb_eq in H.
  set (k := String.length x - String.length e) in *.
  assert (M : String.length e = String.length x - k) by lia.
  rewrite M in H. rewrite <- H. apply substring_split. lia.
Qed.

Lemma tarball_path_endswith (p : string) :
  endswith (tarball_path p) CONDA_TARBALL_EXTENSION = true.
Proof.
  unfold tarball_path.
  destruct (endswith p CONDA_TARBALL_EXTENSION) eqn:E; [exact E|].
  apply DistNamesFacts.endswith_app.
Qed.

Lemma tarball_path_of_dir (p : string) :
  extracted_dir p ++ CONDA_TARBALL_EXTENSION = tarball_path p.
Proof.
  unfold extracted_dir. apply endswith_split, tarball_path_endswith.
Qed.

Section Disk.

Variable S : Type.
Variable Err : Type.
Variable Json : Type.
Variable is_environment_error : Err -> bool.
Variable is_archive_error : Err -> bool.
Variable read_repodata_json : S -> string -> outcome Err Json.
Variable read_index_json : S -> string -> outcome Err Json.
Variable read_index_json_from_tarball : S -> string -> outcome Err Json.
Variable isdir : S -> string -> bool.
Variable isfile : S -> string -> bool.
Variable compute_md5sum : S -> string -> outcome Err string.
Variable rm_rf : string -> S -> S * outcome Err unit.
Variable extract_tarball : string -> string -> S -> S * outcome Err unit.
Variable write_as_json_to_file : string -> Json -> S -> S * outcome Err unit.
Variable is_writable : S -> S * bool.
Variable get_url : string -> option string.
Variable path_to_url : string -> string.
Variable to_repodata : PackageCacheRecord Json -> Json.

Abbreviation make :=
  (_make_single_record S Err Json is_environment_error is_archive_error
     read_repodata_json read_index_json read_index_json_from_tarball isdir isfile
     compute_md5sum rm_rf extract_tarball write_as_json_to_file is_writable
     get_url path_to_url to_repodata).
Abbreviation from_archive' :=
  (from_archive S Err Json read_index_json read_index_json_from_tarball isdir
     rm_rf extract_tarball is_writable).
Abbreviation index_json_record' :=
  (index_json_record S Err Json is_environment_error is_archive_error
     read_index_json read_index_json_from_tarball isdir isfile rm_rf
     extract_tarball is_writable).

(** Where [index_json_record] gives up. *)
Lemma index_json_record_None (tarball epd : string) (s s' : S) :
  index_json_record' tarball epd s = (s', Returns None) ->
  (exists e, read_index_json s epd = Raises e /\ is_environment_error e = true) /\
  ((isdir s epd = true /\ isfile s tarball = false /\ s' = s) \/
   (isdir s epd && negb (isfile s tarball) = false /\
    exists s1 e,
      from_archive' tarball epd s = (s1, Raises e) /\
      is_archive_error e = true /\
      rm_rf tarball s1 = (s', Returns tt))).
Proof.
  unfold index_json_record, try_except, bind, reads, reads_or_raises, ret.
  destruct (read_index_json s epd) as [j|e] eqn:R; [discriminate|].
  destruct (is_environment_error e) eqn:C; [|discriminate].
  intros H. split; [now exists e|].
  destruct (isdir s epd && negb (isfile s tarball)) eqn:G.
  - left. apply andb_true_iff in G. destruct G as [G1 G2].
    apply negb_true_iff in G2. injection H as <-. now repeat split.
  - right. split; [reflexivity|].
    destruct (from_archive' tarball epd s) as [s1 [j|e1]] eqn:A; [discriminate|].
    destruct (is_archive_error e1) eqn:C1; [|discriminate].
    destruct (rm_rf tarball s1) as [s2 [[]|e2]] eqn:D; [|discriminate].
    injection H as <-. now exists s1, e1.
Qed.

(** The record a call returns has the two paths of the call. *)
Lemma make_record_paths (p : string) (s s' : S) (r : PackageCacheRecord Json) :
  make p s = (s', Returns (Some r)) ->
  package_tarball_full_path r = tarball_path p /\
  extracted_package_dir r = extracted_dir p.
Proof.
  unfold _make_single_record, try_except, bind, reads, reads_or_raises, ret, asks.
  destruct (read_repodata_json s (extracted_dir p)) as [j|e].
  - intros H. injection H as _ <-. now split.
  - destruct (is_environment_error e); [|discriminate].
    destruct (index_json_record' (tarball_path p) (extracted_dir p) s)
      as [s1 [[j|]|e1]]; try discriminate.
    destruct (isfile s1 (tarball_path p)).
    + destruct (compute_md5sum s1 (tarball_path p)) as [m|e2]; [|discriminate].
      destruct (is_writable s1) as [s2 [|]].
      * destruct (write_as_json_to_file _ _ s2) as [s3 [[]|e3]]; [|discriminate].
        intros H. injection H as _ <-. now split.
      * intros H. injection H as _ <-. now split.
    + destruct (is_writable s1) as [s2 [|]].
      * destruct (write_as_json_to_file _ _ s2) as [s3 [[]|e3]]; [|discriminate].
        intros H. injection H as _ <-. now split.
      * intros H. injection H as _ <-. now split.
Qed.

(** The method may be given the tarball or the directory it extracts to:
    both calls do the same; and in every record it returns the tarball
    path is the directory path with the extension, one of them being the
    path given. *)
Theorem make_single_record_paths (p : string) :
  (endswith p CONDA_TARBALL_EXTENSION = false ->
   forall s,
     _make_single_record S Err Json is_environment_error is_archive_error
       read_repodata_json read_index_json read_index_json_from_tarball isdir isfile
       compute_md5sum rm_rf extract_tarball write_as_json_to_file is_writable
       get_url path_to_url to_repodata (p ++ CONDA_TARBALL_EXTENSION) s
     = make p s) /\
  (forall s s' r,
     make p s = (s', Returns (Some r)) ->
     package_tarball_full_path r = extracted_package_dir r ++ CONDA_TARBALL_EXTENSION /\
     (package_tarball_full_path r = p \/ extracted_package_dir r = p)).
Proof.
  split.
  - intros E s.
    assert (T : tarball_path (p ++ CONDA_TARBALL_EXTENSION) = tarball_path p).
    { unfold tarball_path. now rewrite DistNamesFacts.endswith_app, E. }
    unfold _make_single_record, extracted_dir. now rewrite T.
  - intros s s' r H. destruct (make_record_paths p s s' r H) as [T D].
    rewrite T, D. split; [symmetry; apply tarball_path_of_dir|].
    unfold extracted_dir, tarball_path.
    destruct (endswith p CONDA_TARBALL_EXTENSION); [now left | right].
    apply DistNamesFacts.strip_last_app.
Qed.

(** The method returns [None] in two cases only, both ones in which
    neither metadata file could be read: the directory is there without
    its tarball, and nothing is touched; or reading the tarball raised
    [EOFError] or [ReadError], and the tarball has been removed. *)
Theorem make_single_record_none (p : string) (s s' : S) :
  make p s = (s', Returns None) ->
  let tarball := tarball_path p in
  let epd := extracted_dir p in
  (exists e, read_repodata_json s epd = Raises e /\ is_environment_error e = true) /\
  (exists e, read_index_json s epd = Raises e /\ is_environment_error e = true) /\
  ((isdir s epd = true /\ isfile s tarball = false /\ s' = s) \/
   (isdir s epd && negb (isfile s tarball) = false /\
    exists s1 e,
      from_archive' tarball epd s = (s1, Raises e) /\
      is_archive_error e = true /\
      rm_rf tarball s1 = (s', Returns tt))).
Proof.
  intros H tarball epd. revert H.
  unfold _make_single_record. fold tarball epd.
  unfold try_except at 1. unfold bind at 1, reads_or_raises at 1.
  destruct (read_repodata_json s epd) as [j|e] eqn:R; [discriminate|].
  destruct (is_environment_error e) eqn:C; [|discriminate].
  unfold bind at 1.
  destruct (index_json_record' tarball epd s) as [s1 [[j|]|e1]] eqn:I.
  - unfold bind, reads, reads_or_raises, ret, asks.
    destruct (isfile s1 tarball).
    + destruct (compute_md5sum s1 tarball) as [m|e2]; [|discriminate].
      destruct (is_writable s1) as [s2 [|]]; [|discriminate].
      destruct (write_as_json_to_file _ _ s2) as [s3 [[]|e3]]; discriminate.
    + destruct (is_writable s1) as [s2 [|]]; [|discriminate].
      destruct (write_as_json_to_file _ _ s2) as [s3 [[]|e3]]; discriminate.
  - unfold ret. intros H. injection H as ->.
    split; [now exists e|]. exact (index_json_record_None tarball epd s s' I).
  - discriminate.
Qed.

(** A cache that is not writable is left as it is, with one exception: a
    tarball that cannot be read, for [EOFError] or [ReadError], is
    removed. *)
Theorem make_single_record_read_only (p : string) (s : S) :
  (forall s0, is_writable s0 = (s0, false)) ->
  let tarball := tarball_path p in
  fst (make p s) = s \/
  (exists e,
     read_index_json_from_tarball s tarball = Raises e /\
     is_archive_error e = true /\
     fst (make p s) = fst (rm_rf tarball s)).
Proof.
  intros RO tarball.
  remember (fst (make p s)) as after eqn:EX. revert EX.
  unfold _make_single_record. fold tarball. set (epd := extracted_dir p).
  unfold try_except at 1. unfold bind at 1, reads_or_raises at 1.
  destruct (read_repodata_json s epd) as [j|e]; [intros ->; now left|].
  destruct (is_environment_error e); [|intros ->; now left].
  assert (I :
    (exists r, index_json_record' tarball epd s = (s, r)) \/
    (exists e1, read_index_json_from_tarball s tarball = Raises e1 /\
                is_archive_error e1 = true /\
                exists r : outcome Err unit,
                  index_json_record' tarball epd s
                  = (fst (rm_rf tarball s),
                     match r with
                     | Returns _ => Returns None
                     | Raises e2 => Raises e2
                     end))).
  { unfold index_json_record, try_except, bind, reads, reads_or_raises, ret.
    destruct (read_index_json s epd) as [j|e0]; [left; eauto|].
    destruct (is_environment_error e0); [|left; eauto].
    destruct (isdir s epd && negb (isfile s tarball)); [left; eauto|].
    unfold from_archive, bind, asks, reads_or_raises. rewrite RO.
    destruct (read_index_json_from_tarball s tarball) as [j|e1] eqn:T; [left; eauto|].
    destruct (is_archive_error e1) eqn:A; [|left; eauto].
    right. exists e1. split; [reflexivity|]. split; [exact A|].
    destruct (rm_rf tarball s) as [s2 [[]|e2]]; cbn [fst].
    - now exists (Returns tt).
    - now exists (Raises e2). }
  unfold bind at 1.
  assert (Rest : forall s1 (j : Json),
    fst ((present <- reads (fun s => isfile s tarball) ;;
          md5 <- (if present : bool
                  then m <- reads_or_raises (fun s => compute_md5sum s tarball) ;;
                       ret (Some m)
                  else ret None) ;;
          w <- asks is_writable ;;
          (if w : bool
           then write_as_json_to_file
                  (join (join epd "info") "repodata_record.json")
                  (to_repodata
                     (mkRecord j
                        (Some (match get_url tarball with
                               | Some u => u
                               | None => path_to_url tarball
                               end, md5)) tarball epd))
           else ret tt) ;;
          ret (Some (mkRecord j
                       (Some (match get_url tarball with
                              | Some u => u
                              | None => path_to_url tarball
                              end, md5)) tarball epd))) s1) = s1).
  { intros s1 j.
    unfold bind, reads, reads_or_raises, ret, asks.
    destruct (isfile s1 tarball).
    - destruct (compute_md5sum s1 tarball) as [m|e2]; [|reflexivity].
      now rewrite RO.
    - now rewrite RO. }
  destruct I as [[r I]|[e1 [T [A [r I]]]]]; rewrite I.
  - destruct r as [[j|]|e1]; [rewrite Rest| |]; intros ->; now left.
  - intros EX. right. exists e1. split; [exact T|]. split; [exact A|].
    rewrite EX. destruct r as [[]|e2]; reflexivity.
Qed.

End Disk.

Lemma make_single_record_paths_witness :
  (endswith "/rw/pkgs/x-1-0" CONDA_TARBALL_EXTENSION = false ->
   forall s,
     toy_make_single_record ("/rw/pkgs/x-1-0" ++ CONDA_TARBALL_EXTENSION) s
     = toy_make_single_record "/rw/pkgs/x-1-0" s) /\
  (forall s s' r,
     toy_make_single_record "/rw/pkgs/x-1-0" s = (s', Returns (Some r)) ->
     package_tarball_full_path r = extracted_package_dir r ++ CONDA_TARBALL_EXTENSION /\
     (package_tarball_full_path r = "/rw/pkgs/x-1-0" \/
      extracted_package_dir r = "/rw/pkgs/x-1-0")).
Proof.
  exact (make_single_record_paths Toy ToyErr string _ _ _ _ _ _ _ _ _ _ _ _ _ _ _
           "/rw/pkgs/x-1-0").
Defined.

Lemma make_single_record_none_witness :
  let tarball := tarball_path "/ro/pkgs/y-2-0.tar.bz2" in
  let epd := extracted_dir "/ro/pkgs/y-2-0.tar.bz2" in
  let s' := fst (toy_rm_rf "/ro/pkgs/y-2-0.tar.bz2" toy_broken) in
  (exists e, toy_read "repodata_record.json" toy_broken epd = Raises e /\
             match e with NoSuchFile => true | ReadError => false end = true) /\
  (exists e, toy_read "index.json" toy_broken epd = Raises e /\
             match e with NoSuchFile => true | ReadError => false end = true) /\
  ((has epd (dirs toy_broken) = true /\ has tarball (files toy_broken) = false /\
    s' = toy_broken) \/
   (has epd (dirs toy_broken) && negb (has tarball (files toy_broken)) = false /\
    exists s1 e,
      from_archive Toy ToyErr string (toy_read "index.json") toy_read_tarball
        (fun d p => has p (dirs d)) toy_rm_rf toy_extract (fun d => (d, writable d))
        tarball epd toy_broken = (s1, Raises e) /\
      match e with ReadError => true | NoSuchFile => false end = true /\
      toy_rm_rf tarball s1 = (s', Returns tt))).
Proof.
  apply (make_single_record_none Toy ToyErr string
           (fun e => match e with NoSuchFile => true | ReadError => false end)
           (fun e => match e with ReadError => true | NoSuchFile => false end)
           (toy_read "repodata_record.json") (toy_read "index.json") toy_read_tarball
           (fun d p => has p (dirs d)) (fun d p => has p (files d))
           toy_md5 toy_rm_rf toy_extract toy_write (fun d => (d, writable d))
           (fun _ => None) (fun p => "file://" ++ p) (fun r => fields r)
           "/ro/pkgs/y-2-0.tar.bz2" toy_broken).
  vm_compute. reflexivity.
Defined.

Lemma make_single_record_read_only_witness :
  let make_ro :=
    _make_single_record Toy ToyErr string
      (fun e => match e with NoSuchFile => true | ReadError => false end)
      (fun e => match e with ReadError => true | NoSuchFile => false end)
      (toy_read "repodata_record.json") (toy_read "index.json") toy_read_tarball
      (fun d p => has p (dirs d)) (fun d p => has p (files d))
      toy_md5 toy_rm_rf toy_extract toy_write (fun d => (d, false))
      (fun _ => None) (fun p => "file://" ++ p) (fun r => fields r) in
  fst (make_ro "/ro/pkgs/y-2-0.tar.bz2" toy_broken) = toy_broken \/
  (exists e,
     toy_read_tarball toy_broken (tarball_path "/ro/pkgs/y-2-0.tar.bz2") = Raises e /\
     match e with ReadError => true | NoSuchFile => false end = true /\
     fst (make_ro "/ro/pkgs/y-2-0.tar.bz2" toy_broken)
     = fst (toy_rm_rf (tarball_path "/ro/pkgs/y-2-0.tar.bz2") toy_broken)).
Proof.
  apply (make_single_record_read_only Toy ToyErr string
           (fun e => match e with NoSuchFile => true | ReadError => false end)
           (fun e => match e with ReadError => true | NoSuchFile => false end)
           (toy_read "repodata_record.json") (toy_read "index.json") toy_read_tarball
           (fun d p => has p (dirs d)) (fun d p => has p (files d))
           toy_md5 toy_rm_rf toy_extract toy_write (fun d => (d, false))
           (fun _ => None) (fun p => "file://" ++ p) (fun r => fields r)
           "/ro/pkgs/y-2-0.tar.bz2" toy_broken).
  intros s0. reflexivity.
Defined.

End SingleRecordFacts.

(** ** [add_url] on a disk that may refuse *)

Module UrlsIOFacts.
Import PyStr PyStrFacts Urls UrlsLog Os UrlsLogFacts.

Section Files.

Variable Channel : string -> ChannelInfo.
Variable Disk : Type.
Variable E : Type.
Variable isfile : Disk -> string -> bool.
Variable isdir : Disk -> string -> bool.
Variable mkdir_p : string -> Disk -> Disk * outcome E unit.
Variable append_text : string -> string -> Disk -> Disk * outcome E unit.

Abbreviation io_add_url :=
  (UrlsIO.add_url Channel Disk E isfile isdir mkdir_p append_text).
Abbreviation io_add_urls :=
  (UrlsIO.add_urls Channel Disk E isfile isdir mkdir_p append_text).
Abbreviation channel_key' := (UrlsIO.channel_key Channel).

(** The next call on the disk, by cases on its outcome. *)
Ltac io_step :=
  match goal with
  | |- context [mkdir_p ?p ?d] => destruct (mkdir_p p d) as [? [[]|?]]
  | |- context [append_text ?p ?t ?d] => destruct (append_text p t d) as [? [[]|?]]
  end;
  cbn [fst snd pkgs_dir urls_txt_path _urls_data appended].

(** One call: when it returns, the object is what [add_url] makes of it
    when nothing fails; when it raises, either the per-channel file could
    not be written, and the URL is in the per-channel bucket alone, or the
    root file could not, and the URL is in both buckets without its line
    in the root file. *)
Lemma add_url_outcome (u : string) (self : UrlsData) (d : Disk) :
  match io_add_url u (self, d) with
  | ((self', _), Returns _) => self' = Urls.add_url Channel self u
  | ((self', _), Raises _) =>
      truthy u = true /\
      ((channel_key' u <> None /\
        _urls_data self' = insert0 (channel_key' u) u (_urls_data self) /\
        appended self' = appended self)
       \/
       (_urls_data self' = _urls_data (Urls.add_url Channel self u) /\
        appended (Urls.add_url Channel self u)
        = (urls_txt_path self, u ++ newline) :: appended self'))
  end.
Proof.
  unfold UrlsIO.add_url, Urls.add_url, UrlsIO.channel_key.
  destruct (truthy u); cbn [negb]; [|reflexivity].
  destruct (subdir_truthy (Channel u)) as [sd|];
    unfold UrlsIO.write_line, UrlsIO.insert_url, UrlsIO.on_disk, bind, reads, ret;
    cbn [fst snd pkgs_dir urls_txt_path _urls_data appended].
  - destruct (negb (isfile d _) && negb (isdir d _));
      repeat io_step;
      first [ reflexivity
            | split; [reflexivity|];
              first [ left; split; [discriminate|]; split; reflexivity
                    | right; split; reflexivity ] ].
  - repeat io_step;
      first [ reflexivity | split; [reflexivity|]; right; split; reflexivity ].
Qed.


End Files.

(** On a fresh root whose [urls.txt] cannot be written, [add_url] of the
    URL of scenario S5 raises with the URL in both buckets and its line in
    the per-channel file alone; and when the per-channel file cannot be
    written, with the URL in the per-channel bucket alone and no line
    written. *)
Example add_url_refused :
  UrlsIO.refusing_add_urls [url_S5] (new_UrlsData "/opt/pkgs", ["/opt/pkgs/urls.txt"])
  = (mkUrlsData "/opt/pkgs" "/opt/pkgs/urls.txt"
       [(Some "h/c/linux-64", [url_S5]); (None, [url_S5])]
       [("/opt/pkgs/h/c/linux-64/urls.txt", url_S5 ++ newline)],
     ["/opt/pkgs/urls.txt"], Raises tt) /\
  UrlsIO.refusing_add_urls [url_S5]
    (new_UrlsData "/opt/pkgs", ["/opt/pkgs/h/c/linux-64/urls.txt"])
  = (mkUrlsData "/opt/pkgs" "/opt/pkgs/urls.txt" [(Some "h/c/linux-64", [url_S5])] [],
     ["/opt/pkgs/h/c/linux-64/urls.txt"], Raises tt).
Proof. vm_compute. split; reflexivity. Qed.

End UrlsIOFacts.
